(** * float-liner: the block tree, the pane layout, and the sync bridge

    A shallow embedding of the outliner's stores and helpers, and the
    properties the specification states about them. *)

From Stdlib Require Import ZArith NArith QArith Qminmax Ascii String.
From stdpp Require Import strings gmap list fin_maps.


(** * JavaScript strings

    A JS string is a sequence of UTF-16 code units.  Only the methods the
    sources call are modelled. *)

Module JsString.

Definition jsstring := list N.

(** An ASCII literal as a JS string. *)
Definition lit (s : string) : jsstring := N_of_ascii <$> list_ascii_of_string s.

(** ECMAScript WhiteSpace and LineTerminator code units, as [trim] strips. *)
Definition isWhiteSpace (c : N) : bool :=
  ((9 <=? c) && (c <=? 13) || (c =? 32) || (c =? 0xA0) || (c =? 0x1680)
   || (0x2000 <=? c) && (c <=? 0x200A) || (c =? 0x2028) || (c =? 0x2029)
   || (c =? 0x202F) || (c =? 0x205F) || (c =? 0x3000) || (c =? 0xFEFF))%N.

Fixpoint trimStart (s : jsstring) : jsstring :=
  match s with
  | c :: rest => if isWhiteSpace c then trimStart rest else s
  | [] => []
  end.

Definition trimEnd (s : jsstring) : jsstring := reverse (trimStart (reverse s)).

Definition trim (s : jsstring) : jsstring := trimEnd (trimStart s).

(** [toLowerCase], on the code units whose lower case is an ASCII letter:
    A to Z and the Kelvin sign.  Every other unit is kept, which agrees with
    JavaScript on each [startsWith] test against an ASCII prefix. *)
Definition lowerUnit (c : N) : N :=
  (if (65 <=? c) && (c <=? 90) then c + 32
   else if c =? 0x212A then 107 else c)%N.

Definition toLowerCase (s : jsstring) : jsstring := lowerUnit <$> s.

Fixpoint startsWith (s searchString : jsstring) : bool :=
  match searchString, s with
  | [], _ => true
  | p :: ps, c :: cs => (c =? p)%N && startsWith cs ps
  | _ :: _, [] => false
  end.

(** [s.slice(n)] for [0 ≤ n]. *)
Definition slice (n : nat) (s : jsstring) : jsstring := drop n s.

End JsString.

(** * JavaScript numbers, as far as [Math.max] and [Math.min] see them *)

Module JsNumber.

(** A [number] is NaN, an infinity, or a finite value.  [Math.max] and
    [Math.min] return one of their arguments, so a finite value is kept as
    the rational it denotes. *)
Inductive number := NaN | NegInfinity | Finite (q : Q) | Infinity.

(** [Math.min(a, b)]: NaN as soon as one argument is NaN. *)
Definition Math_min (a b : number) : number :=
  match a, b with
  | NaN, _ | _, NaN => NaN
  | NegInfinity, _ | _, NegInfinity => NegInfinity
  | Infinity, x | x, Infinity => x
  | Finite p, Finite q => Finite (Qmin p q)
  end.

(** [Math.max(a, b)]: NaN as soon as one argument is NaN. *)
Definition Math_max (a b : number) : number :=
  match a, b with
  | NaN, _ | _, NaN => NaN
  | Infinity, _ | _, Infinity => Infinity
  | NegInfinity, x | x, NegInfinity => x
  | Finite p, Finite q => Finite (Qmax p q)
  end.

End JsNumber.


(** * Core types ([lib/types.ts]) *)

Module Types.
Import JsString JsNumber.

Inductive SplitDirection := horizontal | vertical.

(** A leaf pane showing a block tree. *)
Record PaneLeaf := mkPaneLeaf {
  leaf_id : string;
  rootBlockId : string;
  focusedBlockId : option string
}.

(** [PaneNode = PaneLeaf | PaneSplit]; the ratio is a JavaScript number. *)
Inductive PaneNode :=
| Leaf (l : PaneLeaf)
| Split (id : string) (direction : SplitDirection) (ratio : number) (first second : PaneNode).

Definition pane_id (n : PaneNode) : string :=
  match n with
  | Leaf l => leaf_id l
  | Split i _ _ _ _ => i
  end.

Record PaneLayout := mkPaneLayout {
  root : PaneNode;
  activePaneId : string
}.

Definition createPaneLeaf (id rootBlockId : string) : PaneLeaf :=
  {| leaf_id := id; rootBlockId := rootBlockId; focusedBlockId := None |}.

(** [createPaneSplit] with its default [ratio = 0.5]. *)
Definition createPaneSplit (id : string) (direction : SplitDirection)
    (first second : PaneNode) : PaneNode :=
  Split id direction (Finite (1 # 2)) first second.


(** ** Blocks *)

(** Block type determined by the [prefix::] pattern. *)
Inductive BlockType := text | sh | ai | ctx | dispatch | web | output | error.

(** Parse block type from content prefix. *)
Definition parseBlockType (content : jsstring) : BlockType :=
  let trimmed := toLowerCase (trim content) in
  if startsWith trimmed (lit "sh::") || startsWith trimmed (lit "term::") then sh
  else if startsWith trimmed (lit "ai::") || startsWith trimmed (lit "chat::") then ai
  else if startsWith trimmed (lit "ctx::") then ctx
  else if startsWith trimmed (lit "dispatch::") then dispatch
  else if startsWith trimmed (lit "web::") || startsWith trimmed (lit "link::") then web
  else text.

(** A block in the tree.  The optional [status] and [exitCode] are left out:
    the block store neither reads nor writes them. *)
Record Block := mkBlock {
  id : string;
  parentId : option string;
  childIds : list string;
  content : jsstring;
  type : BlockType;
  collapsed : bool;
  createdAt : Z;
  updatedAt : Z
}.

(** Create a new block with defaults; [now] is the [Date.now()] reading. *)
Definition createBlock (id : string) (content : jsstring) (parentId : option string)
    (now : Z) : Block :=
  {| id := id; parentId := parentId; childIds := []; content := content;
     type := parseBlockType content; collapsed := false;
     createdAt := now; updatedAt := now |}.

End Types.

(** * Pane layout store ([src/hooks/usePaneStore.ts], first document) *)

Module PaneStore.
Import JsNumber Types.

(** The store: the persisted layout and the session-scoped collapse
    overlay [Map<string, Set<string>>]. *)
Record PaneStore := mkPaneStore {
  layout : PaneLayout;
  collapsedBlocks : gmap string (gset string)
}.

(** [findNode]: first node, in pre-order, carrying the id. *)
Fixpoint findNode (node : PaneNode) (id : string) : option PaneNode :=
  if decide (pane_id node = id) then Some node
  else match node with
       | Split _ _ _ first second =>
           match findNode first id with
           | Some n => Some n
           | None => findNode second id
           end
       | Leaf _ => None
       end.

(** [findParent]: the first split, in pre-order, that has a direct child
    with the target id.  The result is always a [Split]. *)
Fixpoint findParent (root : PaneNode) (targetId : string) : option PaneNode :=
  match root with
  | Leaf _ => None
  | Split _ _ _ first second =>
      if bool_decide (pane_id first = targetId) || bool_decide (pane_id second = targetId)
      then Some root
      else match findParent first targetId with
           | Some p => Some p
           | None => findParent second targetId
           end
  end.

Fixpoint replaceNode (root : PaneNode) (targetId : string) (newNode : PaneNode) : PaneNode :=
  if decide (pane_id root = targetId) then newNode
  else match root with
       | Split i d r first second =>
           Split i d r (replaceNode first targetId newNode)
                       (replaceNode second targetId newNode)
       | Leaf _ => root
       end.

Fixpoint collectLeaves (node : PaneNode) : list PaneLeaf :=
  match node with
  | Leaf l => [l]
  | Split _ _ _ first second => collectLeaves first ++ collectLeaves second
  end.

Definition initialPaneId : string := "pane-1".

Definition initialLayout : PaneLayout :=
  {| root := Leaf (createPaneLeaf initialPaneId "root");
     activePaneId := initialPaneId |}.

Definition initialStore : PaneStore :=
  {| layout := initialLayout; collapsedBlocks := ∅ |}.

Definition setActivePane (paneId : string) (s : PaneStore) : PaneStore :=
  {| layout := {| root := root (layout s); activePaneId := paneId |};
     collapsedBlocks := collapsedBlocks s |}.

(** [splitPane]: [u1] and [u2] are the two [uuidv4().slice(0, 8)] draws,
    supplied by the environment. *)
Definition splitPane (u1 u2 : string) (paneId : string) (direction : SplitDirection)
    (s : PaneStore) : PaneStore :=
  match findNode (root (layout s)) paneId with
  | Some (Leaf targetPane) =>
      let newPaneId := "pane-" +:+ u1 in
      let splitId := "split-" +:+ u2 in
      let newPane := createPaneLeaf newPaneId (rootBlockId targetPane) in
      let split := createPaneSplit splitId direction (Leaf targetPane) (Leaf newPane) in
      let newRoot := replaceNode (root (layout s)) paneId split in
      {| layout := {| root := newRoot; activePaneId := newPaneId |};
         collapsedBlocks := collapsedBlocks s |}
  | _ => s
  end.

(** [newLeaves[0]?.id || initialPaneId]: the empty string is falsy. *)
Definition firstLeafIdOr (leaves : list PaneLeaf) (dflt : string) : string :=
  match leaves with
  | l :: _ => if decide (leaf_id l = "") then dflt else leaf_id l
  | [] => dflt
  end.

Definition closePane (paneId : string) (s : PaneStore) : PaneStore :=
  let leaves := collectLeaves (root (layout s)) in
  if bool_decide (length leaves ≤ 1) then s
  else match findParent (root (layout s)) paneId with
       | Some (Split parentId _ _ first second) =>
           let sibling := if decide (pane_id first = paneId) then second else first in
           let newRoot := replaceNode (root (layout s)) parentId sibling in
           let newActiveId :=
             if decide (activePaneId (layout s) = paneId)
             then firstLeafIdOr (collectLeaves newRoot) initialPaneId
             else activePaneId (layout s) in
           {| layout := {| root := newRoot; activePaneId := newActiveId |};
              collapsedBlocks := collapsedBlocks s |}
       | _ => s
       end.

(** [Math.max(0.1, Math.min(0.9, ratio))]. *)
Definition clampRatio (ratio : number) : number :=
  Math_max (Finite (1 # 10)) (Math_min (Finite (9 # 10)) ratio).

Fixpoint updateRatio (splitId : string) (ratio : number) (node : PaneNode) : PaneNode :=
  match node with
  | Split i d r first second =>
      if decide (i = splitId) then Split i d (clampRatio ratio) first second
      else Split i d r (updateRatio splitId ratio first) (updateRatio splitId ratio second)
  | Leaf _ => node
  end.

Definition setRatio (splitId : string) (ratio : number) (s : PaneStore) : PaneStore :=
  {| layout := {| root := updateRatio splitId ratio (root (layout s));
                  activePaneId := activePaneId (layout s) |};
     collapsedBlocks := collapsedBlocks s |}.

Fixpoint updatePaneRoot (paneId rootBlockId' : string) (node : PaneNode) : PaneNode :=
  match node with
  | Leaf l =>
      if decide (leaf_id l = paneId)
      then Leaf {| leaf_id := leaf_id l; rootBlockId := rootBlockId';
                   focusedBlockId := focusedBlockId l |}
      else node
  | Split i d r first second =>
      Split i d r (updatePaneRoot paneId rootBlockId' first)
                  (updatePaneRoot paneId rootBlockId' second)
  end.

Definition setPaneRoot (paneId rootBlockId' : string) (s : PaneStore) : PaneStore :=
  {| layout := {| root := updatePaneRoot paneId rootBlockId' (root (layout s));
                  activePaneId := activePaneId (layout s) |};
     collapsedBlocks := collapsedBlocks s |}.

Definition toggleCollapsed (paneId blockId : string) (s : PaneStore) : PaneStore :=
  let paneSet := default ∅ (collapsedBlocks s !! paneId) in
  let paneSet' :=
    if decide (blockId ∈ paneSet) then paneSet ∖ {[blockId]} else paneSet ∪ {[blockId]} in
  {| layout := layout s;
     collapsedBlocks := <[paneId := paneSet']> (collapsedBlocks s) |}.

Definition isCollapsed (s : PaneStore) (paneId blockId : string) (blockDefault : bool) : bool :=
  match collapsedBlocks s !! paneId with
  | None => blockDefault
  | Some paneSet => if decide (blockId ∈ paneSet) then negb blockDefault else blockDefault
  end.

Definition getPane (s : PaneStore) (paneId : string) : option PaneLeaf :=
  match findNode (root (layout s)) paneId with
  | Some (Leaf l) => Some l
  | _ => None
  end.

Definition getAllLeafPanes (s : PaneStore) : list PaneLeaf :=
  collectLeaves (root (layout s)).

(** The store's actions, as one type, and the transition they induce. *)
Inductive Action :=
| SetActivePane (paneId : string)
| SplitPane (u1 u2 paneId : string) (direction : SplitDirection)
| ClosePane (paneId : string)
| SetRatio (splitId : string) (ratio : number)
| SetPaneRoot (paneId rootBlockId' : string)
| ToggleCollapsed (paneId blockId : string).

Definition step (a : Action) (s : PaneStore) : PaneStore :=
  match a with
  | SetActivePane p => setActivePane p s
  | SplitPane u1 u2 p d => splitPane u1 u2 p d s
  | ClosePane p => closePane p s
  | SetRatio i r => setRatio i r s
  | SetPaneRoot p b => setPaneRoot p b s
  | ToggleCollapsed p b => toggleCollapsed p b s
  end.

(** ** Specification vocabulary *)

Definition leafIds (n : PaneNode) : list string := leaf_id <$> collectLeaves n.

Fixpoint splitIds (n : PaneNode) : list string :=
  match n with
  | Leaf _ => []
  | Split i _ _ first second => i :: splitIds first ++ splitIds second
  end.

(** Every id of the tree, leaves and splits, in pre-order. *)
Fixpoint nodeIds (n : PaneNode) : list string :=
  match n with
  | Leaf l => [leaf_id l]
  | Split i _ _ first second => i :: nodeIds first ++ nodeIds second
  end.

Definition leafCount (n : PaneNode) : nat := length (collectLeaves n).

(** The §3 PaneLayout invariant. *)
Definition layout_inv (l : PaneLayout) : Prop :=
  1 ≤ leafCount (root l) ∧ activePaneId l ∈ leafIds (root l).

(** Node ids are pairwise distinct and no leaf has the empty id. *)
Definition distinct_ids (n : PaneNode) : Prop :=
  NoDup (nodeIds n) ∧ "" ∉ leafIds n.

(** Arguments with which the user interface calls an action: an existing
    leaf for [setActivePane], never a split for [closePane]. *)
Definition admissible (l : PaneLayout) (a : Action) : Prop :=
  match a with
  | SetActivePane p => p ∈ leafIds (root l)
  | ClosePane p => p ∉ splitIds (root l)
  | _ => True
  end.

(** Ids a [splitPane] draws must be new to the tree. *)
Definition fresh_ids (l : PaneLayout) (a : Action) : Prop :=
  match a with
  | SplitPane u1 u2 _ _ =>
      (("pane-" +:+ u1) ∉ nodeIds (root l)) ∧ (("split-" +:+ u2) ∉ nodeIds (root l))
  | _ => True
  end.

Fixpoint admissible_run (s : PaneStore) (acts : list Action) : Prop :=
  match acts with
  | [] => True
  | a :: rest =>
      admissible (layout s) a ∧ fresh_ids (layout s) a ∧ admissible_run (step a s) rest
  end.

Definition run (acts : list Action) (s : PaneStore) : PaneStore :=
  foldl (λ st a, step a st) s acts.

(** Sample stores, reached from the initial one through the actions. *)
Definition twoPanes : PaneStore :=
  splitPane "0000000a" "0000000b" "pane-1" horizontal initialStore.

Definition threePanes : PaneStore :=
  splitPane "0000000c" "0000000d" "pane-1" vertical twoPanes.

Definition twoPanesOverlay : PaneStore :=
  toggleCollapsed "pane-0000000a" "block-1" twoPanes.

(** A tree in which two splits share an id, and one with an empty leaf id. *)
Definition duplicateIds : PaneStore :=
  {| layout :=
       {| root := Split "split-1" horizontal (Finite (1 # 2))
                    (Leaf (createPaneLeaf "pane-1" "root"))
                    (Split "split-1" vertical (Finite (1 # 2))
                       (Leaf (createPaneLeaf "pane-2" "root"))
                       (Leaf (createPaneLeaf "pane-3" "root")));
          activePaneId := "pane-1" |};
     collapsedBlocks := ∅ |}.

Definition emptyLeafId : PaneStore :=
  {| layout :=
       {| root := Split "split-1" horizontal (Finite (1 # 2))
                    (Leaf (createPaneLeaf "" "root"))
                    (Leaf (createPaneLeaf "pane-2" "root"));
          activePaneId := "pane-2" |};
     collapsedBlocks := ∅ |}.

End PaneStore.

(** * Shell executor ([lib/executor.ts]) *)

Module Executor.
Import JsString Types.

(** Smart quotes to straight quotes, en and em dash to hyphen. *)
Definition normalizeUnit (c : N) : N :=
  (if (c =? 0x201C) || (c =? 0x201D) then 34
   else if (c =? 0x2018) || (c =? 0x2019) then 39
   else if (c =? 0x2013) || (c =? 0x2014) then 45
   else c)%N.

Definition normalizeQuotes (str : jsstring) : jsstring := normalizeUnit <$> str.

(** [null] is [None]; the empty command is falsy and also gives [null]. *)
Definition extractShellCommand (content : jsstring) : option jsstring :=
  let trimmed := trim content in
  let lower := toLowerCase trimmed in
  let command :=
    if startsWith lower (lit "sh::") then Some (trim (slice 4 trimmed))
    else if startsWith lower (lit "term::") then Some (trim (slice 6 trimmed))
    else None in
  match command with
  | Some (c :: cs) => Some (normalizeQuotes (c :: cs))
  | _ => None
  end.

Definition isExecutableShellBlock (content : jsstring) : bool :=
  match extractShellCommand content with
  | Some (_ :: _) => true
  | _ => false
  end.

(** The typographic code units [normalizeQuotes] rewrites. *)
Definition isTypographic (c : N) : bool :=
  bool_decide (c ∈ [0x201C; 0x201D; 0x2018; 0x2019; 0x2013; 0x2014]%N).

(** [sh:: ls ?la] with the given dash. *)
Definition lsContent (dash : N) : jsstring := lit "sh:: ls " ++ dash :: lit "la".

(** The straight equivalent of a code unit, in the specification's words: a
    curly double quote (U+201C, U+201D) is the straight double quote U+0022,
    a curly single quote (U+2018, U+2019) is the apostrophe U+0027, an en or
    em dash (U+2013, U+2014) is the hyphen U+002D; every other unit is its
    own equivalent. *)
Definition straightEquivalent (c : N) : N :=
  (if bool_decide (c ∈ [0x201C; 0x201D]) then 0x22
   else if bool_decide (c ∈ [0x2018; 0x2019]) then 0x27
   else if bool_decide (c ∈ [0x2013; 0x2014]) then 0x2D
   else c)%N.

(** [echo ?hi? ?x?]: [hi] between the given double quotes, [x] between the
    given single quotes; and the block content [sh:: echo ?hi? ?x?]. *)
Definition echoCommand (dopen dclose sopen sclose : N) : jsstring :=
  lit "echo " ++ dopen :: lit "hi" ++ dclose :: lit " " ++ sopen :: lit "x" ++ [sclose].

Definition echoContent (dopen dclose sopen sclose : N) : jsstring :=
  lit "sh:: " ++ echoCommand dopen dclose sopen sclose.

End Executor.

(** * Synchronization bridge ([hooks/useSyncedYDoc.ts]) and the executor's
      write-back ([executeShellBlock])

    The bridge is a state machine over the hook's refs.  The Yjs document
    is seen through its one observable effect here: applying an update emits
    an [update] event, carrying the origin the writer passed ([undefined]
    when none was), to the handler registered on that document. *)

Module SyncedYDoc.

Record Bridge := mkBridge {
  isApplyingRemoteRef : bool;
  (** handle of the last [setTimeout], or [null] *)
  syncTimerRef : option nat;
  (** the window's live timers, each one a push waiting to fire *)
  timers : list nat;
  (** the handle the next [setTimeout] returns *)
  nextTimer : nat;
  (** [updateHandler] is registered on [docRef.current] *)
  handlerAttached : bool;
  isLoaded : bool;
  docVersion : nat
}.

Definition initialBridge : Bridge :=
  {| isApplyingRemoteRef := false; syncTimerRef := None; timers := [];
     nextTimer := 1; handlerAttached := false; isLoaded := false; docVersion := 0 |}.

Definition clearTimeout (h : nat) (ts : list nat) : list nat :=
  filter (λ t, t ≠ h) ts.

Definition setApplying (v : bool) (b : Bridge) : Bridge :=
  {| isApplyingRemoteRef := v; syncTimerRef := syncTimerRef b; timers := timers b;
     nextTimer := nextTimer b; handlerAttached := handlerAttached b;
     isLoaded := isLoaded b; docVersion := docVersion b |}.

(** [debouncedSync]: drop the pending timer, start a new one. *)
Definition debouncedSync (b : Bridge) : Bridge :=
  let ts := match syncTimerRef b with
            | Some h => clearTimeout h (timers b)
            | None => timers b
            end in
  {| isApplyingRemoteRef := isApplyingRemoteRef b;
     syncTimerRef := Some (nextTimer b);
     timers := ts ++ [nextTimer b];
     nextTimer := S (nextTimer b);
     handlerAttached := handlerAttached b;
     isLoaded := isLoaded b; docVersion := docVersion b |}.

(** [updateHandler]: do not sync back changes that came from Rust. *)
Definition updateHandler (origin : option string) (b : Bridge) : Bridge :=
  if bool_decide (origin = Some "remote") || isApplyingRemoteRef b then b
  else debouncedSync b.

(** [Y.applyUpdate(doc, update, origin)] as the bridge sees it. *)
Definition applyUpdate (origin : option string) (b : Bridge) : Bridge :=
  if handlerAttached b then updateHandler origin b else b.

(** The effect's synchronous part: [doc.on('update', updateHandler)]. *)
Definition mount (b : Bridge) : Bridge :=
  {| isApplyingRemoteRef := isApplyingRemoteRef b; syncTimerRef := syncTimerRef b;
     timers := timers b; nextTimer := nextTimer b; handlerAttached := true;
     isLoaded := isLoaded b; docVersion := docVersion b |}.

(** [loadInitialState], once [get_initial_state] has answered. *)
Definition loadInitialState (b : Bridge) : Bridge :=
  let b1 := setApplying true b in
  let b2 := applyUpdate None b1 in
  let b3 := setApplying false b2 in
  {| isApplyingRemoteRef := isApplyingRemoteRef b3; syncTimerRef := syncTimerRef b3;
     timers := timers b3; nextTimer := nextTimer b3;
     handlerAttached := handlerAttached b3; isLoaded := true;
     docVersion := docVersion b3 |}.

(** [reloadFromState]: the fresh document gets the snapshot before any
    handler is registered on it. *)
Definition reloadFromState (b : Bridge) : Bridge :=
  let ts := match syncTimerRef b with
            | Some h => clearTimeout h (timers b)
            | None => timers b
            end in
  let newDoc :=
    {| isApplyingRemoteRef := true; syncTimerRef := None; timers := ts;
       nextTimer := nextTimer b; handlerAttached := false;
       isLoaded := isLoaded b; docVersion := docVersion b |} in
  let b2 := applyUpdate None newDoc in
  {| isApplyingRemoteRef := false; syncTimerRef := syncTimerRef b2;
     timers := timers b2; nextTimer := nextTimer b2; handlerAttached := true;
     isLoaded := true; docVersion := S (docVersion b2) |}.

(** A Mutation Engine transaction: [_doc.transact(...)] without origin. *)
Definition localEdit (b : Bridge) : Bridge := applyUpdate None b.

(** [executeShellBlock], once [execute_shell] has answered:
    [Y.applyUpdate(doc, updateBytes)], no origin, the ref untouched. *)
Definition executeShellBlock (b : Bridge) : Bridge := applyUpdate None b.

(** The bridge after mount and initial load. *)
Definition loadedBridge : Bridge := loadInitialState (mount initialBridge).

End SyncedYDoc.

(** * Block store ([hooks/useBlockStore.ts], second document of
      [src/hooks/usePaneStore.ts])

    The store holds a snapshot ([blocks], [rootIds]) for readers and a
    reference to the Yjs document.  Every action reads the snapshot, writes
    the document in one transaction, and the document's observers then run
    [_syncFromYDoc].  Blocks live in the document as plain objects. *)

Module BlockStore.
Import JsString Types.

(** ** Array helpers *)

Fixpoint index_of (x : string) (l : list string) : option nat :=
  match l with
  | [] => None
  | y :: rest => if decide (y = x) then Some 0 else S <$> index_of x rest
  end.

(** [l.indexOf(x)], with [-1] for absent. *)
Definition indexOf (x : string) (l : list string) : Z :=
  match index_of x l with
  | Some i => Z.of_nat i
  | None => (-1)%Z
  end.

(** [l.splice(start, 0, x)] and [yarray.insert(start, xs)], [0 ≤ start ≤ length]. *)
Definition insertAt (start : Z) (xs : list string) (l : list string) : list string :=
  take (Z.to_nat start) l ++ xs ++ drop (Z.to_nat start) l.

(** [yarray.delete(start, n)], in range. *)
Definition deleteAt (start : Z) (n : nat) (l : list string) : list string :=
  take (Z.to_nat start) l ++ drop (Z.to_nat start + n) l.

(** [[a[i], a[j]] = [a[j], a[i]]] on a copy, both indices in range. *)
Definition swapAt (i j : nat) (l : list string) : list string :=
  match l !! i, l !! j with
  | Some x, Some y => <[i := y]> (<[j := x]> l)
  | _, _ => l
  end.

(** [cids.filter(cid => cid !== id)] *)
Definition without (x : string) (l : list string) : list string :=
  filter (λ cid, cid ≠ x) l.

(** ** The document *)

Record YDoc := mkYDoc {
  blocksMap : gmap string Block;
  rootIdsArr : list string
}.

Record BlockStore := mkBlockStore {
  blocks : gmap string Block;
  rootIds : list string;
  isInitialized : bool;
  _doc : option YDoc
}.

Definition set_childIds (v : list string) (b : Block) : Block :=
  {| id := id b; parentId := parentId b; childIds := v; content := content b;
     type := type b; collapsed := collapsed b; createdAt := createdAt b;
     updatedAt := updatedAt b |}.

Definition set_parentId (v : option string) (b : Block) : Block :=
  {| id := id b; parentId := v; childIds := childIds b; content := content b;
     type := type b; collapsed := collapsed b; createdAt := createdAt b;
     updatedAt := updatedAt b |}.

Definition set_collapsed (v : bool) (b : Block) : Block :=
  {| id := id b; parentId := parentId b; childIds := childIds b; content := content b;
     type := type b; collapsed := v; createdAt := createdAt b;
     updatedAt := updatedAt b |}.

Definition set_updatedAt (v : Z) (b : Block) : Block :=
  {| id := id b; parentId := parentId b; childIds := childIds b; content := content b;
     type := type b; collapsed := collapsed b; createdAt := createdAt b;
     updatedAt := v |}.

Definition set_content (v : jsstring) (b : Block) : Block :=
  {| id := id b; parentId := parentId b; childIds := childIds b; content := v;
     type := type b; collapsed := collapsed b; createdAt := createdAt b;
     updatedAt := updatedAt b |}.

Definition set_type (v : BlockType) (b : Block) : Block :=
  {| id := id b; parentId := parentId b; childIds := childIds b; content := content b;
     type := v; collapsed := collapsed b; createdAt := createdAt b;
     updatedAt := updatedAt b |}.

(** [setValueOnYMap(blocksMap, blockId, key, value)]: rewrite one field of
    the stored object; nothing happens when the block is absent. *)
Definition setValueOnYMap (blockId : string) (setter : Block → Block)
    (m : gmap string Block) : gmap string Block :=
  alter setter blockId m.

(** [(getValue(data, 'childIds') as string[]) || []] *)
Definition getChildIds (data : option Block) : list string :=
  match data with
  | Some b => childIds b
  | None => []
  end.

(** [if (x.parentId)]: [null] and the empty string are falsy. *)
Definition truthy (o : option string) : option string :=
  match o with
  | Some p => if decide (p = "") then None else Some p
  | None => None
  end.

(** [toBlock]: an object without a truthy [id] is dropped. *)
Definition toBlock (value : Block) : option Block :=
  if decide (id value = "") then None else Some value.

Definition blockToPlainObject (block : Block) : Block := block.

(** The quick equality check of [_syncFromYDoc], for one new block. *)
Definition changedAt (oldBlocks : gmap string Block) (k : string) (block : Block) : bool :=
  match oldBlocks !! k with
  | None => true
  | Some oldBlock =>
      negb (bool_decide (content oldBlock = content block))
      || negb (bool_decide (collapsed oldBlock = collapsed block))
      || negb (bool_decide (childIds oldBlock = childIds block))
  end.

Definition blocksChanged (oldBlocks newBlocks : gmap string Block) : bool :=
  negb (bool_decide (size oldBlocks = size newBlocks))
  || bool_decide (map_Exists (λ k block, changedAt oldBlocks k block = true) newBlocks).

Definition _syncFromYDoc (s : BlockStore) : BlockStore :=
  match _doc s with
  | None => s
  | Some d =>
      let newBlocks := omap toBlock (blocksMap d) in
      let newRootIds := rootIdsArr d in
      {| blocks := if blocksChanged (blocks s) newBlocks then newBlocks else blocks s;
         rootIds := if bool_decide (rootIds s = newRootIds) then rootIds s else newRootIds;
         isInitialized := isInitialized s;
         _doc := _doc s |}
  end.

(** A committed transaction: the document is replaced and the observers
    bring the snapshot up to date. *)
Definition transact (s : BlockStore) (d : YDoc) : BlockStore :=
  _syncFromYDoc {| blocks := blocks s; rootIds := rootIds s;
                   isInitialized := isInitialized s; _doc := Some d |}.

Definition initFromYDoc (d : YDoc) (s : BlockStore) : BlockStore :=
  let s' := transact s d in
  {| blocks := blocks s'; rootIds := rootIds s'; isInitialized := true; _doc := _doc s' |}.

Definition emptyStore : BlockStore :=
  {| blocks := ∅; rootIds := []; isInitialized := false; _doc := None |}.

Definition getBlock (s : BlockStore) (k : string) : option Block := blocks s !! k.

(** ** Actions

    [newId] is the [uuidv4()] draw and [now] the [Date.now()] reading.  Each
    action checks the snapshot and then runs a transaction on the document;
    the transaction bodies (the closures handed to [_doc.transact]) are the
    [_txn] functions, with the variables they capture as arguments. *)

Definition updateBlockContent_txn (now : Z) (k : string) (text : jsstring) (d : YDoc) : YDoc :=
  let m1 := setValueOnYMap k (set_content text) (blocksMap d) in
  let m2 := setValueOnYMap k (set_type (parseBlockType text)) m1 in
  let m3 := setValueOnYMap k (set_updatedAt now) m2 in
  {| blocksMap := m3; rootIdsArr := rootIdsArr d |}.

Definition updateBlockContent (now : Z) (k : string) (text : jsstring)
    (s : BlockStore) : BlockStore :=
  match _doc s with
  | None => s
  | Some d => transact s (updateBlockContent_txn now k text d)
  end.

Definition createBlockAfter_txn (newId afterId : string) (afterBlock newBlock : Block)
    (d : YDoc) : YDoc :=
  let m1 := <[newId := blockToPlainObject newBlock]> (blocksMap d) in
  match truthy (parentId afterBlock) with
  | Some p =>
      let cids := getChildIds (m1 !! p) in
      let afterIndex := indexOf afterId cids in
      {| blocksMap :=
           setValueOnYMap p (set_childIds (insertAt (afterIndex + 1) [newId] cids)) m1;
         rootIdsArr := rootIdsArr d |}
  | None =>
      let arr := rootIdsArr d in
      let afterIndex := indexOf afterId arr in
      {| blocksMap := m1; rootIdsArr := insertAt (afterIndex + 1) [newId] arr |}
  end.

Definition createBlockAfter (newId : string) (now : Z) (afterId : string)
    (s : BlockStore) : string * BlockStore :=
  match _doc s with
  | None => ("", s)
  | Some d =>
      match blocks s !! afterId with
      | None => ("", s)
      | Some afterBlock =>
          let newBlock := createBlock newId [] (parentId afterBlock) now in
          (newId, transact s (createBlockAfter_txn newId afterId afterBlock newBlock d))
      end
  end.

Definition createBlockInside_txn (newId parent : string) (newBlock : Block)
    (d : YDoc) : YDoc :=
  let m1 := <[newId := blockToPlainObject newBlock]> (blocksMap d) in
  let cids := getChildIds (m1 !! parent) ++ [newId] in
  let m2 := setValueOnYMap parent (set_childIds cids) m1 in
  let m3 := setValueOnYMap parent (set_collapsed false) m2 in
  {| blocksMap := m3; rootIdsArr := rootIdsArr d |}.

Definition createBlockInside (newId : string) (now : Z) (parent : string)
    (s : BlockStore) : string * BlockStore :=
  match _doc s with
  | None => ("", s)
  | Some d =>
      match blocks s !! parent with
      | None => ("", s)
      | Some parentBlock =>
          let newBlock := createBlock newId [] (Some parent) now in
          (newId, transact s (createBlockInside_txn newId parent newBlock d))
      end
  end.

(** "Remove from parent's childIds" / "Remove from rootIds", as
    [deleteBlock] and [indentBlock] both spell it out. *)
Definition detached (c : option string) (k : string) (d : YDoc) : YDoc :=
  match c with
  | Some p =>
      let cids := without k (getChildIds (blocksMap d !! p)) in
      {| blocksMap := setValueOnYMap p (set_childIds cids) (blocksMap d);
         rootIdsArr := rootIdsArr d |}
  | None =>
      let index := indexOf k (rootIdsArr d) in
      {| blocksMap := blocksMap d;
         rootIdsArr := if bool_decide (0 ≤ index)%Z
                       then deleteAt index 1 (rootIdsArr d)
                       else rootIdsArr d |}
  end.

Definition deleteBlock_txn (k : string) (block : Block) (d : YDoc) : YDoc :=
  let d1 := detached (truthy (parentId block)) k d in
  {| blocksMap := delete k (blocksMap d1); rootIdsArr := rootIdsArr d1 |}.

Definition deleteBlock (k : string) (s : BlockStore) : BlockStore :=
  match _doc s with
  | None => s
  | Some d =>
      match blocks s !! k with
      | None => s
      | Some block =>
          if bool_decide (0 < length (childIds block)) then s
          else transact s (deleteBlock_txn k block d)
      end
  end.

(** The siblings array of [indentBlock], [moveBlockUp] and [moveBlockDown]:
    [parent?.childIds || []] or the snapshot's [rootIds]. *)
Definition siblingsOf (s : BlockStore) (block : Block) : list string :=
  match truthy (parentId block) with
  | Some p => getChildIds (blocks s !! p)
  | None => rootIds s
  end.

Definition indentBlock_txn (now : Z) (k : string) (block : Block) (newParentId : string)
    (d : YDoc) : YDoc :=
  let d1 := detached (truthy (parentId block)) k d in
  let newChildIds := getChildIds (blocksMap d1 !! newParentId) ++ [k] in
  let m2 := setValueOnYMap newParentId (set_childIds newChildIds) (blocksMap d1) in
  let m3 := setValueOnYMap newParentId (set_collapsed false) m2 in
  let m4 := setValueOnYMap k (set_parentId (Some newParentId)) m3 in
  let m5 := setValueOnYMap k (set_updatedAt now) m4 in
  {| blocksMap := m5; rootIdsArr := rootIdsArr d1 |}.

Definition indentBlock (now : Z) (k : string) (s : BlockStore) : BlockStore :=
  match _doc s with
  | None => s
  | Some d =>
      match blocks s !! k with
      | None => s
      | Some block =>
          let siblings := siblingsOf s block in
          let index := indexOf k siblings in
          if bool_decide (index ≤ 0)%Z then s
          else
            match siblings !! Z.to_nat (index - 1) with
            | None => s
            | Some newParentId =>
                match blocks s !! newParentId with
                | None => s
                | Some newParent => transact s (indentBlock_txn now k block newParentId d)
                end
            end
      end
  end.

(** [p] is the truthy [block.parentId]. *)
Definition outdentBlock_txn (now : Z) (k p : string) (parent : Block) (d : YDoc) : YDoc :=
  let m1 :=
    match blocksMap d !! p with
    | Some parentData =>
        setValueOnYMap p (set_childIds (without k (childIds parentData))) (blocksMap d)
    | None => blocksMap d
    end in
  let d2 :=
    match truthy (parentId parent) with
    | Some g =>
        match m1 !! g with
        | Some grandparentData =>
            let cids := childIds grandparentData in
            let parentIndex := indexOf p cids in
            {| blocksMap :=
                 setValueOnYMap g (set_childIds (insertAt (parentIndex + 1) [k] cids)) m1;
               rootIdsArr := rootIdsArr d |}
        | None => {| blocksMap := m1; rootIdsArr := rootIdsArr d |}
        end
    | None =>
        let arr := rootIdsArr d in
        let parentIndex := indexOf p arr in
        {| blocksMap := m1; rootIdsArr := insertAt (parentIndex + 1) [k] arr |}
    end in
  let m3 := setValueOnYMap k (set_parentId (parentId parent)) (blocksMap d2) in
  let m4 := setValueOnYMap k (set_updatedAt now) m3 in
  {| blocksMap := m4; rootIdsArr := rootIdsArr d2 |}.

Definition outdentBlock (now : Z) (k : string) (s : BlockStore) : BlockStore :=
  match _doc s with
  | None => s
  | Some d =>
      match blocks s !! k with
      | None => s
      | Some block =>
          match truthy (parentId block) with
          | None => s
          | Some p =>
              match blocks s !! p with
              | None => s
              | Some parent => transact s (outdentBlock_txn now k p parent d)
              end
          end
      end
  end.

(** [isRoot] is [truthy (parentId block) = None]; [index] is at least 1. *)
Definition moveBlockUp_txn (now : Z) (k : string) (block : Block)
    (siblings : list string) (index : Z) (d : YDoc) : YDoc :=
  let d1 :=
    match truthy (parentId block) with
    | None =>
        let prev := option_list (siblings !! Z.to_nat (index - 1)) in
        {| blocksMap := blocksMap d;
           rootIdsArr :=
             insertAt (index - 1) (k :: prev) (deleteAt (index - 1) 2 (rootIdsArr d)) |}
    | Some p =>
        let newChildIds := swapAt (Z.to_nat (index - 1)) (Z.to_nat index) siblings in
        {| blocksMap := setValueOnYMap p (set_childIds newChildIds) (blocksMap d);
           rootIdsArr := rootIdsArr d |}
    end in
  {| blocksMap := setValueOnYMap k (set_updatedAt now) (blocksMap d1);
     rootIdsArr := rootIdsArr d1 |}.

Definition moveBlockUp (now : Z) (k : string) (s : BlockStore) : BlockStore :=
  match _doc s with
  | None => s
  | Some d =>
      match blocks s !! k with
      | None => s
      | Some block =>
          let siblings := siblingsOf s block in
          let index := indexOf k siblings in
          if bool_decide (index ≤ 0)%Z then s
          else transact s (moveBlockUp_txn now k block siblings index d)
      end
  end.

Definition moveBlockDown_txn (now : Z) (k : string) (block : Block)
    (siblings : list string) (index : Z) (d : YDoc) : YDoc :=
  let d1 :=
    match truthy (parentId block) with
    | None =>
        let next := option_list (siblings !! Z.to_nat (index + 1)) in
        {| blocksMap := blocksMap d;
           rootIdsArr := insertAt index (next ++ [k]) (deleteAt index 2 (rootIdsArr d)) |}
    | Some p =>
        let newChildIds := swapAt (Z.to_nat index) (Z.to_nat (index + 1)) siblings in
        {| blocksMap := setValueOnYMap p (set_childIds newChildIds) (blocksMap d);
           rootIdsArr := rootIdsArr d |}
    end in
  {| blocksMap := setValueOnYMap k (set_updatedAt now) (blocksMap d1);
     rootIdsArr := rootIdsArr d1 |}.

Definition moveBlockDown (now : Z) (k : string) (s : BlockStore) : BlockStore :=
  match _doc s with
  | None => s
  | Some d =>
      match blocks s !! k with
      | None => s
      | Some block =>
          let siblings := siblingsOf s block in
          let index := indexOf k siblings in
          if bool_decide (index < 0)%Z || bool_decide (Z.of_nat (length siblings) - 1 ≤ index)%Z
          then s
          else transact s (moveBlockDown_txn now k block siblings index d)
      end
  end.

Definition toggleCollapsed_txn (k : string) (block : Block) (d : YDoc) : YDoc :=
  {| blocksMap := setValueOnYMap k (set_collapsed (negb (collapsed block))) (blocksMap d);
     rootIdsArr := rootIdsArr d |}.

Definition toggleCollapsed (k : string) (s : BlockStore) : BlockStore :=
  match _doc s with
  | None => s
  | Some d =>
      match blocks s !! k with
      | None => s
      | Some block =>
          if bool_decide (length (childIds block) = 0) then s
          else transact s (toggleCollapsed_txn k block d)
      end
  end.

(** The seven tree mutations as one type, and the transition they induce. *)
Inductive Op :=
| CreateBlockAfter (newId : string) (now : Z) (afterId : string)
| CreateBlockInside (newId : string) (now : Z) (parent : string)
| DeleteBlock (k : string)
| IndentBlock (now : Z) (k : string)
| OutdentBlock (now : Z) (k : string)
| MoveBlockUp (now : Z) (k : string)
| MoveBlockDown (now : Z) (k : string).

Definition step (o : Op) (s : BlockStore) : BlockStore :=
  match o with
  | CreateBlockAfter newId now afterId => (createBlockAfter newId now afterId s).2
  | CreateBlockInside newId now parent => (createBlockInside newId now parent s).2
  | DeleteBlock k => deleteBlock k s
  | IndentBlock now k => indentBlock now k s
  | OutdentBlock now k => outdentBlock now k s
  | MoveBlockUp now k => moveBlockUp now k s
  | MoveBlockDown now k => moveBlockDown now k s
  end.

(** The stores met along a sequence of mutations, one per step. *)
Fixpoint trace (s : BlockStore) (ops : list Op) : list BlockStore :=
  match ops with
  | [] => []
  | o :: rest => step o s :: trace (step o s) rest
  end.

(** ** Specification vocabulary *)

(** The ordered sequence a container owns: the root order for [None], the
    [childIds] of block [p] for [Some p]. *)
Definition kids (m : gmap string Block) (roots : list string) (c : option string)
    : list string :=
  match c with
  | None => roots
  | Some p => getChildIds (m !! p)
  end.

(** The container a live block names as its parent. *)
Definition parentOf (m : gmap string Block) (x : string) : option (option string) :=
  parentId <$> m !! x.

(** The §3 tree invariants in computable form: no duplicates in any
    sequence, no dangling id in any sequence, and every live block is listed
    where its [parentId] says (in the root order without one, else in the
    [childIds] of the block it names). *)
Definition tree_inv (m : gmap string Block) (roots : list string) : Prop :=
  NoDup roots ∧
  map_Forall (λ _ b, NoDup (childIds b)) m ∧
  Forall (λ x, is_Some (m !! x)) roots ∧
  map_Forall (λ _ b, Forall (λ x, is_Some (m !! x)) (childIds b)) m ∧
  map_Forall (λ k b, k ∈ kids m roots (parentId b)) m.

(** The same invariants with the last clause word for word: a root has
    no [parentId] and is in the root order; a block with a parent occurs
    exactly once in the [childIds] of the block its [parentId] names; exactly
    one of the two holds of every live block. *)
Definition is_root (roots : list string) (k : string) (b : Block) : Prop :=
  parentId b = None ∧ k ∈ roots.

Definition has_parent (m : gmap string Block) (k : string) (b : Block) : Prop :=
  ∃ p pb, parentId b = Some p ∧ m !! p = Some pb ∧
          length (filter (λ x, x = k) (childIds pb)) = 1.

Definition tree_inv_worded (m : gmap string Block) (roots : list string) : Prop :=
  NoDup roots ∧
  map_Forall (λ _ b, NoDup (childIds b)) m ∧
  Forall (λ x, is_Some (m !! x)) roots ∧
  map_Forall (λ _ b, Forall (λ x, is_Some (m !! x)) (childIds b)) m ∧
  map_Forall (λ k b, (is_root roots k b ∧ ¬ has_parent m k b) ∨
                     (¬ is_root roots k b ∧ has_parent m k b)) m.

(** Every block is stored under its own id, and no id is the empty string. *)
Definition ids_ok (m : gmap string Block) : Prop :=
  map_Forall (λ k b, id b = k ∧ k ≠ "") m.

(** The sequences mirror the parent pointers: besides the above, whatever
    the root order lists has no parent, and whatever a block lists as child
    names that block as parent. *)
Definition tree_wf (m : gmap string Block) (roots : list string) : Prop :=
  ids_ok m ∧
  NoDup roots ∧
  map_Forall (λ _ b, NoDup (childIds b)) m ∧
  Forall (λ x, parentOf m x = Some None) roots ∧
  map_Forall (λ k b, Forall (λ x, parentOf m x = Some (Some k)) (childIds b)) m ∧
  map_Forall (λ k b, k ∈ kids m roots (parentId b)) m.

(** The same, over the two views of a tree: sequences and parent pointers. *)
Definition wf_shape (K : option string → list string)
    (P : string → option (option string)) : Prop :=
  (∀ c, NoDup (K c)) ∧ (∀ c x, x ∈ K c ↔ P x = Some c).

(** The document with the sequence of container [c] replaced by [l]. *)
Definition withKids (c : option string) (l : list string) (d : YDoc) : YDoc :=
  match c with
  | Some p =>
      {| blocksMap := setValueOnYMap p (set_childIds l) (blocksMap d);
         rootIdsArr := rootIdsArr d |}
  | None => {| blocksMap := blocksMap d; rootIdsArr := l |}
  end.

(** The sequences once [k] has left that of container [c0]. *)
Definition kidsWithout (m : gmap string Block) (roots : list string)
    (c0 : option string) (k : string) (c : option string) : list string :=
  if decide (c = c0) then without k (kids m roots c) else kids m roots c.

(** What of a block the tree shape consists of. *)
Definition shape (b : Block) : string * option string * list string :=
  (id b, parentId b, childIds b).

(** The snapshot shows the document's tree. *)
Definition synced (s : BlockStore) (d : YDoc) : Prop :=
  rootIds s = rootIdsArr d ∧ shape <$> blocks s = shape <$> blocksMap d.

Definition store_inv (s : BlockStore) : Prop :=
  tree_wf (blocks s) (rootIds s) ∧
  match _doc s with
  | Some d => synced s d
  | None => True
  end.

(** The id drawn for a new block is a non-empty string not in use. *)
Definition fresh (s : BlockStore) (o : Op) : Prop :=
  match o with
  | CreateBlockAfter newId _ _ | CreateBlockInside newId _ _ =>
      newId ≠ "" ∧ blocks s !! newId = None
  | _ => True
  end.

Fixpoint fresh_run (s : BlockStore) (ops : list Op) : Prop :=
  match ops with
  | [] => True
  | o :: rest => fresh s o ∧ fresh_run (step o s) rest
  end.

#[global] Instance tree_inv_dec m roots : Decision (tree_inv m roots).
Proof. unfold tree_inv. apply _. Defined.

#[global] Instance tree_wf_dec m roots : Decision (tree_wf m roots).
Proof. unfold tree_wf, ids_ok. apply _. Defined.

#[global] Instance store_inv_dec s : Decision (store_inv s).
Proof. unfold store_inv, synced. destruct (_doc s); apply _. Defined.

(** The document's record of a block, and its root order. *)
Definition docBlock (s : BlockStore) (k : string) : option Block :=
  _doc s ≫= λ d, blocksMap d !! k.

Definition docRootIds (s : BlockStore) : option (list string) :=
  rootIdsArr <$> _doc s.

(** ** Sample stores *)

Definition plainBlock (k : string) (parent : option string) (children : list string) : Block :=
  {| id := k; parentId := parent; childIds := children; content := [];
     type := text; collapsed := false; createdAt := 0; updatedAt := 0 |}.

(** Root order [[A]], A with children [[B, C]]. *)
Definition scenarioDoc : YDoc :=
  {| blocksMap := <["A" := plainBlock "A" None ["B"; "C"]]>
                    (<["B" := plainBlock "B" (Some "A") []]>
                       (<["C" := plainBlock "C" (Some "A") []]> ∅));
     rootIdsArr := ["A"] |}.

Definition scenarioStore : BlockStore := initFromYDoc scenarioDoc emptyStore.

(** Root order [[A, B]], where B is the child of A (its [parentId] is A and
    A lists it once) and is listed in the root order as well. *)
Definition sharedDoc : YDoc :=
  {| blocksMap := <["A" := plainBlock "A" None ["B"]]>
                    (<["B" := plainBlock "B" (Some "A") []]> ∅);
     rootIdsArr := ["A"; "B"] |}.

Definition sharedStore : BlockStore := initFromYDoc sharedDoc emptyStore.

(** Root order [[P, Q]]: P lists [[Y, K]] and Q lists [[Y]], where K is the
    child of P and Y the child of Q (its [parentId] is Q and Q lists it
    once); P lists Y as well. *)
Definition strayDoc : YDoc :=
  {| blocksMap := <["P" := plainBlock "P" None ["Y"; "K"]]>
                    (<["Q" := plainBlock "Q" None ["Y"]]>
                       (<["Y" := plainBlock "Y" (Some "Q") []]>
                          (<["K" := plainBlock "K" (Some "P") []]> ∅)));
     rootIdsArr := ["P"; "Q"] |}.

Definition strayStore : BlockStore := initFromYDoc strayDoc emptyStore.

(** A run that reorders, outdents, creates, indents and deletes. *)
Definition sampleRun : list Op :=
  [ MoveBlockDown 1 "B"; OutdentBlock 2 "C"; CreateBlockAfter "N1" 3 "A";
    CreateBlockInside "N2" 4 "N1"; IndentBlock 5 "C"; MoveBlockUp 6 "C";
    DeleteBlock "N2"; DeleteBlock "A" ].

End BlockStore.

(** * More vocabulary for the pane tree *)

Module PaneTree.
Import JsNumber Types PaneStore.

(** The ratios of all splits, in pre-order. *)
Fixpoint ratios (n : PaneNode) : list number :=
  match n with
  | Leaf _ => []
  | Split _ _ r first second => r :: ratios first ++ ratios second
  end.

(** The range [setRatio] and the resize handle clamp to: a finite value
    between 0.1 and 0.9. *)
Definition ratio_ok (r : number) : Prop :=
  match r with
  | Finite q => (1 # 10 <= q)%Q ∧ (q <= 9 # 10)%Q
  | _ => False
  end.

Definition ratios_ok (n : PaneNode) : Prop := Forall ratio_ok (ratios n).

(** A split, then two resizes past the upper bound. *)
Definition resizeRun : list Action :=
  [ SplitPane "0000000a" "0000000b" "pane-1" horizontal;
    SetRatio "split-0000000b" (Finite (5 # 1));
    SetRatio "split-0000000b" Infinity ].

(** An action that does not hand NaN to [setRatio]. *)
Definition numeric (a : Action) : Prop :=
  match a with
  | SetRatio _ NaN => False
  | _ => True
  end.

(** [setPaneRoot]'s rewrite of one leaf. *)
Definition withRoot (paneId rootBlockId' : string) (l : PaneLeaf) : PaneLeaf :=
  if decide (leaf_id l = paneId)
  then {| leaf_id := leaf_id l; rootBlockId := rootBlockId';
          focusedBlockId := focusedBlockId l |}
  else l.

End PaneTree.

(** * The pane header ([components/Pane.tsx]) *)

Module Pane.
Import Types PaneStore.





End Pane.

(** * The application shell ([App.tsx]): global keyboard shortcuts *)

Module App.
Import Types PaneStore.







End App.

(** * The bridge over time ([hooks/useSyncedYDoc.ts]): timers firing,
      [syncToRust] and [forceSync] *)

Module SyncLoop.
Import SyncedYDoc.

(** The bridge, and the number of [apply_update] calls made to the backend. *)
Record Host := mkHost {
  bridge : Bridge;
  pushes : nat
}.

Definition initialHost : Host := {| bridge := initialBridge; pushes := 0 |}.

Definition onBridge (f : Bridge → Bridge) (h : Host) : Host :=
  {| bridge := f (bridge h); pushes := pushes h |}.

(** [syncToRust]: nothing is sent while a remote update is being applied. *)
Definition syncToRust (h : Host) : Host :=
  if isApplyingRemoteRef (bridge h) then h
  else {| bridge := bridge h; pushes := S (pushes h) |}.

(** The window drops a timer: the ref keeps whatever handle it holds. *)
Definition dropTimer (t : nat) (b : Bridge) : Bridge :=
  {| isApplyingRemoteRef := isApplyingRemoteRef b; syncTimerRef := syncTimerRef b;
     timers := clearTimeout t (timers b); nextTimer := nextTimer b;
     handlerAttached := handlerAttached b; isLoaded := isLoaded b;
     docVersion := docVersion b |}.

(** A live timer expires and its callback, [syncToRust], runs. *)
Definition fire (t : nat) (h : Host) : Host :=
  if bool_decide (t ∈ timers (bridge h)) then syncToRust (onBridge (dropTimer t) h)
  else h.

(** [forceSync]: clear the pending timer and the ref, then [syncToRust]. *)
Definition forceSync (h : Host) : Host :=
  let b := bridge h in
  let b' := match syncTimerRef b with
            | Some t =>
                {| isApplyingRemoteRef := isApplyingRemoteRef b; syncTimerRef := None;
                   timers := clearTimeout t (timers b); nextTimer := nextTimer b;
                   handlerAttached := handlerAttached b; isLoaded := isLoaded b;
                   docVersion := docVersion b |}
            | None => b
            end in
  syncToRust {| bridge := b'; pushes := pushes h |}.

(** What can happen to a mounted hook. *)
Inductive Event :=
| Mount
| LoadInitialState
| ReloadFromState
| LocalEdit
| ExecuteShellBlock
| RemoteUpdate
| Fire (t : nat)
| ForceSync.

Definition step (ev : Event) (h : Host) : Host :=
  match ev with
  | Mount => onBridge mount h
  | LoadInitialState => onBridge loadInitialState h
  | ReloadFromState => onBridge reloadFromState h
  | LocalEdit => onBridge localEdit h
  | ExecuteShellBlock => onBridge executeShellBlock h
  | RemoteUpdate => onBridge (applyUpdate (Some "remote")) h
  | Fire t => fire t h
  | ForceSync => forceSync h
  end.

Definition run (evs : list Event) (h : Host) : Host :=
  foldl (λ st ev, step ev st) h evs.

(** Debouncing: at most one timer is live, and the ref holds its handle. *)
Definition debounced (b : Bridge) : Prop :=
  match timers b with
  | [] => True
  | [t] => syncTimerRef b = Some t
  | _ => False
  end.

(** The bridge is mounted and no remote update is being applied. *)
Definition listening (b : Bridge) : Prop :=
  handlerAttached b = true ∧ isApplyingRemoteRef b = false.

End SyncLoop.

(** * More vocabulary for the block tree *)

Module BlockTree.
Import JsString Types BlockStore.

(** A block that names itself as parent: L lists [[K, L]] and has itself as
    [parentId], K is the other child of L; the root order is empty. *)
Definition loopDoc : YDoc :=
  {| blocksMap := <["L" := plainBlock "L" (Some "L") ["K"; "L"]]>
                    (<["K" := plainBlock "K" (Some "L") []]> ∅);
     rootIdsArr := [] |}.

Definition loopStore : BlockStore := initFromYDoc loopDoc emptyStore.

(** What of a block no tree mutation writes. *)
Definition same_text (b b' : Block) : Prop :=
  id b' = id b ∧ content b' = content b ∧ type b' = type b ∧ createdAt b' = createdAt b.

(** What of a block the quick check of [_syncFromYDoc] compares. *)
Definition shown (b : Block) : jsstring * bool * list string :=
  (content b, collapsed b, childIds b).

(** Every block of [m] but [gone] is still in [m'], with its text. *)
Definition text_kept (gone : option string) (m m' : gmap string Block) : Prop :=
  ∀ x b, m !! x = Some b → Some x ≠ gone → ∃ b', m' !! x = Some b' ∧ same_text b b'.

End BlockTree.

(** * The flattened, virtualized block list ([components/VirtualBlockList.tsx]) *)

Module VirtualBlockList.
Import Types BlockStore.

Record FlatBlock := mkFlatBlock {
  flat_id : string;
  flat_block : Block;
  depth : nat
}.

(** ** Paths in the tree *)

(** The far end of the path that starts at [y] and goes through [l]. *)
Definition top (y : string) (l : list string) : string := default y (last l).

(** [l] lists the parent of [y], the parent of that parent, and so on. *)
Fixpoint path (m : gmap string Block) (y : string) (l : list string) : Prop :=
  match l with
  | [] => True
  | p :: l' => parentOf m y = Some (Some p) ∧ path m p l'
  end.

(** [l] is all the ancestors of [y], up to a root. *)
Definition chain (m : gmap string Block) (y : string) (l : list string) : Prop :=
  path m y l ∧ parentOf m (top y l) = Some None.

Definition attached (m : gmap string Block) (y : string) : Prop := ∃ l, chain m y l.

Section flatten.
Variable ps : PaneStore.PaneStore.
Variable paneId : string.
Variable blocks : gmap string Block.

(** [traverse]: the block, then, unless it is collapsed in this pane, its
    children in order, one level deeper; an unknown id contributes nothing.
    The JavaScript recursion has no bound; [fuel] bounds its depth here, and
    [None] is the recursion that did not finish. *)
Fixpoint traverse (fuel : nat) (blockId : string) (depth : nat) : option (list FlatBlock) :=
  match fuel with
  | 0 => None
  | S fuel' =>
      match blocks !! blockId with
      | None => Some []
      | Some block =>
          let collapsed := PaneStore.isCollapsed ps paneId blockId (collapsed block) in
          if negb collapsed && bool_decide (0 < length (childIds block))
          then (λ sub, mkFlatBlock blockId block depth :: mjoin sub)
                 <$> mapM (λ childId, traverse fuel' childId (S depth)) (childIds block)
          else Some [mkFlatBlock blockId block depth]
      end
  end.

(** [flatBlocks]: from every root for the pane root ['root'], else from
    the block the pane is zoomed into. *)
Definition flatBlocks (fuel : nat) (rootIds : list string) (rootBlockId : string)
    : option (list FlatBlock) :=
  if decide (rootBlockId = "root")
  then mjoin <$> mapM (λ rootId, traverse fuel rootId 0) rootIds
  else traverse fuel rootBlockId 0.

(** A block that is shown expanded in this pane. *)
Definition expanded (a : string) : Prop :=
  ∃ b, blocks !! a = Some b ∧ PaneStore.isCollapsed ps paneId a (collapsed b) = false.

(** What an entry of the list that starts at [x], at depth [d], is: a live
    block with its record, [depth - d] levels below [x], all of whose
    ancestors up to [x] are expanded. *)
Definition listed_from (x : string) (d : nat) (fb : FlatBlock) : Prop :=
  blocks !! flat_id fb = Some (flat_block fb) ∧
  ∃ l, path blocks (flat_id fb) l ∧ top (flat_id fb) l = x ∧
       depth fb = d + length l ∧ Forall expanded l.

End flatten.

(** [getLinearOrder] *)
Definition getLinearOrder (flat : list FlatBlock) : list string := flat_id <$> flat.



(** Where the flattening of a pane starts. *)
Definition startIds (rootIds : list string) (rootBlockId : string) : list string :=
  if decide (rootBlockId = "root") then rootIds else [rootBlockId].

End VirtualBlockList.

(** * Facts about the pane layout store *)

Module PaneFacts.
Import Types PaneStore.

Lemma pane_id_nodeIds n : pane_id n ∈ nodeIds n.
Proof. destruct n; simpl; [apply list_elem_of_singleton; done | apply list_elem_of_here]. Qed.

Lemma leafIds_split i d r f s : leafIds (Split i d r f s) = leafIds f ++ leafIds s.
Proof. unfold leafIds. simpl. by rewrite fmap_app. Qed.

Lemma leafIds_nodeIds n x : x ∈ leafIds n → x ∈ nodeIds n.
Proof.
  induction n as [l | i d r f IHf s IHs]; [done |].
  rewrite leafIds_split. simpl. rewrite elem_of_app, elem_of_cons, elem_of_app.
  intros [H | H]; auto.
Qed.

Lemma splitIds_nodeIds n x : x ∈ splitIds n → x ∈ nodeIds n.
Proof.
  induction n as [l | i d r f IHf s IHs]; simpl; [by intros ?%not_elem_of_nil |].
  rewrite !elem_of_cons, !elem_of_app. intros [H | [H | H]]; auto.
Qed.

Lemma leafCount_pos n : 1 ≤ leafCount n.
Proof.
  unfold leafCount. induction n; simpl; [lia |]. rewrite length_app. lia.
Qed.

(** A tree with distinct ids never uses one id for a leaf and a split. *)
Lemma leaf_not_split n x : NoDup (nodeIds n) → x ∈ leafIds n → x ∉ splitIds n.
Proof.
  induction n as [l | i d r f IHf s IHs]; simpl; [intros _ _ ?%not_elem_of_nil; done |].
  rewrite leafIds_split, NoDup_cons, NoDup_app, !elem_of_app, not_elem_of_cons, not_elem_of_app.
  intros (Hi & Hf & Hfs & Hs) Hx.
  assert (x ∈ nodeIds f ∨ x ∈ nodeIds s) as Hin
    by (destruct Hx; [left | right]; by apply leafIds_nodeIds).
  split; [intros ->; apply Hi; exact Hin |].
  destruct Hx as [Hx | Hx]; split; auto.
  - intros Hs'%splitIds_nodeIds. eapply Hfs; [apply leafIds_nodeIds |]; eauto.
  - intros Hf'%splitIds_nodeIds. eapply Hfs; [| apply leafIds_nodeIds]; eauto.
Qed.

Lemma findParent_absent n p : p ∉ nodeIds n → findParent n p = None.
Proof.
  induction n as [l | i d r f IHf s IHs]; simpl; [done |].
  rewrite not_elem_of_cons, not_elem_of_app. intros (_ & Hf & Hs).
  rewrite !bool_decide_eq_false_2, IHf, IHs; simpl; auto.
  - intros <-. apply Hs, pane_id_nodeIds.
  - intros <-. apply Hf, pane_id_nodeIds.
Qed.

Lemma replaceNode_absent n t x : t ∉ nodeIds n → replaceNode n t x = n.
Proof.
  induction n as [l | i d r f IHf s IHs]; simpl.
  - rewrite list_elem_of_singleton. intros H. by rewrite decide_False.
  - rewrite not_elem_of_cons, not_elem_of_app. intros (Hi & Hf & Hs).
    rewrite decide_False, IHf, IHs; auto.
Qed.

Lemma findParent_split_id n p pid d r f s :
  findParent n p = Some (Split pid d r f s) → pid ∈ splitIds n.
Proof.
  induction n as [l | i d0 r0 f0 IHf s0 IHs]; simpl; [done |].
  destruct (bool_decide _ || bool_decide _).
  - intros [= -> _ _ _ _]. apply list_elem_of_here.
  - rewrite elem_of_cons, elem_of_app.
    destruct (findParent f0 p) eqn:E; [intros [= ->]; auto | auto].
Qed.

(** The tree surgery behind [closePane], for a leaf target in a tree with
    distinct ids: the parent split is found, and replacing it by the other
    child removes exactly the target leaf from the leaf sequence. *)
Lemma close_leaf_tree n p :
  NoDup (nodeIds n) → p ∈ leafIds n → pane_id n ≠ p →
  ∃ pid d r f s lf l1 l2,
    findParent n p = Some (Split pid d r f s) ∧
    leaf_id lf = p ∧
    ((f = Leaf lf ∧ (if decide (pane_id f = p) then s else f) = s) ∨
     (s = Leaf lf ∧ (if decide (pane_id f = p) then s else f) = f)) ∧
    collectLeaves n = l1 ++ lf :: l2 ∧
    collectLeaves (replaceNode n pid (if decide (pane_id f = p) then s else f)) = l1 ++ l2 ∧
    nodeIds (replaceNode n pid (if decide (pane_id f = p) then s else f)) `sublist_of` nodeIds n.
Proof.
  induction n as [l | i d r f IHf s IHs].
  { unfold leafIds; simpl. rewrite list_elem_of_singleton. intros _ -> []. done. }
  intros Hnd Hp _. pose proof (leaf_not_split _ _ Hnd Hp) as Hns.
  simpl in Hnd, Hns. rewrite leafIds_split in Hp.
  apply NoDup_cons in Hnd as [Hi Hnd]. apply NoDup_app in Hnd as (Hf & Hfs & Hs).
  apply not_elem_of_cons in Hns as [Hpi Hns]. apply not_elem_of_app in Hns as [Hnsf Hnss].
  rewrite not_elem_of_app in Hi. destruct Hi as [Hif His].
  simpl findParent.
  destruct (decide (pane_id f = p)) as [Hfp | Hfp].
  - (* the first child is the target *)
    rewrite bool_decide_eq_true_2 by done. simpl.
    destruct f as [lf | j]; [| simpl in Hfp; subst j; exfalso; apply Hnsf; simpl; apply list_elem_of_here].
    exists i, d, r, (Leaf lf), s, lf, [], (collectLeaves s).
    rewrite decide_True by done. simpl. rewrite decide_True by done.
    repeat split; auto.
    simpl. apply sublist_cons, sublist_cons. reflexivity.
  - destruct (decide (pane_id s = p)) as [Hsp | Hsp].
    + rewrite bool_decide_eq_false_2, bool_decide_eq_true_2 by done. simpl.
      destruct s as [ls | j]; [| simpl in Hsp; subst j; exfalso; apply Hnss; simpl; apply list_elem_of_here].
      exists i, d, r, f, (Leaf ls), ls, (collectLeaves f), [].
      rewrite decide_False by done. simpl. rewrite decide_True by done.
      rewrite app_nil_r. repeat split; auto.
      simpl. apply sublist_cons, sublist_inserts_r. reflexivity.
    + rewrite !bool_decide_eq_false_2 by done. simpl.
      apply elem_of_app in Hp as [Hp | Hp].
      * destruct (IHf Hf Hp Hfp) as (pid & d' & r' & f' & s' & lf & l1 & l2 & HP & Hlf & Hsib & Hl & Hl' & Hsub).
        exists pid, d', r', f', s', lf, l1, (l2 ++ collectLeaves s).
        pose proof (splitIds_nodeIds _ _ (findParent_split_id _ _ _ _ _ _ _ HP)) as Hpid.
        rewrite HP. cbn [replaceNode pane_id].
        destruct (decide (i = pid)) as [-> | _]; [done |].
        rewrite (replaceNode_absent s) by (by apply Hfs).
        repeat split; auto.
        { simpl. rewrite Hl. by rewrite <- app_assoc. }
        { simpl. rewrite Hl'. by rewrite <- app_assoc. }
        { simpl. apply sublist_skip, sublist_app; [done | reflexivity]. }
      * assert (p ∉ nodeIds f) as Hpf
          by (intros Hin; eapply Hfs; [exact Hin | by apply leafIds_nodeIds]).
        destruct (IHs Hs Hp Hsp) as (pid & d' & r' & f' & s' & lf & l1 & l2 & HP & Hlf & Hsib & Hl & Hl' & Hsub).
        exists pid, d', r', f', s', lf, (collectLeaves f ++ l1), l2.
        pose proof (splitIds_nodeIds _ _ (findParent_split_id _ _ _ _ _ _ _ HP)) as Hpid.
        rewrite (findParent_absent f) by done. rewrite HP. cbn [replaceNode pane_id].
        destruct (decide (i = pid)) as [-> | _]; [done |].
        rewrite (replaceNode_absent f) by (intros Hin; by eapply Hfs).
        repeat split; auto.
        { simpl. rewrite Hl. by rewrite <- app_assoc. }
        { simpl. rewrite Hl'. by rewrite <- app_assoc. }
        { simpl. apply sublist_skip, sublist_app; [reflexivity | done]. }
Qed.

Lemma replaceNode_found_leaves n p q X x :
  findNode n p = Some q → x ∈ leafIds X → x ∈ leafIds (replaceNode n p X).
Proof.
  induction n as [l | i d r f IHf s IHs]; simpl; intros Hq Hx.
  - destruct (decide (leaf_id l = p)); done.
  - destruct (decide (i = p)); [done |].
    rewrite leafIds_split, elem_of_app.
    destruct (findNode f p) eqn:E; [left | right]; eauto.
Qed.

Lemma replaceNode_leaves_incl n p X x :
  x ∈ leafIds (replaceNode n p X) → x ∈ leafIds n ∨ x ∈ leafIds X.
Proof.
  induction n as [l | i d r f IHf s IHs]; simpl.
  - destruct (decide (leaf_id l = p)); auto.
  - destruct (decide (i = p)); [auto |].
    rewrite !leafIds_split, !elem_of_app. intros [H | H]; [apply IHf in H | apply IHs in H]; tauto.
Qed.

(** In a tree with distinct ids [replaceNode] substitutes one subtree. *)
Lemma replaceNode_nodeIds n p X :
  NoDup (nodeIds n) → p ∈ nodeIds n →
  ∃ l1 sub l2, nodeIds n = l1 ++ sub ++ l2 ∧ p ∈ sub ∧
               nodeIds (replaceNode n p X) = l1 ++ nodeIds X ++ l2.
Proof.
  induction n as [l | i d r f IHf s IHs]; cbn [nodeIds replaceNode pane_id].
  - rewrite list_elem_of_singleton. intros _ ->. exists [], [leaf_id l], [].
    rewrite decide_True by done. simpl. rewrite app_nil_r.
    split_and!; [done | apply list_elem_of_here | done].
  - intros Hnd Hp. destruct (decide (i = p)) as [-> | Hip].
    { exists [], (p :: nodeIds f ++ nodeIds s), []. rewrite !app_nil_r. simpl.
      split_and!; [done | apply list_elem_of_here | done]. }
    cbn [nodeIds].
    apply NoDup_cons in Hnd as [Hi Hnd]. apply NoDup_app in Hnd as (Hf & Hfs & Hs).
    apply elem_of_cons in Hp as [-> | Hp]; [done |].
    apply elem_of_app in Hp as [Hp | Hp].
    + destruct (IHf Hf Hp) as (l1 & sub & l2 & E & Hsub & E').
      exists (i :: l1), sub, (l2 ++ nodeIds s).
      rewrite (replaceNode_absent s) by (by apply Hfs).
      rewrite E, E'. split_and!; [| done |]; simpl; f_equal; by rewrite <- !app_assoc.
    + destruct (IHs Hs Hp) as (l1 & sub & l2 & E & Hsub & E').
      exists (i :: nodeIds f ++ l1), sub, l2.
      rewrite (replaceNode_absent f) by (intros Hin; by eapply Hfs).
      rewrite E, E'. split_and!; [| done |]; simpl; f_equal; by rewrite <- !app_assoc.
Qed.

Lemma findNode_nodeIds n p q : findNode n p = Some q → p ∈ nodeIds n.
Proof.
  induction n as [l | i d r f IHf s IHs]; simpl.
  - destruct (decide (leaf_id l = p)) as [<- |]; [intros _; apply list_elem_of_here | done].
  - destruct (decide (i = p)) as [<- |]; [intros _; apply list_elem_of_here |].
    rewrite elem_of_cons, elem_of_app.
    destruct (findNode f p) eqn:E; [intros [= ->]; right; left; eauto | intros H; right; right; eauto].
Qed.

Lemma updateRatio_leaves i r n : collectLeaves (updateRatio i r n) = collectLeaves n.
Proof.
  induction n as [l | j d r0 f IHf s IHs]; simpl; [done |].
  destruct (decide (j = i)); simpl; [done | by rewrite IHf, IHs].
Qed.

Lemma updateRatio_nodeIds i r n : nodeIds (updateRatio i r n) = nodeIds n.
Proof.
  induction n as [l | j d r0 f IHf s IHs]; simpl; [done |].
  destruct (decide (j = i)); simpl; [done | by rewrite IHf, IHs].
Qed.

Lemma updatePaneRoot_leafIds p b n : leafIds (updatePaneRoot p b n) = leafIds n.
Proof.
  induction n as [l | j d r0 f IHf s IHs]; simpl.
  - destruct (decide (leaf_id l = p)); done.
  - by rewrite !leafIds_split, IHf, IHs.
Qed.

Lemma updatePaneRoot_nodeIds p b n : nodeIds (updatePaneRoot p b n) = nodeIds n.
Proof.
  induction n as [l | j d r0 f IHf s IHs]; simpl.
  - destruct (decide (leaf_id l = p)); done.
  - by rewrite IHf, IHs.
Qed.

(** [closePane] in the three situations that matter. *)
Lemma closePane_single p s :
  leafCount (root (layout s)) = 1 → closePane p s = s.
Proof.
  unfold closePane, leafCount. intros ->. by rewrite bool_decide_eq_true_2 by lia.
Qed.

Lemma closePane_absent p s :
  p ∉ nodeIds (root (layout s)) → closePane p s = s.
Proof.
  unfold closePane. intros H. rewrite findParent_absent by done.
  by destruct (bool_decide _).
Qed.

Lemma closePane_leaf p s :
  NoDup (nodeIds (root (layout s))) → p ∈ leafIds (root (layout s)) →
  2 ≤ leafCount (root (layout s)) →
  ∃ pid d r f sn lf l1 l2 sibling,
    findParent (root (layout s)) p = Some (Split pid d r f sn) ∧
    leaf_id lf = p ∧
    ((f = Leaf lf ∧ sibling = sn) ∨ (sn = Leaf lf ∧ sibling = f)) ∧
    collectLeaves (root (layout s)) = l1 ++ lf :: l2 ∧
    collectLeaves (replaceNode (root (layout s)) pid sibling) = l1 ++ l2 ∧
    nodeIds (replaceNode (root (layout s)) pid sibling) `sublist_of` nodeIds (root (layout s)) ∧
    closePane p s =
      {| layout :=
           {| root := replaceNode (root (layout s)) pid sibling;
              activePaneId :=
                if decide (activePaneId (layout s) = p)
                then firstLeafIdOr (l1 ++ l2) initialPaneId
                else activePaneId (layout s) |};
         collapsedBlocks := collapsedBlocks s |}.
Proof.
  intros Hnd Hp Hc.
  assert (pane_id (root (layout s)) ≠ p) as Hne.
  { destruct (root (layout s)); [unfold leafCount in Hc; simpl in Hc; lia |].
    simpl. intros ->. eapply leaf_not_split; eauto. simpl. apply list_elem_of_here. }
  destruct (close_leaf_tree _ _ Hnd Hp Hne)
    as (pid & d & r & f & sn & lf & l1 & l2 & HP & Hlf & Hsib & Hl & Hl' & Hsub).
  exists pid, d, r, f, sn, lf, l1, l2, (if decide (pane_id f = p) then sn else f).
  split_and!; try done.
  unfold closePane. unfold leafCount in Hc.
  rewrite bool_decide_eq_false_2 by lia. rewrite HP, Hl'. done.
Qed.

Lemma nodeIds_inv n x : x ∈ nodeIds n → x ∈ leafIds n ∨ x ∈ splitIds n.
Proof.
  induction n as [l | i d r f IHf s IHs]; simpl; [auto |].
  rewrite leafIds_split, !elem_of_cons, !elem_of_app.
  intros [H | [H | H]]; [auto | apply IHf in H | apply IHs in H]; tauto.
Qed.

Lemma firstLeafIdOr_head (leaves : list PaneLeaf) dflt :
  leaves ≠ [] → "" ∉ leaf_id <$> leaves →
  head (leaf_id <$> leaves) = Some (firstLeafIdOr leaves dflt).
Proof.
  destruct leaves as [| l rest]; [done |]. intros _ H. simpl.
  destruct (decide (leaf_id l = "")) as [E |]; [| done].
  exfalso. apply H. rewrite fmap_cons, E. apply list_elem_of_here.
Qed.

(** C3 (amended): [closePane] is refused when exactly one leaf exists;
    otherwise, in a tree whose node ids are pairwise distinct and whose leaf
    ids are non-empty, closing the id of a Leaf replaces the leaf's parent
    split by the split's other child, removes exactly that leaf from the leaf
    sequence (so the leaf count drops by one), and a closed active pane is
    succeeded by the first leaf of the resulting tree. *)
Theorem closePane_spec (s : PaneStore) (p : string) :
  (leafCount (root (layout s)) = 1 → closePane p s = s) ∧
  (leafCount (root (layout s)) ≠ 1 →
   NoDup (nodeIds (root (layout s))) → "" ∉ leafIds (root (layout s)) →
   p ∈ leafIds (root (layout s)) →
   ∃ pid d r f sn lf l1 l2 sibling,
     findParent (root (layout s)) p = Some (Split pid d r f sn) ∧
     leaf_id lf = p ∧
     ((f = Leaf lf ∧ sibling = sn) ∨ (sn = Leaf lf ∧ sibling = f)) ∧
     root (layout (closePane p s)) = replaceNode (root (layout s)) pid sibling ∧
     collectLeaves (root (layout s)) = l1 ++ lf :: l2 ∧
     collectLeaves (root (layout (closePane p s))) = l1 ++ l2 ∧
     leafCount (root (layout (closePane p s))) + 1 = leafCount (root (layout s)) ∧
     (activePaneId (layout s) = p →
        head (leafIds (root (layout (closePane p s))))
        = Some (activePaneId (layout (closePane p s)))) ∧
     (activePaneId (layout s) ≠ p →
        activePaneId (layout (closePane p s)) = activePaneId (layout s))).
Proof.
  split; [apply closePane_single |].
  intros Hc Hnd Hne Hp. pose proof (leafCount_pos (root (layout s))) as Hpos.
  destruct (closePane_leaf p s Hnd Hp ltac:(lia))
    as (pid & d & r & f & sn & lf & l1 & l2 & sib & HP & Hlf & Hsib & Hl & Hl' & _ & E).
  exists pid, d, r, f, sn, lf, l1, l2, sib. rewrite E. simpl.
  split_and!; try done.
  - unfold leafCount. rewrite Hl, Hl', !length_app. simpl. lia.
  - intros Ha. rewrite decide_True by done. unfold leafIds. rewrite Hl'.
    apply firstLeafIdOr_head.
    + unfold leafCount in Hc. rewrite Hl in Hc.
      destruct l1, l2; simpl in *; try done.
    + intros Hin. apply Hne. unfold leafIds. rewrite Hl.
      rewrite fmap_app, elem_of_app in Hin. rewrite fmap_app, fmap_cons, elem_of_app, elem_of_cons.
      tauto.
  - intros Ha. by rewrite decide_False.
Qed.

Lemma closePane_spec_witness :
  leafCount (root (layout twoPanes)) ≠ 1 ∧
  leafCount (root (layout (closePane "pane-0000000a" twoPanes))) + 1
  = leafCount (root (layout twoPanes)).
Proof.
  split; [by vm_compute |].
  destruct (proj2 (closePane_spec twoPanes "pane-0000000a"))
    as (pid & d & r & f & sn & lf & l1 & l2 & sib & _ & _ & _ & _ & _ & _ & H & _).
  - by vm_compute.
  - apply (bool_decide_unpack _). by vm_compute.
  - apply (bool_decide_unpack _). by vm_compute.
  - apply (bool_decide_unpack _). by vm_compute.
  - exact H.
Defined.

(** Why the ids have to be distinct and non-empty: with a shared split id
    closing one leaf removes two, and an empty first leaf id makes the
    fallback ['pane-1'] the active pane. *)
Example closePane_duplicate_ids :
  leafCount (root (layout duplicateIds)) = 3 ∧
  leafCount (root (layout (closePane "pane-2" duplicateIds))) = 1.
Proof. by vm_compute. Qed.

Example closePane_empty_leaf_id :
  leafIds (root (layout (closePane "pane-2" emptyLeafId))) = [""] ∧
  activePaneId (layout (closePane "pane-2" emptyLeafId)) = "pane-1".
Proof. by vm_compute. Qed.

(** C3, as stated, fails for the id of a Split that has a parent: the whole
    subtree goes, here two leaves at once. *)
Lemma closePane_split_counterexample :
  is_Some (findNode (root (layout threePanes)) "split-0000000d") ∧
  is_Some (findParent (root (layout threePanes)) "split-0000000d") ∧
  leafCount (root (layout threePanes)) = 3 ∧
  leafCount (root (layout (closePane "split-0000000d" threePanes))) = 1.
Proof. vm_compute. split_and!; eauto. Qed.

Lemma step_layout_inv (a : Action) (s : PaneStore) :
  layout_inv (layout s) → distinct_ids (root (layout s)) → admissible (layout s) a →
  layout_inv (layout (step a s)).
Proof.
  intros [_ Hact] [Hnd Hne] Hadm. split; [apply leafCount_pos |].
  destruct a as [p | u1 u2 p d | p | i r | p b | p b]; simpl in *.
  - exact Hadm.
  - unfold splitPane. destruct (findNode _ p) as [[t | ] |] eqn:E; try done. simpl.
    eapply replaceNode_found_leaves; [exact E |].
    unfold leafIds. simpl. apply list_elem_of_further, list_elem_of_here.
  - destruct (decide (p ∈ leafIds (root (layout s)))) as [Hp | Hp].
    + destruct (decide (leafCount (root (layout s)) = 1)) as [H1 | H1].
      { by rewrite closePane_single. }
      pose proof (leafCount_pos (root (layout s))) as Hpos.
      destruct (closePane_leaf p s Hnd Hp ltac:(lia))
        as (pid & d & r & f & sn & lf & l1 & l2 & sib & _ & Hlf & _ & Hl & Hl' & _ & ->).
      simpl. unfold leafIds in *. rewrite Hl'. rewrite Hl in Hact, Hne.
      destruct (decide (activePaneId (layout s) = p)) as [Ha | Ha].
      * assert (l1 ++ l2 ≠ []) as Hnil.
        { unfold leafCount in H1. rewrite Hl in H1. destruct l1, l2; simpl in *; done. }
        assert ("" ∉ leaf_id <$> l1 ++ l2) as Hne'.
        { intros Hin. apply Hne. rewrite fmap_app, elem_of_app in Hin.
          rewrite fmap_app, fmap_cons, elem_of_app, elem_of_cons. tauto. }
        pose proof (firstLeafIdOr_head _ initialPaneId Hnil Hne') as Hh.
        destruct (leaf_id <$> l1 ++ l2) as [| x rest] eqn:Ex; [done |].
        injection Hh as <-. rewrite <- Ex. rewrite Ex. apply list_elem_of_here.
      * rewrite fmap_app, fmap_cons, elem_of_app, elem_of_cons in Hact.
        rewrite fmap_app, elem_of_app. rewrite Hlf in Hact. tauto.
    + rewrite closePane_absent; [done |].
      intros [H | H]%nodeIds_inv; done.
  - unfold leafIds. by rewrite updateRatio_leaves.
  - by rewrite updatePaneRoot_leafIds.
  - exact Hact.
Qed.

(** C4 (amended): on a layout that satisfies the §3 invariant and has
    pairwise distinct node ids and non-empty leaf ids, every action called as
    the interface calls it ([setActivePane] on a live leaf, [closePane] on no
    split id) yields a layout that satisfies the invariant. *)
Theorem layout_inv_preserved (a : Action) (s : PaneStore) :
  layout_inv (layout s) → distinct_ids (root (layout s)) → admissible (layout s) a →
  layout_inv (layout (step a s)).
Proof. apply step_layout_inv. Qed.

Lemma layout_inv_preserved_witness :
  layout_inv (layout twoPanes) ∧
  layout_inv (layout (step (ClosePane "pane-0000000a") twoPanes)).
Proof.
  assert (layout_inv (layout twoPanes)) as H.
  { split; [vm_compute; lia | apply (bool_decide_unpack _); by vm_compute]. }
  split; [exact H |].
  apply (layout_inv_preserved (ClosePane "pane-0000000a") twoPanes H).
  - split; apply (bool_decide_unpack _); by vm_compute.
  - apply (bool_decide_unpack _). by vm_compute.
Defined.

(** C4, as stated, fails for [setActivePane]: the action stores any string. *)
Lemma setActivePane_counterexample :
  layout_inv (layout initialStore) ∧
  ¬ layout_inv (layout (setActivePane "pane-gone" initialStore)).
Proof.
  split.
  - split; [vm_compute; lia | apply (bool_decide_unpack _); by vm_compute].
  - intros [_ H]. revert H. apply (bool_decide_unpack _). by vm_compute.
Qed.

Lemma findNode_leaf n p t :
  findNode n p = Some (Leaf t) → leaf_id t = p ∧ p ∈ leafIds n.
Proof.
  induction n as [l | i d r f IHf s IHs]; simpl.
  - destruct (decide (leaf_id l = p)) as [<- |]; [| done].
    intros [= ->]. split; [done | apply list_elem_of_here].
  - destruct (decide (i = p)); [done |].
    rewrite leafIds_split, elem_of_app.
    destruct (findNode f p); [intros [= ->]; destruct IHf | intros H; destruct IHs]; auto.
Qed.

(** Distinctness of ids is itself kept, given new ids for each split. *)
Lemma distinct_ids_step (a : Action) (s : PaneStore) :
  distinct_ids (root (layout s)) → admissible (layout s) a → fresh_ids (layout s) a →
  distinct_ids (root (layout (step a s))).
Proof.
  intros [Hnd Hne] Hadm Hfr. unfold distinct_ids.
  destruct a as [p | u1 u2 p d | p | i r | p b | p b]; simpl in *.
  - done.
  - unfold splitPane. destruct (findNode _ p) as [[t | ] |] eqn:E; try done. simpl.
    destruct Hfr as [Hfa Hfb].
    pose proof (findNode_nodeIds _ _ _ E) as Hp.
    destruct (findNode_leaf _ _ _ E) as [Ht Hpl].
    destruct (replaceNode_nodeIds (root (layout s)) p
                (createPaneSplit ("split-" +:+ u2) d (Leaf t)
                   (Leaf (createPaneLeaf ("pane-" +:+ u1) (rootBlockId t)))) Hnd Hp)
      as (l1 & sub & l2 & El & Hsub & El').
    split.
    + rewrite El'. simpl. rewrite El in Hnd, Hfa, Hfb.
      rewrite !not_elem_of_app in Hfa, Hfb.
      apply NoDup_app in Hnd as (H1 & H12 & Hnd). apply NoDup_app in Hnd as (_ & Hs2 & H2).
      apply NoDup_app. split_and!; [done | |].
      * intros x Hx. rewrite !elem_of_cons. intros [-> | [-> | [-> | Hx2]]].
        -- tauto.
        -- rewrite Ht in Hx. eapply H12; [exact Hx |]. apply elem_of_app; auto.
        -- tauto.
        -- eapply H12; [exact Hx |]. apply elem_of_app; auto.
      * rewrite !NoDup_cons, !not_elem_of_cons. rewrite Ht. split_and!; try done.
        -- intros <-. tauto.
        -- tauto.
        -- intros ->. tauto.
        -- intros Hx. by eapply Hs2.
        -- tauto.
    + intros [Hin | Hin]%replaceNode_leaves_incl; [done |].
      unfold leafIds in Hin. simpl in Hin.
      rewrite !elem_of_cons in Hin. destruct Hin as [Hin | [Hin | Hin%not_elem_of_nil]]; try done.
      apply Hne. by rewrite Hin, Ht.
  - destruct (decide (p ∈ leafIds (root (layout s)))) as [Hp | Hp].
    + destruct (decide (leafCount (root (layout s)) = 1)) as [H1 | H1].
      { by rewrite closePane_single. }
      pose proof (leafCount_pos (root (layout s))) as Hpos.
      destruct (closePane_leaf p s Hnd Hp ltac:(lia))
        as (pid & d & r & f & sn & lf & l1 & l2 & sib & _ & Hlf & _ & Hl & Hl' & Hsub & ->).
      simpl. split; [by eapply sublist_NoDup |].
      unfold leafIds in *. rewrite Hl'. rewrite Hl in Hne.
      intros Hin. apply Hne. rewrite fmap_app, elem_of_app in Hin.
      rewrite fmap_app, fmap_cons, elem_of_app, elem_of_cons. tauto.
    + rewrite closePane_absent; [done |].
      intros [H | H]%nodeIds_inv; done.
  - rewrite updateRatio_nodeIds. unfold leafIds. by rewrite updateRatio_leaves.
  - by rewrite updatePaneRoot_nodeIds, updatePaneRoot_leafIds.
  - done.
Qed.

(** Hence the invariant, with distinct ids, holds along every admissible run. *)
Lemma layout_inv_run (acts : list Action) (s : PaneStore) :
  layout_inv (layout s) → distinct_ids (root (layout s)) → admissible_run s acts →
  layout_inv (layout (run acts s)) ∧ distinct_ids (root (layout (run acts s))).
Proof.
  revert s. induction acts as [| a rest IH]; intros s Hinv Hd Hadm; [done |].
  destruct Hadm as (Ha & Hf & Hrest). simpl.
  apply IH; auto using step_layout_inv, distinct_ids_step.
Qed.

(** C7 (amended): no action of the pane store removes a pane's entry from the
    collapse overlay; in particular [closePane] leaves the overlay as it is,
    and [toggleCollapsed] rewrites the entry of its own pane only. *)
Theorem overlay_entry_never_removed (a : Action) (s : PaneStore) :
  dom (collapsedBlocks s) ⊆ dom (collapsedBlocks (step a s)) ∧
  (∀ p, collapsedBlocks (closePane p s) = collapsedBlocks s) ∧
  (∀ p b, collapsedBlocks (toggleCollapsed p b s)
          = <[p := collapsedBlocks (toggleCollapsed p b s) !!! p]> (collapsedBlocks s)).
Proof.
  assert (∀ p, collapsedBlocks (closePane p s) = collapsedBlocks s) as Hclose.
  { intros p. unfold closePane. destruct (bool_decide _); [done |].
    destruct (findParent _ p) as [[|]|]; done. }
  split_and!; [| done |].
  - destruct a as [p | u1 u2 p d | p | i r | p b | p b]; simpl; try done.
    + unfold splitPane. destruct (findNode _ p) as [[|]|]; done.
    + by rewrite Hclose.
    + rewrite dom_insert. set_solver.
  - intros p b. simpl. by rewrite lookup_total_insert_eq.
Qed.

(** C7, as stated, fails: closing a pane keeps its overlay entry. *)
Lemma closePane_keeps_overlay_counterexample :
  "pane-0000000a" ∈ leafIds (root (layout twoPanesOverlay)) ∧
("pane-0000000a" ∉ leafIds (root (layout (closePane "pane-0000000a" twoPanesOverlay)))) ∧
  collapsedBlocks (closePane "pane-0000000a" twoPanesOverlay) !! "pane-0000000a"
  = Some {[ "block-1" ]}.
Proof.
  split_and!.
  - apply (bool_decide_unpack _). by vm_compute.
  - apply (bool_decide_unpack _). by vm_compute.
  - by vm_compute.
Qed.

(** C10: [isCollapsed] answers the block default when the pane has no
    override set or the block is not in it, the negated default when the
    block is in the pane's set; and two [toggleCollapsed] on the same pane
    and block leave every such answer as it was. *)
Theorem isCollapsed_toggle_twice (s : PaneStore) (paneId blockId : string) (blockDefault : bool) :
  (collapsedBlocks s !! paneId = None → isCollapsed s paneId blockId blockDefault = blockDefault) ∧
  (∀ paneSet, collapsedBlocks s !! paneId = Some paneSet →
     isCollapsed s paneId blockId blockDefault
     = if decide (blockId ∈ paneSet) then negb blockDefault else blockDefault) ∧
  isCollapsed (toggleCollapsed paneId blockId (toggleCollapsed paneId blockId s))
    paneId blockId blockDefault
  = isCollapsed s paneId blockId blockDefault.
Proof.
  unfold isCollapsed. split_and!.
  - by intros ->.
  - by intros paneSet ->.
  - unfold toggleCollapsed. simpl. rewrite !lookup_insert_eq. simpl.
    destruct (collapsedBlocks s !! paneId) as [paneSet |]; simpl;
      repeat case_decide; try done; set_solver.
Qed.

Lemma isCollapsed_toggle_twice_witness :
  collapsedBlocks twoPanesOverlay !! "pane-0000000a" = Some {[ "block-1" ]} ∧
  isCollapsed twoPanesOverlay "pane-0000000a" "block-1" false = true.
Proof.
  split; [by vm_compute |].
  rewrite (proj1 (proj2 (isCollapsed_toggle_twice twoPanesOverlay "pane-0000000a" "block-1" false))
             {[ "block-1" ]}); by vm_compute.
Defined.

End PaneFacts.

(** * Facts about the shell executor *)

Module ExecutorFacts.
Import JsString Types Executor.

Lemma normalizeUnit_straight c : isTypographic (normalizeUnit c) = false.
Proof.
  unfold normalizeUnit, isTypographic.
  repeat (case_match; [by vm_compute |]).
  apply bool_decide_eq_false.
  rewrite !elem_of_cons, elem_of_nil.
  repeat match goal with
         | H : (_ || _) = false |- _ => apply orb_false_iff in H as [? ?]
         | H : (_ =? _)%N = false |- _ => apply N.eqb_neq in H
         end.
  intuition congruence.
Qed.

Lemma normalizeQuotes_straight str :
  Forall (λ c, isTypographic c = false) (normalizeQuotes str).
Proof.
  unfold normalizeQuotes. apply Forall_fmap, Forall_true. intros c.
  apply normalizeUnit_straight.
Qed.

Lemma extractShellCommand_sh content cmd :
  extractShellCommand content = Some cmd → parseBlockType content = sh.
Proof.
  unfold extractShellCommand, parseBlockType.
  destruct (startsWith _ (lit "sh::")); [done |].
  destruct (startsWith _ (lit "term::")); [done | done].
Qed.

(** The code's one-pass rewrite is the specification's table. *)
Lemma normalizeUnit_straightEquivalent c : normalizeUnit c = straightEquivalent c.
Proof.
  unfold normalizeUnit, straightEquivalent.
  repeat match goal with
         | |- context [(c =? ?k)%N] =>
             destruct (N.eqb_spec c k) as [->|?]; [by vm_compute|]
         end.
  cbn [orb].
  rewrite !bool_decide_eq_false_2; [done|..];
    rewrite !elem_of_cons, elem_of_nil; intuition congruence.
Qed.

Lemma startsWith_take s p : startsWith s p = true ↔ take (length p) s = p.
Proof.
  revert s. induction p as [|c p IH]; intros [|d s]; cbn [startsWith length take]; try done.
  rewrite andb_true_iff, N.eqb_eq, IH. split; [by intros [-> ->]|by intros [= -> ->]].
Qed.

Lemma startsWith_prefix pre raw p :
  toLowerCase pre = p → startsWith (toLowerCase (pre ++ raw)) p = true.
Proof.
  intros <-. apply startsWith_take. unfold toLowerCase.
  by rewrite fmap_app, take_app_length.
Qed.

Lemma slice_prefix pre raw p :
  toLowerCase pre = p → slice (length p) (pre ++ raw) = raw.
Proof.
  intros <-. unfold slice, toLowerCase. rewrite length_fmap. apply drop_app_length.
Qed.

Lemma startsWith_split s p :
  startsWith (toLowerCase s) p = true →
  s = take (length p) s ++ slice (length p) s ∧ toLowerCase (take (length p) s) = p.
Proof.
  intros H%startsWith_take. split; [unfold slice; by rewrite take_drop|].
  unfold toLowerCase in *. by rewrite fmap_take.
Qed.

(** What [extractShellCommand] returns, for every content: the content,
    trimmed, is a prefix that lower-cases to [sh::] or [term::] followed by a
    remainder whose trimmed form is not empty, and the command is that
    trimmed remainder under [normalizeQuotes]. *)
Lemma extractShellCommand_eval content cmd :
  extractShellCommand content = Some cmd ↔
  ∃ pre raw, trim content = pre ++ raw ∧
             (toLowerCase pre = lit "sh::" ∨ toLowerCase pre = lit "term::") ∧
             trim raw ≠ [] ∧
             cmd = normalizeQuotes (trim raw).
Proof.
  unfold extractShellCommand. split.
  - destruct (startsWith _ (lit "sh::")) eqn:Esh.
    + apply startsWith_split in Esh as [Hs Hp].
      destruct (trim (slice 4 _)) as [|c cs] eqn:Eraw; [done|]. intros [= <-].
      eexists _, _. split; [exact Hs|]. split; [by left|].
      change (length (lit "sh::")) with 4. by rewrite Eraw.
    + destruct (startsWith _ (lit "term::")) eqn:Eterm; [|done].
      apply startsWith_split in Eterm as [Hs Hp].
      destruct (trim (slice 6 _)) as [|c cs] eqn:Eraw; [done|]. intros [= <-].
      eexists _, _. split; [exact Hs|]. split; [by right|].
      change (length (lit "term::")) with 6. by rewrite Eraw.
  - intros (pre & raw & -> & [Hp|Hp] & Hne & ->).
    + rewrite (startsWith_prefix _ _ _ Hp).
      change 4 with (length (lit "sh::")). rewrite (slice_prefix _ _ _ Hp).
      by destruct (trim raw).
    + assert (startsWith (toLowerCase (pre ++ raw)) (lit "sh::") = false) as ->.
      { unfold toLowerCase. rewrite fmap_app.
        change (lowerUnit <$> pre) with (toLowerCase pre). by rewrite Hp. }
      rewrite (startsWith_prefix _ _ _ Hp).
      change 6 with (length (lit "term::")). rewrite (slice_prefix _ _ _ Hp).
      by destruct (trim raw).
Qed.

(** C9: the command [extractShellCommand] hands on is the text after the
    [sh::] or [term::] prefix, trimmed, with every code unit replaced by its
    straight equivalent (curly double quotes by U+0022, curly single quotes
    by U+0027, en and em dashes by U+002D, every other unit kept), and it
    returns a command for no other content.  So the result holds no curly
    quote and no en or em dash, content it accepts has the shell type, on
    [sh:: ls ?la] written with an en dash or an em dash it returns [ls -la],
    and on [sh:: echo ?hi? ?x?] written with curly quotes it returns the
    same text with straight quotes. *)
Theorem extractShellCommand_normalized :
  (∀ content cmd,
     extractShellCommand content = Some cmd ↔
     ∃ pre raw, trim content = pre ++ raw ∧
                (toLowerCase pre = lit "sh::" ∨ toLowerCase pre = lit "term::") ∧
                trim raw ≠ [] ∧
                cmd = straightEquivalent <$> trim raw) ∧
  (∀ str, normalizeQuotes str = straightEquivalent <$> str) ∧
  (∀ content, Forall (λ c, isTypographic c = false)
                (default [] (extractShellCommand content))) ∧
  (∀ content, extractShellCommand content = None ∨ parseBlockType content = sh) ∧
  extractShellCommand (lsContent 0x2013) = Some (lit "ls -la") ∧
  extractShellCommand (lsContent 0x2014) = Some (lit "ls -la") ∧
  extractShellCommand (echoContent 0x201C 0x201D 0x2018 0x2019)
    = Some (echoCommand 0x22 0x22 0x27 0x27) ∧
  parseBlockType (lsContent 0x2013) = sh ∧
  parseBlockType (lsContent 0x2014) = sh.
Proof.
  assert (∀ str, normalizeQuotes str = straightEquivalent <$> str) as Hnorm.
  { intros str. unfold normalizeQuotes. apply list_fmap_ext.
    intros _ c _. apply normalizeUnit_straightEquivalent. }
  split.
  { intros content cmd. rewrite extractShellCommand_eval.
    by setoid_rewrite Hnorm. }
  split; [exact Hnorm|]. clear Hnorm.
  split_and!; try (by vm_compute).
  - intros content. unfold extractShellCommand.
    repeat case_match; cbn [default];
      first [ apply Forall_nil_2 | apply normalizeQuotes_straight ].
  - intros content. destruct (extractShellCommand content) eqn:E; [right | by left].
    by eapply extractShellCommand_sh.
Qed.

End ExecutorFacts.

(** * Facts about the synchronization bridge *)

Module SyncedYDocFacts.
Import SyncedYDoc.

Lemma updateHandler_remote b : updateHandler (Some "remote") b = b.
Proof. done. Qed.

Lemma updateHandler_applying origin b :
  isApplyingRemoteRef b = true → updateHandler origin b = b.
Proof. unfold updateHandler. intros ->. by rewrite orb_true_r. Qed.

Lemma loadInitialState_timers b : timers (loadInitialState b) = timers b.
Proof.
  unfold loadInitialState, applyUpdate. simpl.
  destruct (handlerAttached b); [by rewrite updateHandler_applying | done].
Qed.

Lemma reloadFromState_timers b :
  timers (reloadFromState b)
  = match syncTimerRef b with Some h => clearTimeout h (timers b) | None => timers b end.
Proof. done. Qed.

(** C2 on the code: the initial load and the reload never start a timer, an
    update marked [remote] never does, a local edit does; the execution
    result that [executeShellBlock] merges in is handled as a local edit and
    starts a timer, where the claim wants it treated as remote. *)
Theorem executeShellBlock_schedules_push :
  (∀ b, timers (loadInitialState b) = timers b) ∧
  (∀ b, timers (reloadFromState b) ⊆ timers b) ∧
  (∀ b, timers (applyUpdate (Some "remote") b) = timers b) ∧
  timers loadedBridge = [] ∧
  timers (localEdit loadedBridge) = [1] ∧
  timers (executeShellBlock loadedBridge) = [1].
Proof.
  split_and!; try done.
  - apply loadInitialState_timers.
  - intros b. rewrite reloadFromState_timers.
    destruct (syncTimerRef b); [| done].
    unfold clearTimeout. intros x Hx. apply list_elem_of_filter in Hx. tauto.
  - intros b. unfold applyUpdate. by destruct (handlerAttached b).
Qed.

End SyncedYDocFacts.

(** * Facts about the block store *)

Module BlockFacts.
Import JsString Types BlockStore.

(** ** Arrays *)

Section arrays.
Implicit Types (x y : string) (l : list string).

Lemma index_of_here x l1 l2 : x ∉ l1 → index_of x (l1 ++ x :: l2) = Some (length l1).
Proof.
  induction l1 as [| y l1 IH]; simpl; intros Hx.
  - by rewrite decide_True.
  - apply not_elem_of_cons in Hx as [Hxy Hx].
    rewrite decide_False by done. by rewrite IH.
Qed.

Lemma index_of_absent x l : x ∉ l → index_of x l = None.
Proof.
  induction l as [| y l IH]; simpl; [done |]. intros [Hxy Hx]%not_elem_of_cons.
  rewrite decide_False by done. by rewrite IH.
Qed.

Lemma index_of_Some x l i :
  index_of x l = Some i → ∃ l1 l2, l = l1 ++ x :: l2 ∧ (x ∉ l1) ∧ length l1 = i.
Proof.
  destruct (decide (x ∈ l)) as [Hin | Hin].
  - apply list_elem_of_split_l in Hin as (l1 & l2 & -> & Hx).
    rewrite index_of_here by done. intros [= <-]. eauto.
  - by rewrite index_of_absent.
Qed.

Lemma indexOf_here x l1 l2 : x ∉ l1 → indexOf x (l1 ++ x :: l2) = Z.of_nat (length l1).
Proof. intros H. unfold indexOf. by rewrite index_of_here. Qed.

Lemma indexOf_absent x l : x ∉ l → indexOf x l = (-1)%Z.
Proof. intros H. unfold indexOf. by rewrite index_of_absent. Qed.

Lemma indexOf_nonneg x l :
  (0 ≤ indexOf x l)%Z →
  ∃ l1 l2, l = l1 ++ x :: l2 ∧ (x ∉ l1) ∧ indexOf x l = Z.of_nat (length l1).
Proof.
  unfold indexOf. destruct (index_of x l) as [i |] eqn:E; [| lia].
  intros _. apply index_of_Some in E as (l1 & l2 & -> & Hx & <-). eauto.
Qed.

Lemma insertAt_after l1 x l2 ys :
  insertAt (Z.of_nat (length l1) + 1) ys (l1 ++ x :: l2) = l1 ++ x :: ys ++ l2.
Proof.
  unfold insertAt.
  replace (Z.to_nat (Z.of_nat (length l1) + 1)) with (length l1 + 1) by lia.
  rewrite take_app_add, drop_app_add. simpl. rewrite ?take_0, ?drop_0.
  by rewrite <- app_assoc.
Qed.

Lemma insertAt_front ys l : insertAt (-1 + 1) ys l = ys ++ l.
Proof. unfold insertAt. simpl. by rewrite ?take_0, ?drop_0. Qed.

Lemma insertAt_here l1 l2 ys :
  insertAt (Z.of_nat (length l1)) ys (l1 ++ l2) = l1 ++ ys ++ l2.
Proof.
  unfold insertAt. rewrite Nat2Z.id. by rewrite take_app_length, drop_app_length.
Qed.

Lemma deleteAt_here l1 l2 l3 :
  deleteAt (Z.of_nat (length l1)) (length l2) (l1 ++ l2 ++ l3) = l1 ++ l3.
Proof.
  unfold deleteAt. rewrite Nat2Z.id, take_app_length, drop_app_add.
  by rewrite drop_app_length.
Qed.

Lemma deleteAt_one l1 x l2 :
  deleteAt (Z.of_nat (length l1)) 1 (l1 ++ x :: l2) = l1 ++ l2.
Proof. apply (deleteAt_here l1 [x] l2). Qed.

Lemma deleteAt_two l1 x y l2 :
  deleteAt (Z.of_nat (length l1)) 2 (l1 ++ x :: y :: l2) = l1 ++ l2.
Proof. apply (deleteAt_here l1 [x; y] l2). Qed.

Lemma without_absent x l : x ∉ l → without x l = l.
Proof.
  unfold without. induction l as [| y l IH]; [done |].
  intros [Hxy Hx]%not_elem_of_cons. rewrite filter_cons_True by done. by rewrite IH.
Qed.

Lemma without_here x l1 l2 : x ∉ l1 → x ∉ l2 → without x (l1 ++ x :: l2) = l1 ++ l2.
Proof.
  intros H1 H2. unfold without. rewrite filter_app, filter_cons_False by (by intros []).
  fold (without x l1). fold (without x l2). by rewrite !without_absent.
Qed.

Lemma elem_of_without x y l : y ∈ without x l ↔ y ∈ l ∧ y ≠ x.
Proof. unfold without. rewrite list_elem_of_filter. tauto. Qed.

Lemma NoDup_without x l : NoDup l → NoDup (without x l).
Proof. apply NoDup_filter. Qed.

Lemma swapAt_here l1 x y l2 :
  swapAt (length l1) (S (length l1)) (l1 ++ x :: y :: l2) = l1 ++ y :: x :: l2.
Proof.
  unfold swapAt.
  rewrite (lookup_app_r l1) by lia. rewrite Nat.sub_diag. simpl.
  rewrite (lookup_app_r l1) by lia.
  replace (S (length l1) - length l1) with 1 by lia. simpl.
  rewrite (insert_app_r_alt l1) by lia.
  replace (S (length l1) - length l1) with 1 by lia. simpl.
  rewrite (insert_app_r_alt l1) by lia. by rewrite Nat.sub_diag.
Qed.

Lemma insertAt_indexOf_perm x y l : insertAt (indexOf x l + 1) [y] l ≡ₚ y :: l.
Proof.
  destruct (decide (x ∈ l)) as [Hin | Hin].
  - apply list_elem_of_split_l in Hin as (l1 & l2 & -> & Hx).
    rewrite indexOf_here, insertAt_after by done. simpl.
    rewrite (Permutation_middle l1 (x :: l2) y). apply Permutation_app_head, perm_swap.
  - rewrite indexOf_absent by done. by rewrite insertAt_front.
Qed.

Lemma snoc_split l1 y l : l1 ++ y :: l = (l1 ++ [y]) ++ l.
Proof. by rewrite <- app_assoc. Qed.

(** A list without duplicates, split at one of its members. *)
Lemma NoDup_split x l1 l2 : NoDup (l1 ++ x :: l2) → (x ∉ l1) ∧ (x ∉ l2).
Proof.
  rewrite NoDup_app, NoDup_cons. intros (_ & H & Hx & _). split; [| done].
  intros Hin. eapply H; [exact Hin | apply list_elem_of_here].
Qed.
End arrays.

(** ** Shapes *)

Section shapes.
Implicit Types (m : gmap string Block) (roots : list string) (c : option string).

Lemma parentOf_Some m x c :
  parentOf m x = Some c ↔ ∃ b, m !! x = Some b ∧ parentId b = c.
Proof.
  unfold parentOf. destruct (m !! x) as [b |]; simpl; [| naive_solver].
  split; [intros [= <-]; eauto | intros (b' & [= <-] & <-); done].
Qed.

Lemma kids_Some_live m roots p x : x ∈ kids m roots (Some p) → is_Some (m !! p).
Proof. simpl. destruct (m !! p); [eauto | by intros ?%not_elem_of_nil]. Qed.

Lemma tree_wf_alt m roots :
  tree_wf m roots ↔ ids_ok m ∧ wf_shape (kids m roots) (parentOf m).
Proof.
  unfold tree_wf, wf_shape. split.
  - intros (Hid & Hr & Hc & Hrp & Hcp & Hl). split_and!; [done | |].
    + intros [p |]; simpl; [| done].
      destruct (m !! p) as [b |] eqn:E; simpl; [by eapply (Hc p) | apply NoDup_nil_2].
    + intros c x. split.
      * destruct c as [p |]; simpl.
        -- destruct (m !! p) as [b |] eqn:E; simpl; [| by intros ?%not_elem_of_nil].
           intros Hx. specialize (Hcp p b E). simpl in Hcp.
           rewrite Forall_forall in Hcp. by apply Hcp.
        -- rewrite Forall_forall in Hrp. apply Hrp.
      * intros (b & E & <-)%parentOf_Some. by apply (Hl x b).
  - intros (Hid & Hnd & Hiff). split_and!; [done | apply (Hnd None) | | | |].
    + intros p b E. specialize (Hnd (Some p)). simpl in Hnd. by rewrite E in Hnd.
    + apply Forall_forall. intros x Hx. by apply (Hiff None).
    + intros p b E. simpl. apply Forall_forall. intros x Hx.
      apply (Hiff (Some p)). simpl. by rewrite E.
    + intros k b E. apply Hiff. apply parentOf_Some. eauto.
Qed.

Lemma NoDup_occurs_once (l : list string) x :
  NoDup l → x ∈ l ↔ length (filter (λ y, y = x) l) = 1.
Proof.
  induction 1 as [| y l Hy Hnd IH].
  - split; [by intros ?%not_elem_of_nil | done].
  - rewrite elem_of_cons. destruct (decide (y = x)) as [-> | Hne].
    + rewrite filter_cons_True by done. simpl. split; [| auto]. intros _.
      destruct (filter (λ y, y = x) l) as [| z t] eqn:E; [done |].
      exfalso. apply Hy. assert (z ∈ filter (λ y, y = x) l) as Hz
        by (rewrite E; apply list_elem_of_here).
      apply list_elem_of_filter in Hz as [-> Hz]. done.
    + rewrite filter_cons_False by done. rewrite <- IH. naive_solver.
Qed.

(** [tree_inv] says what the wording says. *)
Lemma tree_inv_iff_worded m roots : tree_inv m roots ↔ tree_inv_worded m roots.
Proof.
  unfold tree_inv, tree_inv_worded.
  split; intros (Hr & Hc & Hrl & Hcl & Hl); split_and!; try done.
  - intros k b E. specialize (Hl k b E). simpl in Hl.
    unfold is_root, has_parent. destruct (parentId b) as [p |] eqn:Hp; simpl in Hl.
    + right. split; [by intros [? _] |].
      destruct (m !! p) as [pb |] eqn:Ep; simpl in Hl; [| by apply not_elem_of_nil in Hl].
      exists p, pb. split_and!; try done. apply NoDup_occurs_once; [by apply (Hc p) | done].
    + left. split; [done |]. by intros (p & pb & ? & _).
  - intros k b E. specialize (Hl k b E). simpl in Hl.
    destruct Hl as [[[Hp Hin] _] | [_ (p & pb & Hp & Ep & Hn)]]; rewrite Hp; simpl.
    + done.
    + rewrite Ep. simpl. apply NoDup_occurs_once; [by apply (Hc p) | done].
Qed.

Lemma tree_wf_ids m roots : tree_wf m roots → ids_ok m.
Proof. by intros [? _]. Qed.

Lemma tree_wf_NoDup m roots c : tree_wf m roots → NoDup (kids m roots c).
Proof. intros (_ & H & _)%tree_wf_alt. apply H. Qed.

Lemma tree_wf_listed m roots c x :
  tree_wf m roots → x ∈ kids m roots c ↔ parentOf m x = Some c.
Proof. intros (_ & _ & H)%tree_wf_alt. apply H. Qed.

(** The mirrored invariant implies the invariant as the specification
    words it. *)
Lemma tree_wf_inv m roots : tree_wf m roots → tree_inv m roots.
Proof.
  intros Hwf. pose proof Hwf as (Hid & Hr & Hc & Hrp & Hcp & Hl).
  split_and!; try done.
  - eapply Forall_impl; [exact Hrp |]. intros x (b & -> & _)%parentOf_Some. eauto.
  - intros k b E. eapply Forall_impl; [exact (Hcp k b E) |].
    intros x (b' & -> & _)%parentOf_Some. eauto.
Qed.

Lemma parent_live m roots k b p :
  tree_wf m roots → m !! k = Some b → parentId b = Some p →
  is_Some (m !! p) ∧ p ≠ "".
Proof.
  intros Hwf E Hp.
  assert (k ∈ kids m roots (Some p)) as Hin.
  { apply tree_wf_listed; [done |]. apply parentOf_Some. eauto. }
  apply kids_Some_live in Hin as [pb Epb]. split; [eauto |].
  by destruct (tree_wf_ids _ _ Hwf p pb Epb).
Qed.

Lemma truthy_parent m roots k b :
  tree_wf m roots → m !! k = Some b → truthy (parentId b) = parentId b.
Proof.
  intros Hwf E. destruct (parentId b) as [p |] eqn:Hp; [| done]. simpl.
  destruct (parent_live _ _ _ _ _ Hwf E Hp) as [_ Hne]. by rewrite decide_False.
Qed.

(** Only the shape of the blocks matters. *)
Lemma shape_lookup m1 m2 k :
  shape <$> m1 = shape <$> m2 → shape <$> m1 !! k = shape <$> m2 !! k.
Proof. intros H. by rewrite <- !lookup_fmap, H. Qed.

Lemma shape_kids m1 m2 roots c :
  shape <$> m1 = shape <$> m2 → kids m1 roots c = kids m2 roots c.
Proof.
  intros H. destruct c as [p |]; [| done]. simpl.
  pose proof (shape_lookup _ _ p H) as E.
  destruct (m1 !! p), (m2 !! p); simpl in *; try done. by injection E.
Qed.

Lemma shape_parentOf m1 m2 x :
  shape <$> m1 = shape <$> m2 → parentOf m1 x = parentOf m2 x.
Proof.
  intros H. unfold parentOf. pose proof (shape_lookup _ _ x H) as E.
  destruct (m1 !! x), (m2 !! x); simpl in *; try done. injection E. congruence.
Qed.

Lemma shape_ids_ok m1 m2 : shape <$> m1 = shape <$> m2 → ids_ok m1 → ids_ok m2.
Proof.
  intros H Hid k b E. pose proof (shape_lookup _ _ k H) as Ek. rewrite E in Ek.
  destruct (m1 !! k) as [b1 |] eqn:E1; simpl in Ek; [| done].
  injection Ek as Hi _ _. rewrite <- Hi. by apply (Hid k b1).
Qed.

Lemma shape_tree_wf m1 m2 roots :
  shape <$> m1 = shape <$> m2 → tree_wf m1 roots → tree_wf m2 roots.
Proof.
  intros H. rewrite !tree_wf_alt. intros (Hid & Hnd & Hiff).
  split; [by eapply shape_ids_ok | split].
  - intros c. rewrite <- (shape_kids m1 m2) by done. apply Hnd.
  - intros c x. rewrite <- (shape_kids m1 m2), <- (shape_parentOf m1 m2) by done.
    apply Hiff.
Qed.
End shapes.

(** ** The snapshot after a transaction *)

Section sync.
Implicit Types (m old new : gmap string Block) (s : BlockStore) (d : YDoc).

Lemma omap_toBlock m : ids_ok m → omap toBlock m = m.
Proof.
  intros Hid. apply map_eq. intros k. rewrite lookup_omap.
  destruct (m !! k) as [b |] eqn:E; simpl; [| done].
  destruct (Hid k b E) as [Hi Hne]. unfold toBlock.
  rewrite decide_False; [done | congruence].
Qed.

Lemma blocksChanged_false old new :
  blocksChanged old new = false →
  size old = size new ∧
  ∀ k b, new !! k = Some b →
         ∃ ob, old !! k = Some ob ∧ childIds ob = childIds b.
Proof.
  unfold blocksChanged. intros [H1 H2]%orb_false_iff.
  apply negb_false_iff, bool_decide_eq_true in H1.
  apply bool_decide_eq_false in H2. split; [done |].
  intros k b E. destruct (old !! k) as [ob |] eqn:Eo.
  - exists ob. split; [done |].
    destruct (decide (childIds ob = childIds b)) as [| Hne]; [done |].
    exfalso. apply H2, map_Exists_lookup. exists k, b. split; [done |].
    unfold changedAt. rewrite Eo. rewrite (bool_decide_eq_false_2 (childIds _ = _)) by done.
    simpl. by rewrite !orb_true_r.
  - exfalso. apply H2, map_Exists_lookup. exists k, b. split; [done |].
    unfold changedAt. by rewrite Eo.
Qed.

Lemma same_keys old new :
  size old = size new →
  (∀ k, is_Some (new !! k) → is_Some (old !! k)) →
  ∀ k, is_Some (old !! k) ↔ is_Some (new !! k).
Proof.
  intros Hsz Hsub k.
  assert (dom new = dom old) as Hdom.
  { apply set_subseteq_size_eq.
    - intros x. rewrite !elem_of_dom. apply Hsub.
    - rewrite !size_dom. lia. }
  by rewrite <- !elem_of_dom, Hdom.
Qed.

(** Two well-formed trees over the same keys with the same child
    sequences have the same parent pointers. *)
Lemma same_children_same_shape old new r1 r2 :
  tree_wf old r1 → tree_wf new r2 →
  size old = size new →
  (∀ k b, new !! k = Some b → ∃ ob, old !! k = Some ob ∧ childIds ob = childIds b) →
  shape <$> old = shape <$> new.
Proof.
  intros Ho Hn Hsz Hch.
  assert (∀ k, is_Some (old !! k) ↔ is_Some (new !! k)) as Hkeys.
  { apply same_keys; [done |]. intros k [b E]. destruct (Hch k b E) as (ob & -> & _). eauto. }
  assert (∀ p, getChildIds (old !! p) = getChildIds (new !! p)) as Hkids.
  { intros p. destruct (new !! p) as [b |] eqn:E.
    - destruct (Hch p b E) as (ob & -> & Hc). done.
    - destruct (old !! p) as [ob |] eqn:Eo; [| done].
      destruct (proj1 (Hkeys p)) as [? ?]; [rewrite Eo; eauto | congruence]. }
  apply map_eq. intros k. rewrite !lookup_fmap.
  destruct (new !! k) as [b |] eqn:E; simpl.
  - destruct (Hch k b E) as (ob & Eo & Hc). rewrite Eo. simpl. unfold shape.
    destruct (tree_wf_ids _ _ Ho k ob Eo) as [-> _].
    destruct (tree_wf_ids _ _ Hn k b E) as [-> _].
    rewrite Hc. do 3 f_equal.
    destruct (parentId b) as [p |] eqn:Hp.
    + assert (k ∈ kids new r2 (Some p)) as Hin
        by (apply tree_wf_listed; [done |]; apply parentOf_Some; eauto).
      simpl in Hin. rewrite <- Hkids in Hin.
      apply (tree_wf_listed old r1 (Some p)) in Hin; [| done].
      apply parentOf_Some in Hin as (ob' & Eo' & Hp'). congruence.
    + destruct (parentId ob) as [p |] eqn:Hp'; [| done].
      assert (k ∈ kids old r1 (Some p)) as Hin
        by (apply tree_wf_listed; [done |]; apply parentOf_Some; eauto).
      simpl in Hin. rewrite Hkids in Hin.
      apply (tree_wf_listed new r2 (Some p)) in Hin; [| done].
      apply parentOf_Some in Hin as (b' & E' & Hp''). congruence.
  - destruct (old !! k) as [ob |] eqn:Eo; [| done].
    destruct (proj1 (Hkeys k)) as [? ?]; [rewrite Eo; eauto | congruence].
Qed.

(** A transaction that leaves a well-formed document leaves a well-formed,
    synchronized store. *)
Lemma transact_inv s d :
  tree_wf (blocks s) (rootIds s) → tree_wf (blocksMap d) (rootIdsArr d) →
  store_inv (transact s d) ∧ _doc (transact s d) = Some d.
Proof.
  intros Ho Hn. unfold transact, _syncFromYDoc, store_inv, synced. simpl.
  rewrite (omap_toBlock (blocksMap d)) by (by eapply tree_wf_ids).
  assert ((if bool_decide (rootIds s = rootIdsArr d) then rootIds s else rootIdsArr d)
          = rootIdsArr d) as -> by (case_bool_decide; done).
  destruct (blocksChanged (blocks s) (blocksMap d)) eqn:E; [done |].
  apply blocksChanged_false in E as [Hsz Hch].
  pose proof (same_children_same_shape _ _ _ _ Ho Hn Hsz Hch) as Hsh.
  split_and!; try done.
  eapply shape_tree_wf; [symmetry; exact Hsh | done].
Qed.

Lemma store_inv_doc s d :
  store_inv s → _doc s = Some d → tree_wf (blocksMap d) (rootIdsArr d) ∧ synced s d.
Proof.
  unfold store_inv. intros [Hwf Hs] E. rewrite E in Hs. split; [| done].
  destruct Hs as [Hr Hsh]. rewrite <- Hr. by eapply shape_tree_wf.
Qed.
End sync.

(** ** Map edits, seen through [kids] and [parentOf] *)

Section edits.
Implicit Types (m : gmap string Block) (roots : list string) (c : option string)
               (f : Block → Block) (k p x : string).

Lemma kids_alter_keep f k m roots c :
  (∀ b, childIds (f b) = childIds b) → kids (alter f k m) roots c = kids m roots c.
Proof.
  intros Hf. destruct c as [p |]; [| done]. simpl. rewrite lookup_alter.
  case_decide; [| done]. subst. destruct (m !! p); simpl; [apply Hf | done].
Qed.

Lemma parentOf_alter_keep f k m x :
  (∀ b, parentId (f b) = parentId b) → parentOf (alter f k m) x = parentOf m x.
Proof.
  intros Hf. unfold parentOf. rewrite lookup_alter.
  case_decide; [| done]. subst. destruct (m !! x); simpl; [by rewrite Hf | done].
Qed.

Lemma ids_ok_alter f k m : (∀ b, id (f b) = id b) → ids_ok m → ids_ok (alter f k m).
Proof.
  intros Hf Hid x b. rewrite lookup_alter. case_decide; [| apply Hid]. subst.
  destruct (m !! x) as [b0 |] eqn:E; simpl; [| done].
  intros [= <-]. rewrite Hf. by apply Hid.
Qed.

Lemma kids_set_childIds l p m roots c :
  is_Some (m !! p) →
  kids (alter (set_childIds l) p m) roots c
  = if decide (c = Some p) then l else kids m roots c.
Proof.
  intros [b E]. destruct (decide (c = Some p)) as [-> | Hne].
  - simpl. by rewrite lookup_alter_eq, E.
  - destruct c as [q |]; [| done]. simpl. rewrite lookup_alter_ne; [done | congruence].
Qed.

Lemma parentOf_set_parentId v k m x :
  is_Some (m !! k) →
  parentOf (alter (set_parentId v) k m) x
  = if decide (x = k) then Some v else parentOf m x.
Proof.
  intros [b E]. unfold parentOf. destruct (decide (x = k)) as [-> | Hne].
  - by rewrite lookup_alter_eq, E.
  - by rewrite lookup_alter_ne.
Qed.

Lemma kids_insert k b m roots c :
  kids (<[k := b]> m) roots c = if decide (c = Some k) then childIds b else kids m roots c.
Proof.
  destruct (decide (c = Some k)) as [-> | Hne].
  - simpl. by rewrite lookup_insert_eq.
  - destruct c as [q |]; [| done]. simpl. rewrite lookup_insert_ne; [done | congruence].
Qed.

Lemma parentOf_insert k b m x :
  parentOf (<[k := b]> m) x = if decide (x = k) then Some (parentId b) else parentOf m x.
Proof.
  unfold parentOf. destruct (decide (x = k)) as [-> | Hne].
  - by rewrite lookup_insert_eq.
  - by rewrite lookup_insert_ne.
Qed.

Lemma kids_delete k m roots c :
  kids (delete k m) roots c = if decide (c = Some k) then [] else kids m roots c.
Proof.
  destruct (decide (c = Some k)) as [-> | Hne].
  - simpl. by rewrite lookup_delete_eq.
  - destruct c as [q |]; [| done]. simpl. rewrite lookup_delete_ne; [done | congruence].
Qed.

Lemma parentOf_delete k m x :
  parentOf (delete k m) x = if decide (x = k) then None else parentOf m x.
Proof.
  unfold parentOf. destruct (decide (x = k)) as [-> | Hne].
  - by rewrite lookup_delete_eq.
  - by rewrite lookup_delete_ne.
Qed.

Lemma ids_ok_insert k b m : id b = k → k ≠ "" → ids_ok m → ids_ok (<[k := b]> m).
Proof. intros ?? Hid. by apply map_Forall_insert_2. Qed.

Lemma ids_ok_delete k m : ids_ok m → ids_ok (delete k m).
Proof. apply map_Forall_delete. Qed.

(** A listed block sits in a sequence once, between two lists without it. *)
Lemma listed_split m roots c x :
  tree_wf m roots → parentOf m x = Some c →
  ∃ l1 l2, kids m roots c = l1 ++ x :: l2 ∧ (x ∉ l1) ∧ (x ∉ l2).
Proof.
  intros Hwf Hp. apply (tree_wf_listed _ _ _ _ Hwf) in Hp.
  apply list_elem_of_split in Hp as (l1 & l2 & E).
  pose proof (tree_wf_NoDup m roots c Hwf) as Hnd. rewrite E in Hnd.
  apply NoDup_split in Hnd. eauto.
Qed.

Lemma container_live m roots c x :
  tree_wf m roots → parentOf m x = Some c →
  match c with Some p => is_Some (m !! p) | None => True end.
Proof.
  intros Hwf Hp. destruct c as [p |]; [| done].
  apply (tree_wf_listed _ _ _ _ Hwf) in Hp. by eapply kids_Some_live.
Qed.

(** The removal step, on a well-formed tree. *)
Lemma detached_shape m roots c0 k :
  tree_wf m roots → parentOf m k = Some c0 →
  let d' := detached c0 k {| blocksMap := m; rootIdsArr := roots |} in
  (∀ c, kids (blocksMap d') (rootIdsArr d') c = kidsWithout m roots c0 k c) ∧
  (∀ x, parentOf (blocksMap d') x = parentOf m x) ∧
  (∀ x, is_Some (blocksMap d' !! x) ↔ is_Some (m !! x)) ∧
  ids_ok (blocksMap d').
Proof.
  intros Hwf Hp. pose proof (container_live _ _ _ _ Hwf Hp) as Hlive.
  unfold kidsWithout. destruct c0 as [p |]; simpl.
  - unfold setValueOnYMap. split_and!.
    + intros c. rewrite kids_set_childIds by done. case_decide; by subst.
    + intros x. by apply parentOf_alter_keep.
    + intros x. apply lookup_alter_is_Some.
    + apply ids_ok_alter; [done | by eapply tree_wf_ids].
  - destruct (listed_split _ _ _ _ Hwf Hp) as (l1 & l2 & E & H1 & H2). simpl in E.
    rewrite E, indexOf_here by done.
    rewrite bool_decide_eq_true_2 by lia.
    rewrite deleteAt_one. split_and!; try done; [| by eapply tree_wf_ids].
    intros [q |]; simpl; [done |]. by rewrite without_here.
Qed.

Lemma elem_of_kidsWithout m roots c0 k c x :
  x ≠ k → x ∈ kidsWithout m roots c0 k c ↔ x ∈ kids m roots c.
Proof.
  intros Hx. unfold kidsWithout. case_decide; [rewrite elem_of_without |]; tauto.
Qed.

Lemma not_elem_of_kidsWithout m roots c0 k c :
  tree_wf m roots → parentOf m k = Some c0 → k ∉ kidsWithout m roots c0 k c.
Proof.
  intros Hwf Hp. unfold kidsWithout. case_decide; [rewrite elem_of_without; tauto |].
  intros Hin. apply (tree_wf_listed _ _ _ _ Hwf) in Hin. congruence.
Qed.

Lemma NoDup_kidsWithout m roots c0 k c :
  tree_wf m roots → NoDup (kidsWithout m roots c0 k c).
Proof.
  intros Hwf. pose proof (tree_wf_NoDup m roots c Hwf).
  unfold kidsWithout. case_decide; auto using NoDup_without.
Qed.
End edits.

(** ** The mutations keep the tree well formed *)

Section mutations.
Implicit Types (m : gmap string Block) (roots : list string) (c : option string)
               (s : BlockStore) (d : YDoc) (k p x : string).

(** Moving, adding or dropping one key [k]: what has to be checked. *)
Lemma wf_shape_edit K P K' P' k (cNew : option (option string)) :
  wf_shape K P →
  (∀ x, P' x = if decide (x = k) then cNew else P x) →
  (∀ c x, x ≠ k → (x ∈ K' c ↔ x ∈ K c)) →
  (∀ c, k ∈ K' c ↔ cNew = Some c) →
  (∀ c, NoDup (K' c)) →
  wf_shape K' P'.
Proof.
  intros [Hnd Hiff] HP Hother Hk Hnd'. split; [done |].
  intros c x. rewrite HP. destruct (decide (x = k)) as [-> | Hne]; [apply Hk |].
  rewrite Hother by done. apply Hiff.
Qed.

Lemma synced_kids s d c :
  synced s d → kids (blocks s) (rootIds s) c = kids (blocksMap d) (rootIdsArr d) c.
Proof. intros [-> Hsh]. by apply shape_kids. Qed.

Lemma synced_parentOf s d x :
  synced s d → parentOf (blocks s) x = parentOf (blocksMap d) x.
Proof. intros [_ Hsh]. by apply shape_parentOf. Qed.

Lemma synced_live s d x :
  synced s d → is_Some (blocks s !! x) ↔ is_Some (blocksMap d !! x).
Proof.
  intros [_ Hsh]. pose proof (shape_lookup _ _ x Hsh) as E.
  destruct (blocks s !! x), (blocksMap d !! x); simpl in E; try done;
    split; intros [? ?]; eauto; done.
Qed.

Lemma siblingsOf_kids s block :
  siblingsOf s block = kids (blocks s) (rootIds s) (truthy (parentId block)).
Proof. unfold siblingsOf. by destruct (truthy _). Qed.

Lemma parentOf_lookup m x b : m !! x = Some b → parentOf m x = Some (parentId b).
Proof. unfold parentOf. by intros ->. Qed.

Lemma kids_of_block m roots x b : m !! x = Some b → kids m roots (Some x) = childIds b.
Proof. simpl. by intros ->. Qed.

Lemma withKids_shape m roots c0 l :
  match c0 with Some p => is_Some (m !! p) | None => True end →
  let d' := withKids c0 l {| blocksMap := m; rootIdsArr := roots |} in
  (∀ c, kids (blocksMap d') (rootIdsArr d') c
        = if decide (c = c0) then l else kids m roots c) ∧
  (∀ x, parentOf (blocksMap d') x = parentOf m x) ∧
  (∀ x, is_Some (blocksMap d' !! x) ↔ is_Some (m !! x)) ∧
  (ids_ok m → ids_ok (blocksMap d')).
Proof.
  intros Hlive. destruct c0 as [p |]; simpl.
  - unfold setValueOnYMap. split_and!.
    + intros c. by rewrite kids_set_childIds.
    + intros x. by apply parentOf_alter_keep.
    + intros x. apply lookup_alter_is_Some.
    + by apply ids_ok_alter.
  - split_and!; try done. by intros [q |].
Qed.

(** *** deleteBlock *)

Lemma deleteBlock_txn_wf m roots k block :
  tree_wf m roots → parentOf m k = Some (truthy (parentId block)) →
  kids m roots (Some k) = [] →
  let d' := deleteBlock_txn k block {| blocksMap := m; rootIdsArr := roots |} in
  tree_wf (blocksMap d') (rootIdsArr d').
Proof.
  intros Hwf Hp Hk0. unfold deleteBlock_txn. cbn zeta.
  destruct (detached_shape m roots _ k Hwf Hp) as (Hk & Hpo & Hlive & Hid).
  set (d1 := detached _ _ _) in *. cbn [blocksMap rootIdsArr].
  pose proof (λ c, not_elem_of_kidsWithout m roots _ k c Hwf Hp) as Hnk.
  apply tree_wf_alt. split; [by apply ids_ok_delete |].
  pose proof Hwf as [_ Hsh]%tree_wf_alt.
  eapply (wf_shape_edit _ _ _ _ k None Hsh).
  - intros x. by rewrite parentOf_delete, Hpo.
  - intros c x Hne. rewrite kids_delete, Hk.
    destruct (decide (c = Some k)) as [-> | Hc]; [by rewrite Hk0 |].
    by apply elem_of_kidsWithout.
  - intros c. rewrite kids_delete, Hk. split; [| done].
    destruct (decide (c = Some k)); [by intros ?%not_elem_of_nil |].
    intros Hin. by apply Hnk in Hin.
  - intros c. rewrite kids_delete, Hk.
    case_decide; auto using NoDup_nil_2, NoDup_kidsWithout.
Qed.

Lemma deleteBlock_inv k s : store_inv s → store_inv (deleteBlock k s).
Proof.
  intros Hinv. unfold deleteBlock.
  destruct (_doc s) as [d |] eqn:Ed; [| done].
  destruct (blocks s !! k) as [block |] eqn:Eb; [| done].
  case_bool_decide as Hlen; [done |].
  destruct (store_inv_doc _ _ Hinv Ed) as [Hwf Hsy]. destruct Hinv as [Hwfs _].
  pose proof (parentOf_lookup _ _ _ Eb) as Hp. rewrite (synced_parentOf _ _ _ Hsy) in Hp.
  rewrite <- (truthy_parent _ _ _ _ Hwfs Eb) in Hp.
  pose proof (kids_of_block _ (rootIds s) _ _ Eb) as Hk0.
  rewrite (synced_kids _ _ _ Hsy) in Hk0.
  apply transact_inv; [done |]. destruct d as [m roots].
  cbn [blocksMap rootIdsArr] in *.
  apply deleteBlock_txn_wf; try done.
  rewrite Hk0. destruct (childIds block); [done | simpl in Hlen; lia].
Qed.

(** *** createBlockAfter *)

Lemma createBlockAfter_txn_wf m roots newId afterId afterBlock newBlock :
  tree_wf m roots → newId ≠ "" → m !! newId = None →
  parentOf m afterId = Some (truthy (parentId afterBlock)) →
  id newBlock = newId → parentId newBlock = truthy (parentId afterBlock) →
  childIds newBlock = [] →
  let d' := createBlockAfter_txn newId afterId afterBlock newBlock
              {| blocksMap := m; rootIdsArr := roots |} in
  tree_wf (blocksMap d') (rootIdsArr d').
Proof.
  intros Hwf Hne Hnew Hp Hnid Hnp Hnc. unfold createBlockAfter_txn.
  cbn [blocksMap rootIdsArr]. unfold blockToPlainObject.
  set (c0 := truthy (parentId afterBlock)) in *.
  set (m1 := <[newId := newBlock]> m).
  destruct (listed_split _ _ _ _ Hwf Hp) as (l1 & l2 & E & H1 & H2).
  pose proof (container_live _ _ _ _ Hwf Hp) as Hlive.
  assert (c0 ≠ Some newId) as Hc0 by (intros Hc; rewrite Hc, Hnew in Hlive; by destruct Hlive).
  assert (kids m1 roots c0 = l1 ++ afterId :: l2) as E1.
  { unfold m1. rewrite kids_insert. by rewrite decide_False. }
  assert (match c0 with Some p => is_Some (m1 !! p) | None => True end) as Hlive1.
  { destruct c0 as [p |]; [| done]. unfold m1. rewrite lookup_insert_ne; [done | congruence]. }
  match goal with |- tree_wf (blocksMap ?d') (rootIdsArr ?d') =>
    assert (d' = withKids c0 (l1 ++ afterId :: [newId] ++ l2)
                   {| blocksMap := m1; rootIdsArr := roots |}) as ->
  end.
  { rewrite <- insertAt_after, <- (indexOf_here afterId l1 l2), <- E1 by done.
    by destruct c0. }
  destruct (withKids_shape m1 roots c0 (l1 ++ afterId :: [newId] ++ l2) Hlive1)
    as (Hk & Hpo & _ & Hid).
  apply tree_wf_alt. split.
  { apply Hid, ids_ok_insert; [done | done | by eapply tree_wf_ids]. }
  apply tree_wf_alt in Hwf as [_ Hsh].
  assert (parentOf m newId = None) as Hpn by (unfold parentOf; by rewrite Hnew).
  assert (∀ c, newId ∉ kids m roots c) as Hnl.
  { intros c Hin. apply Hsh in Hin. congruence. }
  eapply (wf_shape_edit _ _ _ _ newId (Some c0) Hsh).
  - intros x. rewrite Hpo. unfold m1. by rewrite parentOf_insert, Hnp.
  - intros c x Hx. rewrite Hk. unfold m1. rewrite kids_insert.
    destruct (decide (c = c0)) as [-> | Hc].
    + rewrite E. rewrite !elem_of_app, !elem_of_cons, elem_of_app, elem_of_cons, elem_of_nil.
      tauto.
    + case_decide; [| done]. subst c. simpl. by rewrite Hnew, Hnc.
  - intros c. rewrite Hk. unfold m1. rewrite kids_insert.
    destruct (decide (c = c0)) as [-> | Hc].
    + split; [done |]. intros _. set_solver.
    + split; [| congruence]. case_decide; [rewrite Hnc; by intros ?%not_elem_of_nil |].
      intros Hin. by apply Hnl in Hin.
  - intros c. rewrite Hk. unfold m1. rewrite kids_insert. destruct Hsh as [Hnd _].
    destruct (decide (c = c0)) as [-> | Hc];
      [| case_decide; [rewrite Hnc |]; auto using NoDup_nil_2].
    specialize (Hnd c0). specialize (Hnl c0). rewrite E in Hnd, Hnl.
    rewrite not_elem_of_app, not_elem_of_cons in Hnl.
    apply NoDup_app in Hnd as (Hn1 & Hn12 & Hn2). apply NoDup_cons in Hn2 as [Ha Hn2].
    apply NoDup_app. split_and!; [done | |].
    + intros y Hy. specialize (Hn12 y Hy). set_solver.
    + simpl. rewrite !NoDup_cons. set_solver.
Qed.

Lemma createBlockAfter_inv newId now afterId s :
  store_inv s → newId ≠ "" → blocks s !! newId = None →
  store_inv (createBlockAfter newId now afterId s).2.
Proof.
  intros Hinv Hne Hfresh. unfold createBlockAfter.
  destruct (_doc s) as [d |] eqn:Ed; [| done].
  destruct (blocks s !! afterId) as [afterBlock |] eqn:Eb; [| done].
  destruct (store_inv_doc _ _ Hinv Ed) as [Hwf Hsy]. destruct Hinv as [Hwfs _].
  pose proof (parentOf_lookup _ _ _ Eb) as Hp. rewrite (synced_parentOf _ _ _ Hsy) in Hp.
  pose proof (truthy_parent _ _ _ _ Hwfs Eb) as Ht.
  assert (blocksMap d !! newId = None) as Hnew.
  { apply eq_None_not_Some. rewrite <- (synced_live _ _ _ Hsy), Hfresh. by intros [? ?]. }
  cbn [snd]. apply transact_inv; [done |]. destruct d as [m roots].
  apply createBlockAfter_txn_wf; try done; by rewrite Ht.
Qed.

(** *** createBlockInside *)

Lemma createBlockInside_txn_wf m roots newId parent newBlock :
  tree_wf m roots → newId ≠ "" → m !! newId = None → is_Some (m !! parent) →
  id newBlock = newId → parentId newBlock = Some parent → childIds newBlock = [] →
  let d' := createBlockInside_txn newId parent newBlock
              {| blocksMap := m; rootIdsArr := roots |} in
  tree_wf (blocksMap d') (rootIdsArr d').
Proof.
  intros Hwf Hne Hnew Hlive Hnid Hnp Hnc. unfold createBlockInside_txn.
  cbn [blocksMap rootIdsArr]. unfold blockToPlainObject.
  assert (parent ≠ newId) as Hpn by (intros ->; rewrite Hnew in Hlive; by destruct Hlive).
  set (m1 := <[newId := newBlock]> m).
  assert (is_Some (m1 !! parent)) as Hlive1
    by (unfold m1; by rewrite lookup_insert_ne).
  unfold setValueOnYMap.
  apply tree_wf_alt. split.
  { apply ids_ok_alter; [done |]. apply ids_ok_alter; [done |].
    apply ids_ok_insert; [done | done | by eapply tree_wf_ids]. }
  apply tree_wf_alt in Hwf as [_ Hsh].
  assert (parentOf m newId = None) as Hpo by (unfold parentOf; by rewrite Hnew).
  assert (∀ c, newId ∉ kids m roots c) as Hnl.
  { intros c Hin. apply Hsh in Hin. congruence. }
  assert (∀ c, kids (alter (set_collapsed false) parent
                       (alter (set_childIds (getChildIds (m1 !! parent) ++ [newId])) parent m1))
                 roots c
               = if decide (c = Some parent) then kids m roots c ++ [newId]
                 else kids m roots c) as Hk.
  { intros c. rewrite kids_alter_keep by done. rewrite kids_set_childIds by done.
    unfold m1. rewrite lookup_insert_ne by done. case_decide; [by subst |].
    rewrite kids_insert. case_decide; [| done]. subst c. simpl. by rewrite Hnew, Hnc. }
  eapply (wf_shape_edit _ _ _ _ newId (Some (Some parent)) Hsh).
  - intros x. rewrite !parentOf_alter_keep by done. unfold m1.
    by rewrite parentOf_insert, Hnp.
  - intros c x Hx. rewrite Hk. case_decide; [| done].
    rewrite elem_of_app, list_elem_of_singleton. tauto.
  - intros c. rewrite Hk. case_decide as Hc.
    + subst c. split; [done |]. intros _. apply elem_of_app. right. apply list_elem_of_here.
    + split; [| congruence]. intros Hin. by apply Hnl in Hin.
  - intros c. rewrite Hk. destruct Hsh as [Hnd _]. case_decide; [| done].
    apply NoDup_app. split_and!; [done | | apply NoDup_singleton].
    intros y Hy ->%list_elem_of_singleton. by apply Hnl in Hy.
Qed.

Lemma createBlockInside_inv newId now parent s :
  store_inv s → newId ≠ "" → blocks s !! newId = None →
  store_inv (createBlockInside newId now parent s).2.
Proof.
  intros Hinv Hne Hfresh. unfold createBlockInside.
  destruct (_doc s) as [d |] eqn:Ed; [| done].
  destruct (blocks s !! parent) as [parentBlock |] eqn:Eb; [| done].
  destruct (store_inv_doc _ _ Hinv Ed) as [Hwf Hsy]. destruct Hinv as [Hwfs _].
  assert (blocksMap d !! newId = None) as Hnew.
  { apply eq_None_not_Some. rewrite <- (synced_live _ _ _ Hsy), Hfresh. by intros [? ?]. }
  assert (is_Some (blocksMap d !! parent)) as Hlive
    by (apply (synced_live _ _ _ Hsy); rewrite Eb; eauto).
  cbn [snd]. apply transact_inv; [done |]. destruct d as [m roots].
  by apply createBlockInside_txn_wf.
Qed.

(** *** indentBlock *)

Lemma parentOf_live m x c : parentOf m x = Some c → is_Some (m !! x).
Proof. intros (b & -> & _)%parentOf_Some. eauto. Qed.

Lemma indentBlock_txn_shape m roots now k block newParentId :
  tree_wf m roots → parentOf m k = Some (truthy (parentId block)) →
  is_Some (m !! newParentId) →
  let d' := indentBlock_txn now k block newParentId
              {| blocksMap := m; rootIdsArr := roots |} in
  (∀ c, kids (blocksMap d') (rootIdsArr d') c
        = kidsWithout m roots (truthy (parentId block)) k c
          ++ (if decide (c = Some newParentId) then [k] else [])) ∧
  (∀ x, parentOf (blocksMap d') x
        = if decide (x = k) then Some (Some newParentId) else parentOf m x) ∧
  ids_ok (blocksMap d').
Proof.
  intros Hwf Hp Hlive. unfold indentBlock_txn. cbn zeta.
  destruct (detached_shape m roots _ k Hwf Hp) as (Hk & Hpo & Hl & Hid).
  set (d1 := detached _ _ _) in *. cbn [blocksMap rootIdsArr].
  unfold setValueOnYMap.
  assert (is_Some (blocksMap d1 !! newParentId)) as Hlive1 by (by apply Hl).
  split_and!.
  - intros c. rewrite !kids_alter_keep by done. rewrite kids_set_childIds by done.
    case_decide as Hc.
    + subst c. by rewrite <- Hk.
    + by rewrite app_nil_r, Hk.
  - intros x. rewrite parentOf_alter_keep by done.
    rewrite parentOf_set_parentId.
    + case_decide; [done |]. by rewrite !parentOf_alter_keep, Hpo by done.
    + rewrite !lookup_alter_is_Some. apply Hl. by eapply parentOf_live.
  - by repeat (apply ids_ok_alter; [done |]).
Qed.

Lemma indentBlock_txn_wf m roots now k block newParentId :
  tree_wf m roots → parentOf m k = Some (truthy (parentId block)) →
  is_Some (m !! newParentId) →
  let d' := indentBlock_txn now k block newParentId
              {| blocksMap := m; rootIdsArr := roots |} in
  tree_wf (blocksMap d') (rootIdsArr d').
Proof.
  intros Hwf Hp Hlive.
  destruct (indentBlock_txn_shape m roots now k block newParentId Hwf Hp Hlive)
    as (Hk & Hpo & Hid).
  cbn zeta. apply tree_wf_alt. split; [done |].
  pose proof (λ c, not_elem_of_kidsWithout m roots _ k c Hwf Hp) as Hnk.
  pose proof Hwf as [_ Hsh]%tree_wf_alt.
  eapply (wf_shape_edit _ _ _ _ k (Some (Some newParentId)) Hsh).
  - done.
  - intros c x Hx. rewrite Hk, elem_of_app, elem_of_kidsWithout by done.
    assert (x ∉ (if decide (c = Some newParentId) then [k] else [])) as Hn.
    { destruct (decide (c = Some newParentId)); [| apply not_elem_of_nil].
      by intros ->%list_elem_of_singleton. }
    tauto.
  - intros c. rewrite Hk, elem_of_app. specialize (Hnk c).
    destruct (decide (c = Some newParentId)) as [-> | Hc].
    + split; [done |]. intros _. right. apply list_elem_of_here.
    + split; [intros [? | ?%not_elem_of_nil]; done | congruence].
  - intros c. rewrite Hk. apply NoDup_app. specialize (Hnk c).
    split_and!.
    + by apply NoDup_kidsWithout.
    + intros y Hy. destruct (decide (c = Some newParentId)); [| apply not_elem_of_nil].
      intros ->%list_elem_of_singleton. done.
    + destruct (decide (c = Some newParentId)); [apply NoDup_singleton | apply NoDup_nil_2].
Qed.

(** What the guards of [indentBlock] establish about the document. *)
Lemma index_positive x l (i : Z) :
  i = indexOf x l → ¬ (i ≤ 0)%Z →
  ∃ l1 y l2, l = l1 ++ y :: x :: l2 ∧ (x ∉ l1) ∧ x ≠ y ∧
             i = Z.of_nat (S (length l1)) ∧ l !! Z.to_nat (i - 1) = Some y.
Proof.
  intros -> Hi.
  destruct (indexOf_nonneg x l) as (l1 & l2 & -> & Hx & E); [lia |].
  rewrite E in *. destruct l1 as [| y l1 _] using rev_ind; [simpl in Hi; lia |].
  apply not_elem_of_app in Hx as [Hx Hy]. rewrite list_elem_of_singleton in Hy.
  exists l1, y, l2. rewrite <- app_assoc. simpl. split_and!; try done.
  - rewrite length_app. simpl. lia.
  - rewrite length_app. simpl.
    replace (Z.to_nat (Z.of_nat (length l1 + 1) - 1)) with (length l1 + 0) by lia.
    by rewrite lookup_app_r, Nat.add_0_r, Nat.sub_diag by lia.
Qed.

Lemma indentBlock_inv now k s : store_inv s → store_inv (indentBlock now k s).
Proof.
  intros Hinv. unfold indentBlock.
  destruct (_doc s) as [d |] eqn:Ed; [| done].
  destruct (blocks s !! k) as [block |] eqn:Eb; [| done].
  case_bool_decide as Hidx; [done |].
  destruct (_ !! Z.to_nat _) as [newParentId |] eqn:En; [| done].
  destruct (blocks s !! newParentId) as [newParent |] eqn:Enp; [| done].
  destruct (store_inv_doc _ _ Hinv Ed) as [Hwf Hsy]. destruct Hinv as [Hwfs _].
  pose proof (parentOf_lookup _ _ _ Eb) as Hp. rewrite (synced_parentOf _ _ _ Hsy) in Hp.
  rewrite <- (truthy_parent _ _ _ _ Hwfs Eb) in Hp.
  assert (is_Some (blocksMap d !! newParentId)) as Hlive
    by (apply (synced_live _ _ _ Hsy); rewrite Enp; eauto).
  apply transact_inv; [done |]. destruct d as [m roots].
  by apply indentBlock_txn_wf.
Qed.
(** *** outdentBlock *)

Lemma outdentBlock_txn_shape m roots now k p parent :
  tree_wf m roots → parentOf m k = Some (Some p) →
  parentOf m p = Some (truthy (parentId parent)) →
  truthy (parentId parent) = parentId parent →
  let d' := outdentBlock_txn now k p parent {| blocksMap := m; rootIdsArr := roots |} in
  (∀ c, kids (blocksMap d') (rootIdsArr d') c
        = if decide (c = parentId parent)
          then insertAt (indexOf p (kidsWithout m roots (Some p) k c) + 1) [k]
                 (kidsWithout m roots (Some p) k c)
          else kidsWithout m roots (Some p) k c) ∧
  (∀ x, parentOf (blocksMap d') x
        = if decide (x = k) then Some (parentId parent) else parentOf m x) ∧
  ids_ok (blocksMap d').
Proof.
  intros Hwf Hk Hp Ht. unfold outdentBlock_txn. cbn [blocksMap rootIdsArr]. cbn zeta.
  rewrite Ht in *. clear Ht. remember (parentId parent) as cg eqn:Ecg. clear Ecg.
  pose proof (container_live _ _ _ _ Hwf Hk) as [pd Epd]. rewrite Epd.
  pose proof (container_live _ _ _ _ Hwf Hp) as Hlg.
  unfold setValueOnYMap.
  set (m1 := alter (set_childIds (without k (childIds pd))) p m).
  assert (∀ c, kids m1 roots c = kidsWithout m roots (Some p) k c) as Hk1.
  { intros c. unfold m1, kidsWithout. rewrite kids_set_childIds by eauto.
    case_decide; [subst c; simpl; by rewrite Epd | done]. }
  assert (∀ x, is_Some (m1 !! x) ↔ is_Some (m !! x)) as Hl1
    by (intros x; apply lookup_alter_is_Some).
  assert (∀ x, parentOf m1 x = parentOf m x) as Hp1
    by (intros x; by apply parentOf_alter_keep).
  assert (ids_ok m1) as Hid1 by (apply ids_ok_alter; [done | by eapply tree_wf_ids]).
  match goal with |- context [alter (set_parentId cg) k (blocksMap ?d2)] =>
    assert (d2 = withKids cg (insertAt (indexOf p (kids m1 roots cg) + 1) [k]
                                 (kids m1 roots cg))
                   {| blocksMap := m1; rootIdsArr := roots |}) as ->
  end.
  { destruct cg as [g |]; [| done]. simpl.
    destruct (proj2 (Hl1 g) Hlg) as [gd Egd]. by rewrite Egd. }
  assert (match cg with Some g => is_Some (m1 !! g) | None => True end) as Hlg1
    by (destruct cg; [by apply Hl1 | done]).
  destruct (withKids_shape m1 roots cg
              (insertAt (indexOf p (kids m1 roots cg) + 1) [k] (kids m1 roots cg)) Hlg1)
    as (Hk2 & Hp2 & Hl2 & Hid2).
  set (d2 := withKids _ _ _) in *.
  split_and!.
  - intros c. rewrite !kids_alter_keep by done. rewrite Hk2.
    case_decide; [subst c |]; by rewrite Hk1.
  - intros x. rewrite parentOf_alter_keep by done.
    rewrite parentOf_set_parentId.
    + case_decide; [done |]. by rewrite Hp2, Hp1.
    + apply Hl2, Hl1. by eapply parentOf_live.
  - repeat (apply ids_ok_alter; [done |]). by apply Hid2.
Qed.

Lemma outdentBlock_txn_wf m roots now k p parent :
  tree_wf m roots → parentOf m k = Some (Some p) →
  parentOf m p = Some (truthy (parentId parent)) →
  truthy (parentId parent) = parentId parent →
  let d' := outdentBlock_txn now k p parent {| blocksMap := m; rootIdsArr := roots |} in
  tree_wf (blocksMap d') (rootIdsArr d').
Proof.
  intros Hwf Hk Hp Ht.
  destruct (outdentBlock_txn_shape m roots now k p parent Hwf Hk Hp Ht) as (HK & HP & Hid).
  cbn zeta in *. apply tree_wf_alt. split; [done |].
  pose proof (λ c, not_elem_of_kidsWithout m roots _ k c Hwf Hk) as Hnk.
  pose proof Hwf as [_ Hsh]%tree_wf_alt.
  eapply (wf_shape_edit _ _ _ _ k (Some (parentId parent)) Hsh).
  - done.
  - intros c x Hx. rewrite HK. case_decide; [| by apply elem_of_kidsWithout].
    rewrite insertAt_indexOf_perm, elem_of_cons, elem_of_kidsWithout by done. tauto.
  - intros c. rewrite HK. specialize (Hnk c). case_decide as Hc.
    + subst c. rewrite insertAt_indexOf_perm. split; [done |]. intros _. apply list_elem_of_here.
    + split; [done | congruence].
  - intros c. rewrite HK. specialize (Hnk c).
    case_decide; [| by apply NoDup_kidsWithout].
    rewrite insertAt_indexOf_perm. apply NoDup_cons. auto using NoDup_kidsWithout.
Qed.

Lemma outdentBlock_inv now k s : store_inv s → store_inv (outdentBlock now k s).
Proof.
  intros Hinv. unfold outdentBlock.
  destruct (_doc s) as [d |] eqn:Ed; [| done].
  destruct (blocks s !! k) as [block |] eqn:Eb; [| done].
  destruct (truthy (parentId block)) as [p |] eqn:Et; [| done].
  destruct (blocks s !! p) as [parent |] eqn:Ep; [| done].
  destruct (store_inv_doc _ _ Hinv Ed) as [Hwf Hsy]. destruct Hinv as [Hwfs _].
  pose proof (parentOf_lookup _ _ _ Eb) as Hk. rewrite (synced_parentOf _ _ _ Hsy) in Hk.
  rewrite <- (truthy_parent _ _ _ _ Hwfs Eb), Et in Hk.
  pose proof (parentOf_lookup _ _ _ Ep) as Hp. rewrite (synced_parentOf _ _ _ Hsy) in Hp.
  pose proof (truthy_parent _ _ _ _ Hwfs Ep) as Ht. rewrite <- Ht in Hp.
  apply transact_inv; [done |]. destruct d as [m roots].
  by apply outdentBlock_txn_wf.
Qed.
(** *** moveBlockUp and moveBlockDown *)

(** Replacing one sequence by a rearrangement of itself. *)
Lemma withKids_perm_wf m roots c0 l f k :
  tree_wf m roots → parentOf m k = Some c0 → l ≡ₚ kids m roots c0 →
  (∀ b, shape (f b) = shape b) →
  let d1 := withKids c0 l {| blocksMap := m; rootIdsArr := roots |} in
  tree_wf (alter f k (blocksMap d1)) (rootIdsArr d1).
Proof.
  intros Hwf Hp Hperm Hf. cbn zeta.
  destruct (withKids_shape m roots c0 l (container_live _ _ _ _ Hwf Hp))
    as (Hk & Hpo & _ & Hid).
  set (d1 := withKids _ _ _) in *.
  assert (∀ b, childIds (f b) = childIds b) as Hfc by (intros b; by injection (Hf b)).
  assert (∀ b, parentId (f b) = parentId b) as Hfp by (intros b; by injection (Hf b)).
  assert (∀ b, id (f b) = id b) as Hfi by (intros b; by injection (Hf b)).
  apply tree_wf_alt.
  split; [apply ids_ok_alter; [done |]; apply Hid; by eapply tree_wf_ids |].
  pose proof Hwf as [_ [Hnd Hiff]]%tree_wf_alt. split.
  - intros c. rewrite kids_alter_keep, Hk by done. case_decide; [subst c |]; [| done].
    by rewrite Hperm.
  - intros c x. rewrite kids_alter_keep, parentOf_alter_keep, Hk, Hpo by done.
    case_decide; [subst c; rewrite Hperm |]; apply Hiff.
Qed.

Lemma moveBlockUp_txn_shape m roots now k block index :
  tree_wf m roots → parentOf m k = Some (truthy (parentId block)) →
  index = indexOf k (kids m roots (truthy (parentId block))) → ¬ (index ≤ 0)%Z →
  ∃ l1 y l2,
    kids m roots (truthy (parentId block)) = l1 ++ y :: k :: l2 ∧
    moveBlockUp_txn now k block (kids m roots (truthy (parentId block))) index
      {| blocksMap := m; rootIdsArr := roots |}
    = let d1 := withKids (truthy (parentId block)) (l1 ++ k :: y :: l2)
                  {| blocksMap := m; rootIdsArr := roots |} in
      {| blocksMap := alter (set_updatedAt now) k (blocksMap d1);
         rootIdsArr := rootIdsArr d1 |}.
Proof.
  intros Hwf Hp Hidx Hpos.
  destruct (index_positive _ _ _ Hidx Hpos) as (l1 & y & l2 & E & Hx & Hxy & Ei & Ey).
  exists l1, y, l2. split; [done |].
  unfold moveBlockUp_txn. cbn [blocksMap rootIdsArr]. rewrite Ey.
  destruct (truthy (parentId block)) as [p |]; cbn [kids] in *; simpl option_list.
  - unfold withKids, setValueOnYMap. cbn [blocksMap rootIdsArr].
    rewrite Ei, E.
    replace (Z.to_nat (Z.of_nat (S (length l1)) - 1)) with (length l1) by lia.
    rewrite Nat2Z.id, swapAt_here. done.
  - rewrite Ei, E.
    replace (Z.of_nat (S (length l1)) - 1)%Z with (Z.of_nat (length l1)) by lia.
    rewrite deleteAt_two, insertAt_here. done.
Qed.

Lemma moveBlockUp_inv now k s : store_inv s → store_inv (moveBlockUp now k s).
Proof.
  intros Hinv. unfold moveBlockUp.
  destruct (_doc s) as [d |] eqn:Ed; [| done].
  destruct (blocks s !! k) as [block |] eqn:Eb; [| done].
  case_bool_decide as Hidx; [done |].
  destruct (store_inv_doc _ _ Hinv Ed) as [Hwf Hsy]. destruct Hinv as [Hwfs _].
  pose proof (parentOf_lookup _ _ _ Eb) as Hp. rewrite (synced_parentOf _ _ _ Hsy) in Hp.
  rewrite <- (truthy_parent _ _ _ _ Hwfs Eb) in Hp.
  rewrite siblingsOf_kids, (synced_kids _ _ _ Hsy) in *.
  apply transact_inv; [done |]. destruct d as [m roots]. cbn [blocksMap rootIdsArr] in *.
  destruct (moveBlockUp_txn_shape m roots now k block _ Hwf Hp eq_refl Hidx)
    as (l1 & y & l2 & E & ->).
  apply withKids_perm_wf; try done.
  rewrite E. apply Permutation_app_head, perm_swap.
Qed.

Lemma index_not_last x l (i : Z) :
  i = indexOf x l → ¬ (i < 0)%Z → ¬ (Z.of_nat (length l) - 1 ≤ i)%Z →
  ∃ l1 y l2, l = l1 ++ x :: y :: l2 ∧ (x ∉ l1) ∧
             i = Z.of_nat (length l1) ∧ l !! Z.to_nat (i + 1) = Some y.
Proof.
  intros -> Hi Hlast.
  destruct (indexOf_nonneg x l) as (l1 & l2 & -> & Hx & E); [lia |].
  rewrite E in *. rewrite length_app in Hlast. simpl in Hlast.
  destruct l2 as [| y l2]; [simpl in Hlast; lia |].
  exists l1, y, l2. split_and!; try done.
  replace (Z.to_nat (Z.of_nat (length l1) + 1)) with (length l1 + 1) by lia.
  by rewrite lookup_app_r, Nat.add_comm, Nat.add_sub by lia.
Qed.

Lemma moveBlockDown_txn_shape m roots now k block index :
  tree_wf m roots → parentOf m k = Some (truthy (parentId block)) →
  index = indexOf k (kids m roots (truthy (parentId block))) →
  ¬ (index < 0)%Z →
  ¬ (Z.of_nat (length (kids m roots (truthy (parentId block)))) - 1 ≤ index)%Z →
  ∃ l1 y l2,
    kids m roots (truthy (parentId block)) = l1 ++ k :: y :: l2 ∧
    moveBlockDown_txn now k block (kids m roots (truthy (parentId block))) index
      {| blocksMap := m; rootIdsArr := roots |}
    = let d1 := withKids (truthy (parentId block)) (l1 ++ y :: k :: l2)
                  {| blocksMap := m; rootIdsArr := roots |} in
      {| blocksMap := alter (set_updatedAt now) k (blocksMap d1);
         rootIdsArr := rootIdsArr d1 |}.
Proof.
  intros Hwf Hp Hidx Hneg Hlast.
  destruct (index_not_last _ _ _ Hidx Hneg Hlast) as (l1 & y & l2 & E & Hx & Ei & Ey).
  exists l1, y, l2. split; [done |].
  unfold moveBlockDown_txn. cbn [blocksMap rootIdsArr]. rewrite Ey.
  destruct (truthy (parentId block)) as [p |]; cbn [kids] in *; simpl option_list.
  - unfold withKids, setValueOnYMap. cbn [blocksMap rootIdsArr].
    rewrite Ei, E.
    replace (Z.to_nat (Z.of_nat (length l1) + 1)) with (S (length l1)) by lia.
    rewrite Nat2Z.id, swapAt_here. done.
  - rewrite Ei, E. rewrite deleteAt_two, insertAt_here. done.
Qed.

Lemma moveBlockDown_inv now k s : store_inv s → store_inv (moveBlockDown now k s).
Proof.
  intros Hinv. unfold moveBlockDown.
  destruct (_doc s) as [d |] eqn:Ed; [| done].
  destruct (blocks s !! k) as [block |] eqn:Eb; [| done].
  destruct (bool_decide _ || bool_decide _) eqn:Hg; [done |].
  apply orb_false_iff in Hg as [Hneg%bool_decide_eq_false Hlast%bool_decide_eq_false].
  destruct (store_inv_doc _ _ Hinv Ed) as [Hwf Hsy]. destruct Hinv as [Hwfs _].
  pose proof (parentOf_lookup _ _ _ Eb) as Hp. rewrite (synced_parentOf _ _ _ Hsy) in Hp.
  rewrite <- (truthy_parent _ _ _ _ Hwfs Eb) in Hp.
  rewrite siblingsOf_kids, (synced_kids _ _ _ Hsy) in *.
  apply transact_inv; [done |]. destruct d as [m roots]. cbn [blocksMap rootIdsArr] in *.
  destruct (moveBlockDown_txn_shape m roots now k block _ Hwf Hp eq_refl Hneg Hlast)
    as (l1 & y & l2 & E & ->).
  apply withKids_perm_wf; try done.
  rewrite E. apply Permutation_app_head, perm_swap.
Qed.
End mutations.

(** ** The claims about the block store *)

Section claims.
Implicit Types (m : gmap string Block) (roots : list string) (c : option string)
               (s : BlockStore) (d : YDoc) (k p x : string).

Lemma step_inv o s : store_inv s → fresh s o → store_inv (step o s).
Proof.
  intros Hinv Hfr. destruct o; simpl in *.
  - destruct Hfr. by apply createBlockAfter_inv.
  - destruct Hfr. by apply createBlockInside_inv.
  - by apply deleteBlock_inv.
  - by apply indentBlock_inv.
  - by apply outdentBlock_inv.
  - by apply moveBlockUp_inv.
  - by apply moveBlockDown_inv.
Qed.

Lemma store_inv_tree_inv s :
  store_inv s →
  tree_inv_worded (blocks s) (rootIds s) ∧
  ∀ d, _doc s = Some d → tree_inv_worded (blocksMap d) (rootIdsArr d).
Proof.
  intros Hinv. split; [apply tree_inv_iff_worded, tree_wf_inv, Hinv |].
  intros d Ed. apply tree_inv_iff_worded, tree_wf_inv. by apply (store_inv_doc s d).
Qed.

(** The store before any document is attached, and the store attached to
    an empty document, are of that kind. *)
Example store_inv_initial :
  store_inv emptyStore ∧
  store_inv (initFromYDoc {| blocksMap := ∅; rootIdsArr := [] |} emptyStore).
Proof. split; apply (bool_decide_unpack _); vm_compute; reflexivity. Qed.

(** C1 (amended): from a store whose tree satisfies the §3 invariants
    and, moreover, whose sequences list only blocks that name them as
    parent, whose blocks are stored under their own non-empty ids, and whose
    snapshot mirrors the document ([store_inv]), every sequence of
    createBlockAfter, createBlockInside, deleteBlock, indentBlock,
    outdentBlock, moveBlockUp and moveBlockDown in which each created block
    gets an unused, non-empty id leaves, after every step, a store of the
    same kind; in particular the §3 invariants hold after every step, on
    the snapshot and on the document. *)
Theorem tree_invariants_preserved (s : BlockStore) (ops : list Op) :
  store_inv s → fresh_run s ops →
  Forall (λ s', store_inv s' ∧
                tree_inv_worded (blocks s') (rootIds s') ∧
                ∀ d, _doc s' = Some d → tree_inv_worded (blocksMap d) (rootIdsArr d))
         (trace s ops).
Proof.
  revert s. induction ops as [| o ops IH]; intros s Hinv Hfr; simpl; [constructor |].
  destruct Hfr as [Hfo Hfr]. pose proof (step_inv o s Hinv Hfo) as Hinv'.
  constructor; [| by apply IH].
  split; [done |]. by apply store_inv_tree_inv.
Qed.

Lemma tree_invariants_preserved_witness :
  store_inv scenarioStore ∧ fresh_run scenarioStore sampleRun ∧
  Forall (λ s', tree_inv_worded (blocks s') (rootIds s')) (trace scenarioStore sampleRun).
Proof.
  assert (store_inv scenarioStore) as Hinv
    by (apply (bool_decide_unpack _); vm_compute; reflexivity).
  assert (fresh_run scenarioStore sampleRun) as Hfr
    by (vm_compute; repeat split; discriminate).
  split_and!; [done | done |].
  eapply Forall_impl; [exact (tree_invariants_preserved scenarioStore sampleRun Hinv Hfr) |].
  intros s' (_ & H & _). exact H.
Defined.

(** C1, as stated, fails: in this store every sequence is duplicate-free
    and dangling-free, A is a root listed in the root order and B is listed
    exactly once in the [childIds] of its parent A; but the root order lists
    B too, and deleting B leaves it there, dangling. *)
Lemma deleteBlock_shared_counterexample :
  tree_inv_worded (blocks sharedStore) (rootIds sharedStore) ∧
  (∀ d, _doc sharedStore = Some d → tree_inv_worded (blocksMap d) (rootIdsArr d)) ∧
  rootIds (step (DeleteBlock "B") sharedStore) = ["A"; "B"] ∧
  blocks (step (DeleteBlock "B") sharedStore) !! "B" = None ∧
  ¬ tree_inv_worded (blocks (step (DeleteBlock "B") sharedStore))
                    (rootIds (step (DeleteBlock "B") sharedStore)).
Proof.
  split_and!.
  - apply tree_inv_iff_worded, (bool_decide_unpack _). vm_compute. reflexivity.
  - intros d [= <-]. apply tree_inv_iff_worded, (bool_decide_unpack _).
    vm_compute. reflexivity.
  - vm_compute. reflexivity.
  - vm_compute. reflexivity.
  - rewrite <- tree_inv_iff_worded.
    apply (bool_decide_eq_false_1 (tree_inv _ _)). vm_compute. reflexivity.
Qed.

(** C8: the scenario of §8. *)
Theorem moveDown_outdent_scenario (now1 now2 : Z) :
  let s1 := moveBlockDown now1 "B" scenarioStore in
  let s2 := outdentBlock now2 "C" s1 in
  rootIds scenarioStore = ["A"] ∧
  childIds <$> blocks scenarioStore !! "A" = Some ["B"; "C"] ∧
  parentId <$> blocks scenarioStore !! "B" = Some (Some "A") ∧
  parentId <$> blocks scenarioStore !! "C" = Some (Some "A") ∧
  childIds <$> blocks s1 !! "A" = Some ["C"; "B"] ∧
  childIds <$> docBlock s1 "A" = Some ["C"; "B"] ∧
  rootIds s2 = ["A"; "C"] ∧
  docRootIds s2 = Some ["A"; "C"] ∧
  childIds <$> blocks s2 !! "A" = Some ["B"] ∧
  childIds <$> docBlock s2 "A" = Some ["B"] ∧
  parentId <$> blocks s2 !! "C" = Some None ∧
  parentId <$> docBlock s2 "C" = Some None.
Proof. vm_compute. split_and!; reflexivity. Qed.

Lemma transact_doc s d : _doc (transact s d) = Some d.
Proof. done. Qed.



(** The guards of [indentBlock] and [outdentBlock], on a well-formed store. *)
Lemma indentBlock_eval now k s d c0 l1 y l2 :
  store_inv s → _doc s = Some d →
  parentOf (blocksMap d) k = Some c0 →
  kids (blocksMap d) (rootIdsArr d) c0 = l1 ++ y :: k :: l2 →
  ∃ block, truthy (parentId block) = c0 ∧
           indentBlock now k s = transact s (indentBlock_txn now k block y d).
Proof.
  intros Hinv Ed Hp Hk.
  destruct (store_inv_doc _ _ Hinv Ed) as [Hwf Hsy]. destruct Hinv as [Hwfs _].
  pose proof Hp as Hps. rewrite <- (synced_parentOf _ _ _ Hsy) in Hps.
  apply parentOf_Some in Hps as (block & Eb & Hpb).
  pose proof (truthy_parent _ _ _ _ Hwfs Eb) as Ht. rewrite Hpb in Ht.
  exists block. split; [by rewrite Hpb |].
  pose proof (tree_wf_NoDup _ _ c0 Hwf) as Hnd. rewrite Hk in Hnd.
  assert (k ∉ l1 ++ [y]) as Hnk.
  { rewrite snoc_split in Hnd. by apply NoDup_split in Hnd as [? _]. }
  assert (y ∈ kids (blocksMap d) (rootIdsArr d) c0) as Hy
    by (rewrite Hk; apply elem_of_app; right; apply list_elem_of_here).
  apply (tree_wf_listed _ _ _ _ Hwf), parentOf_live, (synced_live _ _ _ Hsy) in Hy
    as [ny Eny].
  unfold indentBlock. rewrite Ed, Eb. cbn zeta.
  rewrite siblingsOf_kids, Hpb, Ht, (synced_kids _ _ _ Hsy), Hk.
  rewrite (snoc_split l1 y), indexOf_here by done.
  rewrite length_app. simpl.
  rewrite bool_decide_eq_false_2 by lia.
  replace (Z.to_nat (Z.of_nat (length l1 + 1) - 1)) with (length l1 + 0) by lia.
  rewrite <- (snoc_split l1 y).
  rewrite lookup_app_r, Nat.add_0_r, Nat.sub_diag by lia. simpl.
  by rewrite Eny.
Qed.

Lemma outdentBlock_eval now k s d p cg :
  store_inv s → _doc s = Some d →
  parentOf (blocksMap d) k = Some (Some p) →
  parentOf (blocksMap d) p = Some cg →
  ∃ parent, parentId parent = cg ∧ truthy cg = cg ∧
            outdentBlock now k s = transact s (outdentBlock_txn now k p parent d).
Proof.
  intros Hinv Ed Hk Hp.
  destruct (store_inv_doc _ _ Hinv Ed) as [Hwf Hsy]. destruct Hinv as [Hwfs _].
  rewrite <- (synced_parentOf _ _ k Hsy) in Hk.
  rewrite <- (synced_parentOf _ _ p Hsy) in Hp.
  apply parentOf_Some in Hk as (block & Eb & Hpb).
  apply parentOf_Some in Hp as (parent & Ep & Hpp).
  pose proof (truthy_parent _ _ _ _ Hwfs Eb) as Ht. rewrite Hpb in Ht.
  pose proof (truthy_parent _ _ _ _ Hwfs Ep) as Htp. rewrite Hpp in Htp.
  exists parent. split_and!; try done.
  unfold outdentBlock. by rewrite Ed, Eb, Hpb, Ht, Ep.
Qed.

(** C5: on a well-formed store, for a block [k] that has a preceding
    sibling [y], [indentBlock] (which makes [y] the parent) followed by
    [outdentBlock] restores the parent of [k] and the sequence that held
    it; indeed every sequence and every parent pointer of the tree is as
    before, in the snapshot and in the document. *)
Theorem indent_outdent_restores (now1 now2 : Z) (k : string) (s : BlockStore)
    (c0 : option string) (l1 : list string) (y : string) (l2 : list string) :
  store_inv s →
  parentOf (blocks s) k = Some c0 →
  kids (blocks s) (rootIds s) c0 = l1 ++ y :: k :: l2 →
  let s1 := indentBlock now1 k s in
  let s2 := outdentBlock now2 k s1 in
  (∀ c, kids (blocks s2) (rootIds s2) c = kids (blocks s) (rootIds s) c) ∧
  (∀ x, parentOf (blocks s2) x = parentOf (blocks s) x) ∧
  (∀ d, _doc s = Some d →
        parentOf (blocks s1) k = Some (Some y) ∧
        ∃ d2, _doc s2 = Some d2 ∧
              (∀ c, kids (blocksMap d2) (rootIdsArr d2) c
                    = kids (blocksMap d) (rootIdsArr d) c) ∧
              (∀ x, parentOf (blocksMap d2) x = parentOf (blocksMap d) x)).
Proof.
  intros Hinv Hp Hk. cbn zeta.
  destruct (_doc s) as [d |] eqn:Ed.
  2:{ assert (indentBlock now1 k s = s) as -> by (unfold indentBlock; by rewrite Ed).
      assert (outdentBlock now2 k s = s) as -> by (unfold outdentBlock; by rewrite Ed).
      done. }
  destruct (store_inv_doc _ _ Hinv Ed) as [Hwf Hsy].
  rewrite (synced_parentOf _ _ _ Hsy) in Hp. rewrite (synced_kids _ _ _ Hsy) in Hk.
  (* the indent *)
  destruct (indentBlock_eval now1 k s d c0 l1 y l2 Hinv Ed Hp Hk) as (block & Ht & ->).
  subst c0. set (c0 := truthy (parentId block)) in *.
  assert (is_Some (blocksMap d !! y)) as Hy.
  { eapply parentOf_live, (tree_wf_listed _ _ c0 y Hwf).
    rewrite Hk. apply elem_of_app. right. apply list_elem_of_here. }
  destruct d as [m roots]. cbn [blocksMap rootIdsArr] in *.
  destruct (indentBlock_txn_shape m roots now1 k block y Hwf Hp Hy) as (HK1 & HP1 & _).
  pose proof (indentBlock_txn_wf m roots now1 k block y Hwf Hp Hy) as Hwf1.
  cbn zeta in *. fold c0 in HK1.
  destruct (transact_inv s _ (proj1 Hinv) Hwf1) as [Hinv1 Ed1].
  set (s1 := transact s _) in *.
  destruct (store_inv_doc _ _ Hinv1 Ed1) as [_ Hsy1].
  (* facts about the original sequence *)
  pose proof (tree_wf_NoDup _ _ c0 Hwf) as Hnd. rewrite Hk in Hnd.
  assert (k ≠ y) as Hky.
  { intros ->. apply NoDup_app in Hnd as (_ & _ & Hnd).
    apply NoDup_cons in Hnd as [Hnd _]. apply Hnd, list_elem_of_here. }
  assert (parentOf m y = Some c0) as Hpy.
  { apply (tree_wf_listed _ _ c0 y Hwf). rewrite Hk.
    apply elem_of_app. right. apply list_elem_of_here. }
  (* the outdent *)
  remember (indentBlock_txn now1 k block y {| blocksMap := m; rootIdsArr := roots |})
    as d1 eqn:Edd. clear Edd. destruct d1 as [m1 roots1]. cbn [blocksMap rootIdsArr] in *.
  assert (parentOf m1 k = Some (Some y)) as Hk1
    by (rewrite HP1; by rewrite decide_True).
  assert (parentOf m1 y = Some c0) as Hy1
    by (rewrite HP1; rewrite decide_False by done; done).
  destruct (outdentBlock_eval now2 k s1 _ y c0 Hinv1 Ed1 Hk1 Hy1)
    as (parent & Hpp & Htp & ->).
  assert (parentOf m1 y = Some (truthy (parentId parent))) as Hy1'
    by (by rewrite Hpp, Htp).
  assert (truthy (parentId parent) = parentId parent) as Htp' by (by rewrite Hpp).
  destruct (outdentBlock_txn_shape m1 roots1 now2 k y parent Hwf1 Hk1 Hy1' Htp')
    as (HK2 & HP2 & _).
  pose proof (outdentBlock_txn_wf m1 roots1 now2 k y parent Hwf1 Hk1 Hy1' Htp') as Hwf2.
  cbn zeta in *.
  destruct (transact_inv s1 _ (proj1 Hinv1) Hwf2) as [Hinv2 Ed2].
  destruct (store_inv_doc _ _ Hinv2 Ed2) as [_ Hsy2].
  set (d2 := outdentBlock_txn now2 k y parent _) in *.
  (* the sequences and pointers of the final document *)
  assert (∀ c, kidsWithout m1 roots1 (Some y) k c = kidsWithout m roots c0 k c) as HA.
  { intros c. unfold kidsWithout at 1. rewrite HK1.
    pose proof (not_elem_of_kidsWithout m roots c0 k c Hwf Hp) as Hn.
    case_decide as Hc.
    - unfold without. rewrite filter_app. fold (without k (kidsWithout m roots c0 k c)).
      rewrite without_absent by done.
      rewrite filter_cons_False by (by intros []). by rewrite app_nil_r.
    - by rewrite app_nil_r. }
  assert (∀ c, kids (blocksMap d2) (rootIdsArr d2) c = kids m roots c) as HKK.
  { intros c. rewrite HK2, HA, Hpp. unfold kidsWithout.
    case_decide as Hc; [| done]. subst c. rewrite Hk.
    apply NoDup_app in Hnd as (_ & Hn12 & Hnd').
    apply NoDup_cons in Hnd' as [Hyn Hnd']. apply NoDup_cons in Hnd' as [Hkn _].
    assert (k ∉ l1) as Hkl by (intros Hin; apply (Hn12 k Hin); set_solver).
    assert (y ∉ l1) as Hyl by (intros Hin; apply (Hn12 y Hin); set_solver).
    rewrite (snoc_split l1 y).
    rewrite without_here; [| set_solver | done].
    rewrite <- (snoc_split l1 y).
    rewrite indexOf_here, insertAt_after by done. by rewrite <- snoc_split. }
  assert (∀ x, parentOf (blocksMap d2) x = parentOf m x) as HPP.
  { intros x. rewrite HP2, HP1, Hpp. case_decide; [subst x; by rewrite Hp | done]. }
  split_and!.
  - intros c. by rewrite (synced_kids _ _ _ Hsy2), HKK, <- (synced_kids _ _ _ Hsy).
  - intros x. by rewrite (synced_parentOf _ _ _ Hsy2), HPP, <- (synced_parentOf _ _ _ Hsy).
  - intros d' [= <-]. split.
    + by rewrite (synced_parentOf _ _ _ Hsy1).
    + exists d2. split_and!; done.
Qed.

Lemma indent_outdent_restores_witness :
  store_inv scenarioStore ∧
  parentOf (blocks scenarioStore) "C" = Some (Some "A") ∧
  kids (blocks scenarioStore) (rootIds scenarioStore) (Some "A") = [] ++ "B" :: "C" :: [] ∧
  kids (blocks (outdentBlock 2 "C" (indentBlock 1 "C" scenarioStore)))
       (rootIds (outdentBlock 2 "C" (indentBlock 1 "C" scenarioStore))) (Some "A")
  = ["B"; "C"].
Proof.
  assert (store_inv scenarioStore) as Hinv
    by (apply (bool_decide_unpack _); vm_compute; reflexivity).
  assert (parentOf (blocks scenarioStore) "C" = Some (Some "A")) as Hp
    by (vm_compute; reflexivity).
  assert (kids (blocks scenarioStore) (rootIds scenarioStore) (Some "A")
          = [] ++ "B" :: "C" :: []) as Hk by (vm_compute; reflexivity).
  split_and!; [done | done | done |].
  rewrite (proj1 (indent_outdent_restores 1 2 "C" scenarioStore (Some "A") [] "B" []
                    Hinv Hp Hk) (Some "A")).
  exact Hk.
Defined.

(** C5, as stated, fails: in this store every sequence is duplicate-free
    and dangling-free, P and Q are roots listed in the root order, K is
    listed exactly once in the [childIds] of its parent P and Y exactly once
    in the [childIds] of its parent Q; but P lists Y too, right before K.
    [indentBlock] makes Y the parent of K, and [outdentBlock] then puts K
    after Y in the [childIds] of Q, the parent Y names: K has moved from P
    to Q, in the snapshot and in the document. *)
Lemma indent_outdent_stray_counterexample :
  tree_inv_worded (blocks strayStore) (rootIds strayStore) ∧
  (∀ d, _doc strayStore = Some d → tree_inv_worded (blocksMap d) (rootIdsArr d)) ∧
  parentOf (blocks strayStore) "K" = Some (Some "P") ∧
  kids (blocks strayStore) (rootIds strayStore) (Some "P") = ["Y"; "K"] ∧
  parentOf (blocks (indentBlock 1 "K" strayStore)) "K" = Some (Some "Y") ∧
  parentOf (blocks (outdentBlock 2 "K" (indentBlock 1 "K" strayStore))) "K"
  = Some (Some "Q") ∧
  kids (blocks (outdentBlock 2 "K" (indentBlock 1 "K" strayStore)))
       (rootIds (outdentBlock 2 "K" (indentBlock 1 "K" strayStore))) (Some "P")
  = ["Y"] ∧
  kids (blocks (outdentBlock 2 "K" (indentBlock 1 "K" strayStore)))
       (rootIds (outdentBlock 2 "K" (indentBlock 1 "K" strayStore))) (Some "Q")
  = ["Y"; "K"] ∧
  parentId <$> docBlock (outdentBlock 2 "K" (indentBlock 1 "K" strayStore)) "K"
  = Some (Some "Q") ∧
  childIds <$> docBlock (outdentBlock 2 "K" (indentBlock 1 "K" strayStore)) "P"
  = Some ["Y"].
Proof.
  split_and!; try (vm_compute; reflexivity).
  - apply tree_inv_iff_worded, (bool_decide_unpack _). vm_compute. reflexivity.
  - intros d [= <-]. apply tree_inv_iff_worded, (bool_decide_unpack _).
    vm_compute. reflexivity.
Qed.
End claims.

End BlockFacts.

(** * More facts about the pane store: what each action does to the tree *)

Module PaneLaws.
Import JsNumber Types PaneStore PaneTree PaneFacts.

Lemma findNode_None n p : findNode n p = None → p ∉ nodeIds n.
Proof.
  induction n as [l|i d r f IHf s IHs]; cbn [findNode pane_id nodeIds].
  - destruct (decide (leaf_id l = p)); [done|]. intros _ ?%list_elem_of_singleton. done.
  - destruct (decide (i = p)); [done|].
    destruct (findNode f p) eqn:Ef; [done|]. intros Es.
    rewrite elem_of_cons, elem_of_app. intros [?|[?|?]]; [done| |].
    + by apply IHf.
    + by apply IHs.
Qed.

Lemma pane_id_replaceNode n p X :
  pane_id (replaceNode n p X) = if decide (pane_id n = p) then pane_id X else pane_id n.
Proof.
  destruct n; cbn [replaceNode pane_id]; by destruct (decide _).
Qed.

(** A leaf id in a tree with distinct ids: what [findNode] returns and what
    [replaceNode] does to the leaf sequence. *)
Lemma leaf_located n p :
  NoDup (nodeIds n) → p ∈ leafIds n →
  ∃ t l1 l2,
    findNode n p = Some (Leaf t) ∧ leaf_id t = p ∧
    collectLeaves n = l1 ++ t :: l2 ∧
    ∀ X, collectLeaves (replaceNode n p X) = l1 ++ collectLeaves X ++ l2.
Proof.
  induction n as [l|i d r f IHf s IHs]; intros Hnd Hp.
  - apply list_elem_of_singleton in Hp. subst p.
    exists l, [], []. cbn [findNode pane_id collectLeaves].
    rewrite decide_True by done. split_and!; [done..|].
    intros X. cbn [replaceNode pane_id]. rewrite decide_True by done.
    by rewrite app_nil_r.
  - cbn [nodeIds] in Hnd. apply NoDup_cons in Hnd as [Hi Hnd].
    apply NoDup_app in Hnd as (Hf & Hfs & Hs).
    rewrite leafIds_split, elem_of_app in Hp.
    assert (i ≠ p) as Hip.
    { intros ->. apply Hi, elem_of_app.
      destruct Hp as [?|?]; [left|right]; by apply leafIds_nodeIds. }
    cbn [findNode pane_id collectLeaves].
    rewrite decide_False by done.
    destruct Hp as [Hp|Hp].
    + destruct (IHf Hf Hp) as (t & l1 & l2 & Hfind & Ht & Hl & Hrep).
      exists t, l1, (l2 ++ collectLeaves s). rewrite Hfind, Hl.
      split_and!; [done|done|by rewrite <- app_assoc|].
      intros X. cbn [replaceNode pane_id collectLeaves].
      rewrite decide_False by done. cbn [collectLeaves].
      rewrite Hrep, (replaceNode_absent s).
      * by rewrite <- !app_assoc.
      * apply Hfs. by apply leafIds_nodeIds.
    + assert (p ∉ nodeIds f) as Hpf.
      { intros Hin. apply (Hfs _ Hin). by apply leafIds_nodeIds. }
      destruct (IHs Hs Hp) as (t & l1 & l2 & Hfind & Ht & Hl & Hrep).
      exists t, (collectLeaves f ++ l1), l2.
      destruct (findNode f p) eqn:Ef.
      { by apply findNode_nodeIds in Ef. }
      rewrite Hfind, Hl. split_and!; [done|done|by rewrite <- app_assoc|].
      intros X. cbn [replaceNode pane_id collectLeaves].
      rewrite decide_False by done. cbn [collectLeaves].
      rewrite Hrep, (replaceNode_absent f) by done.
      by rewrite <- !app_assoc.
Qed.

Lemma findNode_not_leaf n p t : p ∉ leafIds n → findNode n p ≠ Some (Leaf t).
Proof. intros Hp Hfind. by apply findNode_leaf in Hfind as [_ ?]. Qed.

(** Putting back the node [findNode] returned changes nothing. *)
Lemma replaceNode_self n p q :
  NoDup (nodeIds n) → findNode n p = Some q → replaceNode n p q = n.
Proof.
  induction n as [l|i d r f IHf s IHs]; cbn [findNode replaceNode pane_id nodeIds].
  - destruct (decide (leaf_id l = p)); [|done]. by intros _ [= <-].
  - destruct (decide (i = p)); [by intros _ [= <-]|].
    intros [Hi (Hf & Hfs & Hs)%NoDup_app]%NoDup_cons.
    destruct (findNode f p) eqn:Ef.
    + intros [= <-]. rewrite IHf by done.
      rewrite (replaceNode_absent s); [done|].
      apply Hfs. by eapply findNode_nodeIds.
    + intros Es. apply findNode_None in Ef.
      rewrite (replaceNode_absent f) by done. by rewrite IHs.
Qed.

(** Replacing what was just put in place of [p]. *)
Lemma replaceNode_twice n p X Y :
  pane_id X ∉ nodeIds n →
  replaceNode (replaceNode n p X) (pane_id X) Y = replaceNode n p Y.
Proof.
  induction n as [l|i d r f IHf s IHs]; cbn [nodeIds]; intros Hx.
  - cbn [replaceNode pane_id]. destruct (decide (leaf_id l = p)).
    + destruct X; cbn [replaceNode pane_id]; by rewrite decide_True.
    + cbn [replaceNode pane_id]. rewrite decide_False; [done|].
      intros Heq. apply Hx. rewrite Heq. apply list_elem_of_here.
  - apply not_elem_of_cons in Hx as [Hxi Hx].
    apply not_elem_of_app in Hx as [Hxf Hxs].
    cbn [replaceNode pane_id]. destruct (decide (i = p)).
    + destruct X; cbn [replaceNode pane_id]; by rewrite decide_True.
    + cbn [replaceNode pane_id]. rewrite decide_False by done.
      by rewrite IHf, IHs.
Qed.

(** The parent of a child of the node that replaced [p]. *)
Lemma findParent_replaced n p i d r a b c :
  p ∈ nodeIds n → c ∉ nodeIds n → c ≠ i →
  pane_id a = c ∨ pane_id b = c →
  findParent (replaceNode n p (Split i d r a b)) c = Some (Split i d r a b).
Proof.
  intros Hp Hc Hci Hab.
  assert (findParent (Split i d r a b) c = Some (Split i d r a b)) as Hhere.
  { cbn [findParent].
    destruct Hab as [<-|<-].
    - by rewrite (bool_decide_eq_true_2 (pane_id a = pane_id a)).
    - by rewrite (bool_decide_eq_true_2 (pane_id b = pane_id b)), orb_true_r. }
  induction n as [l|j dj rj f IHf s IHs]; cbn [nodeIds] in *.
  - apply list_elem_of_singleton in Hp. subst p.
    cbn [replaceNode pane_id]. by rewrite decide_True.
  - apply not_elem_of_cons in Hc as [Hcj Hc].
    apply not_elem_of_app in Hc as [Hcf Hcs].
    cbn [replaceNode pane_id]. destruct (decide (j = p)); [done|].
    cbn [findParent]. rewrite !pane_id_replaceNode. cbn [pane_id].
    assert (c ≠ pane_id f) as Hf1 by (intros ->; apply Hcf, pane_id_nodeIds).
    assert (c ≠ pane_id s) as Hs1 by (intros ->; apply Hcs, pane_id_nodeIds).
    rewrite !bool_decide_eq_false_2; cycle 1.
    { destruct (decide (pane_id s = p)); congruence. }
    { destruct (decide (pane_id f = p)); congruence. }
    cbn [orb].
    apply elem_of_cons in Hp as [->|Hp]; [done|].
    destruct (decide (p ∈ nodeIds f)) as [Hpf|Hpf].
    + by rewrite IHf.
    + rewrite (replaceNode_absent f) by done.
      rewrite (findParent_absent f) by done.
      apply elem_of_app in Hp as [?|Hp]; [done|]. by apply IHs.
Qed.

Lemma prefixed_ne (u1 u2 : string) : "pane-" +:+ u1 ≠ "split-" +:+ u2.
Proof. done. Qed.

(** What [splitPane] computes on a leaf of a tree with distinct ids. *)
Lemma splitPane_eval u1 u2 p d s :
  NoDup (nodeIds (root (layout s))) → p ∈ leafIds (root (layout s)) →
  ∃ t l1 l2,
    findNode (root (layout s)) p = Some (Leaf t) ∧ leaf_id t = p ∧
    collectLeaves (root (layout s)) = l1 ++ t :: l2 ∧
    let newPane := createPaneLeaf ("pane-" +:+ u1) (rootBlockId t) in
    let split := createPaneSplit ("split-" +:+ u2) d (Leaf t) (Leaf newPane) in
    collectLeaves (replaceNode (root (layout s)) p split) = l1 ++ t :: newPane :: l2 ∧
    splitPane u1 u2 p d s
    = {| layout := {| root := replaceNode (root (layout s)) p split;
                      activePaneId := "pane-" +:+ u1 |};
         collapsedBlocks := collapsedBlocks s |}.
Proof.
  intros Hnd Hp.
  destruct (leaf_located _ _ Hnd Hp) as (t & l1 & l2 & Hfind & Ht & Hl & Hrep).
  exists t, l1, l2. split_and!; [done..|]. cbn zeta. split.
  - by rewrite Hrep.
  - unfold splitPane. by rewrite Hfind.
Qed.

(** X1. [splitPane] on anything but a leaf id changes nothing; on a leaf it
    puts a new leaf right after the target in the leaf order, showing the
    same root block, and makes it the active pane. *)
Theorem splitPane_spec (u1 u2 p : string) (d : SplitDirection) (s : PaneStore) :
  (p ∉ leafIds (root (layout s)) → splitPane u1 u2 p d s = s) ∧
  (NoDup (nodeIds (root (layout s))) → p ∈ leafIds (root (layout s)) →
   ∃ t l1 l2,
     leaf_id t = p ∧
     collectLeaves (root (layout s)) = l1 ++ t :: l2 ∧
     collectLeaves (root (layout (splitPane u1 u2 p d s)))
     = l1 ++ t :: createPaneLeaf ("pane-" +:+ u1) (rootBlockId t) :: l2 ∧
     leafCount (root (layout (splitPane u1 u2 p d s))) = S (leafCount (root (layout s))) ∧
     activePaneId (layout (splitPane u1 u2 p d s)) = "pane-" +:+ u1 ∧
     collapsedBlocks (splitPane u1 u2 p d s) = collapsedBlocks s).
Proof.
  split.
  - intros Hp. unfold splitPane.
    destruct (findNode (root (layout s)) p) as [[t|]|] eqn:Hfind; [|done..].
    by apply findNode_not_leaf in Hfind.
  - intros Hnd Hp.
    destruct (splitPane_eval u1 u2 p d s Hnd Hp)
      as (t & l1 & l2 & Hfind & Ht & Hl & Hl' & ->).
    exists t, l1, l2. cbn [layout root activePaneId collapsedBlocks].
    split_and!; [done..| |done|done].
    unfold leafCount. rewrite Hl', Hl, !length_app. simpl. lia.
Qed.

Lemma splitPane_spec_witness :
  NoDup (nodeIds (root (layout twoPanes))) ∧
  "pane-1" ∈ leafIds (root (layout twoPanes)) ∧
  leafCount (root (layout (splitPane "0000000c" "0000000d" "pane-1" vertical twoPanes))) = 3.
Proof.
  assert (NoDup (nodeIds (root (layout twoPanes)))) as Hnd
    by (apply (bool_decide_unpack _); vm_compute; reflexivity).
  assert ("pane-1" ∈ leafIds (root (layout twoPanes))) as Hp
    by (apply (bool_decide_unpack _); vm_compute; reflexivity).
  split_and!; [done..|].
  destruct (proj2 (splitPane_spec "0000000c" "0000000d" "pane-1" vertical twoPanes) Hnd Hp)
    as (t & l1 & l2 & _ & _ & _ & Hcount & _).
  rewrite Hcount. vm_compute. reflexivity.
Defined.

(** X2. Closing the pane a split just created gives back the tree as it
    was before the split; the active pane is then the first leaf of the
    tree, whichever pane was split. *)
Theorem splitPane_closePane (u1 u2 p : string) (d : SplitDirection) (s : PaneStore) :
  distinct_ids (root (layout s)) → p ∈ leafIds (root (layout s)) →
  ("pane-" +:+ u1) ∉ nodeIds (root (layout s)) →
  ("split-" +:+ u2) ∉ nodeIds (root (layout s)) →
  let s' := closePane ("pane-" +:+ u1) (splitPane u1 u2 p d s) in
  root (layout s') = root (layout s) ∧
  head (leafIds (root (layout s))) = Some (activePaneId (layout s')) ∧
  collapsedBlocks s' = collapsedBlocks s.
Proof.
  intros [Hnd Hne] Hp Hu1 Hu2.
  destruct (splitPane_eval u1 u2 p d s Hnd Hp)
    as (t & l1 & l2 & Hfind & Ht & Hl & Hl' & Heq).
  cbn zeta in Hl', Heq |- *. rewrite Heq. clear Heq.
  unfold createPaneSplit in *.
  set (X := Split ("split-" +:+ u2) d (Finite (1 # 2)) (Leaf t)
              (Leaf (createPaneLeaf ("pane-" +:+ u1) (rootBlockId t)))) in *.
  assert (closePane ("pane-" +:+ u1)
            {| layout := {| root := replaceNode (root (layout s)) p X;
                            activePaneId := "pane-" +:+ u1 |};
               collapsedBlocks := collapsedBlocks s |}
          = {| layout := {| root := root (layout s);
                            activePaneId :=
                              firstLeafIdOr (collectLeaves (root (layout s))) initialPaneId |};
               collapsedBlocks := collapsedBlocks s |}) as ->.
  { unfold closePane. cbn [layout root activePaneId collapsedBlocks].
    rewrite bool_decide_eq_false_2; cycle 1.
    { rewrite Hl', length_app. simpl. lia. }
    unfold X at 1.
    rewrite (findParent_replaced _ p _ _ _ _ _ ("pane-" +:+ u1)); cycle 1.
    { by apply leafIds_nodeIds. }
    { done. }
    { apply prefixed_ne. }
    { by right. }
    cbn [pane_id]. rewrite (decide_False (P := leaf_id t = _)); cycle 1.
    { rewrite Ht. intros ->. by apply Hu1, leafIds_nodeIds. }
    rewrite decide_True by done.
    change ("split-" +:+ u2) with (pane_id X) at 1 2.
    rewrite replaceNode_twice by done.
    by rewrite replaceNode_self. }
  cbn [layout root activePaneId collapsedBlocks].
  split_and!; [done| |done].
  unfold leafIds. apply firstLeafIdOr_head; [|done].
  rewrite Hl. by destruct l1.
Qed.

Lemma splitPane_closePane_witness :
  distinct_ids (root (layout twoPanes)) ∧
  root (layout (closePane "pane-0000000c"
                  (splitPane "0000000c" "0000000d" "pane-0000000a" vertical twoPanes)))
  = root (layout twoPanes).
Proof.
  assert (distinct_ids (root (layout twoPanes))) as Hd
    by (apply (bool_decide_unpack _); vm_compute; reflexivity).
  split; [done|].
  apply (splitPane_closePane "0000000c" "0000000d" "pane-0000000a" vertical twoPanes Hd);
    apply (bool_decide_unpack _); vm_compute; reflexivity.
Defined.

(** ** Ratios *)

Lemma clampRatio_ok r : r ≠ NaN → ratio_ok (clampRatio r).
Proof.
  intros Hr. destruct r as [| |q|]; [done|by vm_compute| |by vm_compute].
  unfold clampRatio. cbn [Math_min Math_max ratio_ok]. split.
  - apply Q.le_max_l.
  - apply Q.max_lub; [done|apply Q.le_min_l].
Qed.

Lemma clampRatio_NaN : clampRatio NaN = NaN.
Proof. reflexivity. Qed.

Lemma ratios_ok_split i d r f s :
  ratios_ok (Split i d r f s) ↔ ratio_ok r ∧ ratios_ok f ∧ ratios_ok s.
Proof.
  unfold ratios_ok. cbn [ratios]. by rewrite Forall_cons, Forall_app.
Qed.

Lemma ratios_ok_replaceNode n p X :
  ratios_ok n → ratios_ok X → ratios_ok (replaceNode n p X).
Proof.
  intros Hn HX. induction n as [l|i d r f IHf s IHs]; cbn [replaceNode pane_id].
  - by destruct (decide _).
  - destruct (decide _); [done|].
    apply ratios_ok_split in Hn as (? & ? & ?).
    apply ratios_ok_split. auto.
Qed.

Lemma ratios_ok_findParent n p q : ratios_ok n → findParent n p = Some q → ratios_ok q.
Proof.
  induction n as [l|i d r f IHf s IHs]; cbn [findParent]; [done|].
  intros Hn. destruct (_ || _); [by intros [= <-]|].
  apply ratios_ok_split in Hn as (? & ? & ?).
  destruct (findParent f p) eqn:Ef; [intros [= <-]; by apply IHf|]. by apply IHs.
Qed.

Lemma ratios_ok_updateRatio i r n :
  r ≠ NaN → ratios_ok n → ratios_ok (updateRatio i r n).
Proof.
  intros Hr. induction n as [l|j d r0 f IHf s IHs]; cbn [updateRatio]; [done|].
  intros (? & ? & ?)%ratios_ok_split.
  destruct (decide _); apply ratios_ok_split; auto using clampRatio_ok.
Qed.

(** [setRatio] with NaN reaches the split [findNode] returns. *)
Lemma ratios_updateRatio_NaN i n j d r f sn :
  findNode n i = Some (Split j d r f sn) → NaN ∈ ratios (updateRatio i NaN n).
Proof.
  induction n as [l|k e r0 f0 IHf s0 IHs]; cbn [findNode updateRatio pane_id].
  - by destruct (decide _).
  - destruct (decide (k = i)) as [->|Hk]; cbn [ratios].
    + intros _. rewrite clampRatio_NaN. apply list_elem_of_here.
    + intros Hfind. apply list_elem_of_further, elem_of_app.
      destruct (findNode f0 i) eqn:Ef; [left; by apply IHf|right; by apply IHs].
Qed.

Lemma ratios_updatePaneRoot p b n : ratios (updatePaneRoot p b n) = ratios n.
Proof.
  induction n as [l|j d r0 f IHf s IHs]; cbn [updatePaneRoot ratios].
  - by destruct (decide _).
  - by rewrite IHf, IHs.
Qed.

Lemma ratios_ok_step a s :
  numeric a → ratios_ok (root (layout s)) → ratios_ok (root (layout (step a s))).
Proof.
  intros Hnum Hok. destruct a as [p|u1 u2 p d|p|i r|p b|p b]; cbn [step]; [done| | | | |done].
  - unfold splitPane.
    destruct (findNode (root (layout s)) p) as [[t|]|]; [|done..].
    cbn [layout root]. apply ratios_ok_replaceNode; [done|].
    unfold createPaneSplit. apply ratios_ok_split.
    split_and!; [|by apply Forall_nil_2..].
    unfold ratio_ok. split; by vm_compute.
  - unfold closePane. destruct (bool_decide _); [done|].
    destruct (findParent (root (layout s)) p) as [[|pid d r f sn]|] eqn:Hpar; [done| |done].
    cbn [layout root]. apply ratios_ok_findParent in Hpar; [|done].
    apply ratios_ok_split in Hpar as (? & ? & ?).
    apply ratios_ok_replaceNode; [done|]. by destruct (decide _).
  - apply ratios_ok_updateRatio; [|done]. intros ->. exact Hnum.
  - cbn [setPaneRoot layout root]. unfold ratios_ok. by rewrite ratios_updatePaneRoot.
Qed.

Lemma ratios_ok_run acts s :
  Forall numeric acts → ratios_ok (root (layout s)) → ratios_ok (root (layout (run acts s))).
Proof.
  intros Hnum. revert s. induction Hnum as [|a acts Ha _ IH]; intros s Hok; [done|].
  cbn [run foldl]. apply IH. by apply ratios_ok_step.
Qed.

(** X3. Along actions that never hand NaN to [setRatio], every split ratio
    is a number within [[0.1, 0.9]]: a split is created at 0.5, [setRatio]
    clamps its argument (the infinities included), and no other action
    writes a ratio.  The clamp lets NaN through: in the state reached, one
    [setRatio (i, NaN)] on a split that [findNode] returns for [i] stores
    NaN as a ratio, which is outside the range. *)
Theorem ratios_within_bounds (acts : list Action) (s : PaneStore) :
  ratios_ok (root (layout s)) →
  Forall numeric acts →
  let s' := run acts s in
  ratios_ok (root (layout s')) ∧
  (∀ i j d r f sn,
     findNode (root (layout s')) i = Some (Split j d r f sn) →
     NaN ∈ ratios (root (layout (setRatio i NaN s'))) ∧
     ¬ ratios_ok (root (layout (setRatio i NaN s')))).
Proof.
  intros Hok Hnum s'. split; [by apply ratios_ok_run|].
  intros i j d r f sn Hfind.
  assert (NaN ∈ ratios (root (layout (setRatio i NaN s')))) as Hin
    by (cbn [setRatio layout root]; by eapply ratios_updateRatio_NaN).
  split; [done|]. intros Hall.
  unfold ratios_ok in Hall. rewrite Forall_forall in Hall. exact (Hall _ Hin).
Qed.

Lemma ratios_within_bounds_witness :
  ratios_ok (root (layout initialStore)) ∧
  Forall numeric resizeRun ∧
  ratios (root (layout (run resizeRun initialStore))) = [Finite (9 # 10)] ∧
  ratios_ok (root (layout (run resizeRun initialStore))) ∧
  ¬ ratios_ok (root (layout (setRatio "split-0000000b" NaN (run resizeRun initialStore)))).
Proof.
  assert (ratios_ok (root (layout initialStore))) as H0 by apply Forall_nil_2.
  assert (Forall numeric resizeRun) as H1 by (repeat constructor).
  split; [done|]. split; [done|]. split; [vm_compute; reflexivity|].
  destruct (ratios_within_bounds resizeRun initialStore H0 H1) as [Hok Hnan].
  split; [exact Hok|].
  eapply Hnan. vm_compute. reflexivity.
Defined.

(** ** Readers *)

Lemma pane_id_updatePaneRoot p b n : pane_id (updatePaneRoot p b n) = pane_id n.
Proof. destruct n; cbn [updatePaneRoot pane_id]; [by destruct (decide _)|done]. Qed.

Lemma findNode_updatePaneRoot p b n q :
  findNode (updatePaneRoot p b n) q = updatePaneRoot p b <$> findNode n q.
Proof.
  induction n as [l|j d r0 f IHf s IHs].
  - cbn [updatePaneRoot findNode pane_id].
    destruct (decide (leaf_id l = p)); cbn [findNode pane_id leaf_id];
      destruct (decide (leaf_id l = q));
      cbn [fmap option_fmap option_map updatePaneRoot]; [|done| |done].
    + by rewrite decide_True.
    + by rewrite decide_False.
  - cbn [updatePaneRoot findNode pane_id]. destruct (decide (j = q)); [done|].
    rewrite IHf. destruct (findNode f q); [done|]. by rewrite IHs.
Qed.

(** X4. [setPaneRoot] rewrites the root block of the pane it names and
    nothing else: any pane looked up afterwards is the pane as it was, with
    [rootBlockId] replaced when its id is [paneId]; the active pane and the
    collapse overlay are as before. *)
Theorem getPane_setPaneRoot (s : PaneStore) (p b q : string) :
  getPane (setPaneRoot p b s) q = withRoot p b <$> getPane s q ∧
  leafIds (root (layout (setPaneRoot p b s))) = leafIds (root (layout s)) ∧
  activePaneId (layout (setPaneRoot p b s)) = activePaneId (layout s) ∧
  collapsedBlocks (setPaneRoot p b s) = collapsedBlocks s.
Proof.
  split_and!; [|apply updatePaneRoot_leafIds|done..].
  unfold getPane, setPaneRoot. cbn [layout root].
  rewrite findNode_updatePaneRoot.
  destruct (findNode (root (layout s)) q) as [[l|]|]; [|done..].
  cbn [fmap option_fmap option_map updatePaneRoot]. unfold withRoot.
  by destruct (decide _).
Qed.

(** X5. The two readers agree: a pane [getPane] returns carries the id asked
    for and is one of [getAllLeafPanes]; with distinct ids, every pane of
    [getAllLeafPanes] is what [getPane] returns for its id. *)
Theorem getPane_getAllLeafPanes (s : PaneStore) :
  (∀ p l, getPane s p = Some l → leaf_id l = p ∧ l ∈ getAllLeafPanes s) ∧
  (NoDup (nodeIds (root (layout s))) →
   ∀ l, l ∈ getAllLeafPanes s → getPane s (leaf_id l) = Some l).
Proof.
  unfold getPane, getAllLeafPanes. split.
  - intros p l Hget.
    destruct (findNode (root (layout s)) p) as [[t|]|] eqn:Hfind; [|done..].
    injection Hget as ->. split; [by apply findNode_leaf in Hfind as [? _]|].
    clear -Hfind. induction (root (layout s)) as [l0|i d r f IHf sn IHs].
    + cbn [findNode pane_id] in Hfind. destruct (decide _); [|done].
      injection Hfind as ->. apply list_elem_of_here.
    + cbn [findNode pane_id collectLeaves] in *. destruct (decide _); [done|].
      apply elem_of_app. destruct (findNode f p); [left|right]; auto.
  - intros Hnd l Hl.
    assert (leaf_id l ∈ leafIds (root (layout s))) as Hid by by apply list_elem_of_fmap_2.
    destruct (leaf_located _ _ Hnd Hid) as (t & l1 & l2 & Hfind & Ht & Hsplit & _).
    rewrite Hfind. f_equal.
    assert (NoDup (leafIds (root (layout s)))) as Hndl.
    { clear -Hnd. induction (root (layout s)) as [l0|i d r f IHf sn IHs].
      - apply NoDup_singleton.
      - cbn [nodeIds] in Hnd. apply NoDup_cons in Hnd as [_ Hnd].
        apply NoDup_app in Hnd as (Hf & Hfs & Hsn). rewrite leafIds_split.
        apply NoDup_app. split_and!; [auto| |auto].
        intros x Hx Hx'. apply (Hfs x); by apply leafIds_nodeIds. }
    unfold leafIds in Hndl. rewrite Hsplit in Hl, Hndl.
    rewrite fmap_app, fmap_cons in Hndl.
    apply NoDup_app in Hndl as (_ & H1 & [H2 _]%NoDup_cons).
    apply elem_of_app in Hl as [Hl|Hl].
    + exfalso. apply (H1 (leaf_id l)); [by apply list_elem_of_fmap_2|].
      rewrite Ht. apply list_elem_of_here.
    + apply elem_of_cons in Hl as [->|Hl]; [done|].
      exfalso. apply H2. rewrite Ht. by apply list_elem_of_fmap_2.
Qed.

Lemma getPane_getAllLeafPanes_witness :
  NoDup (nodeIds (root (layout twoPanes))) ∧
  getPane twoPanes "pane-0000000a" = Some (createPaneLeaf "pane-0000000a" "root").
Proof.
  assert (NoDup (nodeIds (root (layout twoPanes)))) as Hnd
    by (apply (bool_decide_unpack _); vm_compute; reflexivity).
  split; [done|].
  apply (proj2 (getPane_getAllLeafPanes twoPanes) Hnd (createPaneLeaf "pane-0000000a" "root")).
  vm_compute. apply list_elem_of_further, list_elem_of_here.
Defined.

(** X6. One toggle flips the answer of [isCollapsed] for that pane and block,
    whatever the block's own flag, and leaves every other answer and the
    layout as they were. *)
Theorem toggleCollapsed_flips_one (s : PaneStore) (p b p' b' : string) (dflt : bool) :
  isCollapsed (toggleCollapsed p b s) p' b' dflt
  = (if decide (p' = p ∧ b' = b) then negb (isCollapsed s p b dflt)
     else isCollapsed s p' b' dflt) ∧
  layout (toggleCollapsed p b s) = layout s.
Proof.
  split; [|done]. unfold isCollapsed, toggleCollapsed. cbn [collapsedBlocks].
  destruct (decide (p' = p ∧ b' = b)) as [[-> ->]|Hne].
  - rewrite lookup_insert_eq.
    destruct (collapsedBlocks s !! p) as [S0|]; cbn [default];
      repeat case_decide; try done; try (by destruct dflt); set_solver.
  - destruct (decide (p' = p)) as [->|Hp].
    + assert (b' ≠ b) by naive_solver. rewrite lookup_insert_eq.
      destruct (collapsedBlocks s !! p) as [S0|]; cbn [default];
        repeat case_decide; try done; set_solver.
    + by rewrite lookup_insert_ne.
Qed.

End PaneLaws.

(** * The user interface calls the pane store with arguments that keep the
      layout sound *)

Module AppFacts.
Import Types PaneStore PaneFacts.





Import App.




End AppFacts.

(** * More facts about trimming and the shell command *)

Module ExecutorLaws.
Import JsString Types Executor.

Implicit Types (s w : jsstring) (c : N).

Lemma trimStart_length s : length (trimStart s) ≤ length s.
Proof. induction s as [|c s IH]; simpl; [done|]. destruct (isWhiteSpace c); simpl; lia. Qed.

Lemma trimStart_idem s : trimStart (trimStart s) = trimStart s.
Proof.
  induction s as [|c s IH]; simpl; [done|].
  destruct (isWhiteSpace c) eqn:E; [done|]. simpl. by rewrite E.
Qed.

Lemma trimStart_head c s : trimStart (c :: s) = c :: s → isWhiteSpace c = false.
Proof.
  simpl. destruct (isWhiteSpace c); [|done]. intros Heq.
  pose proof (trimStart_length s) as Hlen. rewrite Heq in Hlen. simpl in Hlen. lia.
Qed.

Lemma trimStart_ws w : Forall (λ c, isWhiteSpace c = true) w → trimStart w = [].
Proof. induction 1 as [|c w Hc _ IH]; simpl; [done|]. by rewrite Hc. Qed.

Lemma trimStart_app_ws w s :
  Forall (λ c, isWhiteSpace c = true) w → trimStart (w ++ s) = trimStart s.
Proof. induction 1 as [|c w Hc _ IH]; simpl; [done|]. by rewrite Hc. Qed.

Lemma trimStart_split s :
  ∃ w, s = w ++ trimStart s ∧ Forall (λ c, isWhiteSpace c = true) w.
Proof.
  induction s as [|c s (w & Hs & Hw)]; simpl; [by exists []|].
  destruct (isWhiteSpace c) eqn:E.
  - exists (c :: w). split; [by rewrite Hs at 1|by constructor].
  - by exists [].
Qed.

Lemma trimStart_app s w :
  Forall (λ c, isWhiteSpace c = true) w →
  trimStart (s ++ w) = if decide (trimStart s = []) then [] else trimStart s ++ w.
Proof.
  intros Hw. induction s as [|c s IH]; simpl.
  - by rewrite trimStart_ws.
  - destruct (isWhiteSpace c); [done|]. by rewrite decide_False.
Qed.

Lemma trimEnd_nil : trimEnd [] = [].
Proof. done. Qed.

Lemma trimEnd_app_ws s w :
  Forall (λ c, isWhiteSpace c = true) w → trimEnd (s ++ w) = trimEnd s.
Proof.
  intros Hw. unfold trimEnd. rewrite reverse_app, trimStart_app_ws; [done|].
  by apply Forall_reverse.
Qed.

Lemma trimEnd_split s :
  ∃ w, s = trimEnd s ++ w ∧ Forall (λ c, isWhiteSpace c = true) w.
Proof.
  destruct (trimStart_split (reverse s)) as (w & Hs & Hw).
  exists (reverse w). split; [|by apply Forall_reverse].
  unfold trimEnd. rewrite <- reverse_app, <- Hs. by rewrite reverse_involutive.
Qed.

Lemma trimEnd_idem s : trimEnd (trimEnd s) = trimEnd s.
Proof. unfold trimEnd. by rewrite reverse_involutive, trimStart_idem. Qed.

(** Trimming the end does not expose leading white space. *)
Lemma trimStart_trimEnd s : trimStart s = s → trimStart (trimEnd s) = trimEnd s.
Proof.
  intros Hs. destruct (trimEnd_split s) as (w & Heq & Hw).
  destruct (trimEnd s) as [|c r]; [done|].
  rewrite Heq in Hs. simpl in Hs |- *.
  apply (trimStart_head c (r ++ w)) in Hs. by rewrite Hs.
Qed.

Lemma trim_idem s : trim (trim s) = trim s.
Proof.
  unfold trim. rewrite trimStart_trimEnd by apply trimStart_idem. apply trimEnd_idem.
Qed.

(** White space around a string does not survive [trim]. *)
Lemma trim_ws w1 s w2 :
  Forall (λ c, isWhiteSpace c = true) w1 → Forall (λ c, isWhiteSpace c = true) w2 →
  trim (w1 ++ s ++ w2) = trim s.
Proof.
  intros H1 H2. unfold trim. rewrite trimStart_app_ws by done.
  rewrite trimStart_app by done. destruct (decide (trimStart s = [])) as [->|]; [done|].
  by apply trimEnd_app_ws.
Qed.

Lemma isWhiteSpace_normalizeUnit c : isWhiteSpace (normalizeUnit c) = isWhiteSpace c.
Proof.
  unfold normalizeUnit.
  repeat match goal with
         | |- context [(c =? ?k)%N] =>
             destruct (N.eqb_spec c k) as [->|?]; [by vm_compute|]
         end.
  done.
Qed.

Lemma normalizeUnit_idem c : normalizeUnit (normalizeUnit c) = normalizeUnit c.
Proof.
  unfold normalizeUnit at 2 3.
  repeat match goal with
         | |- context [(c =? ?k)%N] =>
             destruct (N.eqb_spec c k) as [->|?]; [by vm_compute|]
         end.
  cbn [orb]. unfold normalizeUnit.
  repeat match goal with
         | |- context [(c =? ?k)%N] =>
             destruct (N.eqb_spec c k) as [->|?]; [done|]
         end.
  done.
Qed.

Lemma normalizeQuotes_idem s : normalizeQuotes (normalizeQuotes s) = normalizeQuotes s.
Proof.
  unfold normalizeQuotes. rewrite <- list_fmap_compose. apply list_fmap_ext.
  intros _ c _. apply normalizeUnit_idem.
Qed.

Lemma trimStart_normalizeQuotes s :
  trimStart (normalizeQuotes s) = normalizeQuotes (trimStart s).
Proof.
  induction s as [|c s IH]; [done|]. unfold normalizeQuotes in *.
  rewrite fmap_cons. cbn [trimStart]. rewrite isWhiteSpace_normalizeUnit.
  destruct (isWhiteSpace c); [done|]. by rewrite fmap_cons.
Qed.

Lemma trim_normalizeQuotes s : trim (normalizeQuotes s) = normalizeQuotes (trim s).
Proof.
  unfold trim, trimEnd. rewrite trimStart_normalizeQuotes.
  unfold normalizeQuotes at 1. rewrite <- fmap_reverse.
  fold (normalizeQuotes (reverse (trimStart s))).
  rewrite trimStart_normalizeQuotes. unfold normalizeQuotes. by rewrite fmap_reverse.
Qed.

(** X9. The command [extractShellCommand] hands to the shell is never
    empty, carries no white space at either end, and is left as it is by a
    second [normalizeQuotes]. *)
Theorem extractShellCommand_clean (content cmd : jsstring) :
  extractShellCommand content = Some cmd →
  cmd ≠ [] ∧ trim cmd = cmd ∧ normalizeQuotes cmd = cmd.
Proof.
  unfold extractShellCommand.
  set (command := if startsWith _ _ then _ else _).
  assert (∀ x, command = Some x → trim x = x) as Htrim.
  { intros x. unfold command, slice.
    destruct (startsWith _ _); [intros [= <-]; apply trim_idem|].
    destruct (startsWith _ _); [intros [= <-]; apply trim_idem|done]. }
  destruct command as [[|c cs]|]; [done| |done].
  intros Heq. apply (inj Some) in Heq. subst cmd. split_and!.
  - done.
  - rewrite trim_normalizeQuotes. by rewrite Htrim.
  - apply normalizeQuotes_idem.
Qed.

Lemma extractShellCommand_clean_witness :
  extractShellCommand (lsContent 0x2013) = Some (lit "ls -la") ∧
  trim (lit "ls -la") = lit "ls -la".
Proof.
  assert (extractShellCommand (lsContent 0x2013) = Some (lit "ls -la")) as H
    by (vm_compute; reflexivity).
  split; [done|]. apply (extractShellCommand_clean _ _ H).
Defined.

(** X10. White space before and after the content changes neither the
    type of the block nor the command extracted from it. *)
Theorem surrounding_whitespace_ignored (w1 content w2 : jsstring) :
  Forall (λ c, isWhiteSpace c = true) w1 → Forall (λ c, isWhiteSpace c = true) w2 →
  parseBlockType (w1 ++ content ++ w2) = parseBlockType content ∧
  extractShellCommand (w1 ++ content ++ w2) = extractShellCommand content ∧
  isExecutableShellBlock (w1 ++ content ++ w2) = isExecutableShellBlock content.
Proof.
  intros H1 H2.
  unfold isExecutableShellBlock, extractShellCommand, parseBlockType.
  by rewrite !trim_ws.
Qed.

Lemma surrounding_whitespace_ignored_witness :
  Forall (λ c, isWhiteSpace c = true) (lit "  ") ∧
  extractShellCommand (lit "  " ++ lit "sh:: ls" ++ [10%N]) = Some (lit "ls").
Proof.
  assert (Forall (λ c, isWhiteSpace c = true) (lit "  ")) as H1
    by (repeat constructor).
  assert (Forall (λ c, isWhiteSpace c = true) [10%N]) as H2
    by (repeat constructor).
  split; [done|].
  rewrite (proj1 (proj2 (surrounding_whitespace_ignored _ (lit "sh:: ls") _ H1 H2))).
  vm_compute. reflexivity.
Defined.

End ExecutorLaws.

(** * Debouncing: how many pushes reach the backend *)

Module SyncLoopFacts.
Import SyncedYDoc SyncLoop.

Lemma clearTimeout_one t : clearTimeout t [t] = [].
Proof. unfold clearTimeout. rewrite filter_cons_False by naive_solver. done. Qed.

Lemma debounced_cases b :
  debounced b →
  timers b = [] ∨ ∃ t, timers b = [t] ∧ syncTimerRef b = Some t.
Proof.
  unfold debounced. destruct (timers b) as [|t [|t' ts]]; [by left| |done].
  intros ?. right. by exists t.
Qed.

(** The pending timer, if any, is the one [debouncedSync] and the others
    clear. *)
Lemma clear_pending b :
  debounced b →
  match syncTimerRef b with
  | Some h => clearTimeout h (timers b)
  | None => timers b
  end = [].
Proof.
  intros [->|(t & -> & ->)]%debounced_cases.
  - by destruct (syncTimerRef b).
  - apply clearTimeout_one.
Qed.

Lemma debouncedSync_timers b :
  debounced b →
  timers (debouncedSync b) = [nextTimer b] ∧
  syncTimerRef (debouncedSync b) = Some (nextTimer b).
Proof.
  intros Hd. unfold debouncedSync. cbn [timers syncTimerRef].
  by rewrite (clear_pending b Hd).
Qed.

Lemma debounced_debouncedSync b : debounced b → debounced (debouncedSync b).
Proof.
  intros [Ht Hr]%debouncedSync_timers. unfold debounced. by rewrite Ht, Hr.
Qed.

Lemma debounced_applyUpdate origin b : debounced b → debounced (applyUpdate origin b).
Proof.
  intros Hd. unfold applyUpdate, updateHandler.
  destruct (handlerAttached b); [|done].
  destruct (_ || _); [done|]. by apply debounced_debouncedSync.
Qed.

Lemma debounced_dropTimer t b : debounced b → debounced (dropTimer t b).
Proof.
  intros [Ht|(t' & Ht & Hr)]%debounced_cases; unfold debounced, dropTimer;
    cbn [timers syncTimerRef]; rewrite Ht; [done|].
  unfold clearTimeout. destruct (decide (t' = t)) as [->|].
  - by rewrite filter_cons_False by naive_solver.
  - by rewrite filter_cons_True.
Qed.

Lemma bridge_syncToRust h : bridge (syncToRust h) = bridge h.
Proof. unfold syncToRust. by destruct (isApplyingRemoteRef _). Qed.

Lemma debounced_step ev h : debounced (bridge h) → debounced (bridge (step ev h)).
Proof.
  intros Hd. destruct ev; cbn [step onBridge bridge]; try by apply debounced_applyUpdate.
  - done.
  - unfold reloadFromState, debounced, applyUpdate.
    cbn [timers syncTimerRef handlerAttached]. by rewrite (clear_pending _ Hd).
  - unfold fire. destruct (bool_decide _); [|done].
    rewrite bridge_syncToRust. by apply debounced_dropTimer.
  - unfold forceSync. rewrite bridge_syncToRust. cbn [bridge].
    unfold debounced. pose proof (clear_pending _ Hd) as Hc.
    destruct (syncTimerRef (bridge h)); cbn [timers syncTimerRef]; by rewrite Hc.
Qed.

Lemma debounced_run evs h : debounced (bridge h) → debounced (bridge (run evs h)).
Proof.
  revert h. induction evs as [|ev evs IH]; intros h Hd; [done|].
  cbn [run foldl]. apply IH. by apply debounced_step.
Qed.

(** X11. Debouncing holds through everything the hook does: whatever
    the sequence of edits, loads, reloads, timer expiries and forced syncs, at
    most one push is waiting, and the ref holds its handle. *)
Theorem at_most_one_pending (evs : list Event) (h : Host) :
  debounced (bridge h) →
  debounced (bridge (run evs h)) ∧ length (timers (bridge (run evs h))) ≤ 1.
Proof.
  intros Hd%(debounced_run evs). split; [done|].
  apply debounced_cases in Hd as [->|(t & -> & _)]; simpl; lia.
Qed.

Lemma at_most_one_pending_witness :
  debounced (bridge initialHost) ∧
  length (timers (bridge (run [Mount; LoadInitialState; LocalEdit; LocalEdit;
                               ExecuteShellBlock] initialHost))) ≤ 1.
Proof.
  assert (debounced (bridge initialHost)) as Hd by exact I.
  split; [done|]. apply (at_most_one_pending _ initialHost Hd).
Defined.

Lemma localEdit_listening b :
  listening b → debounced b →
  timers (localEdit b) = [nextTimer b] ∧ nextTimer (localEdit b) = S (nextTimer b) ∧
  listening (localEdit b) ∧ debounced (localEdit b).
Proof.
  intros [Ha Hr] Hd. unfold localEdit, applyUpdate, updateHandler.
  rewrite Ha, Hr. cbn [orb bool_decide]. rewrite bool_decide_eq_false_2 by done.
  cbn [orb]. split_and!.
  - by apply debouncedSync_timers.
  - done.
  - done.
  - by apply debounced_debouncedSync.
Qed.

Lemma burst_timers n h :
  listening (bridge h) → debounced (bridge h) →
  let h' := Nat.iter (S n) (step LocalEdit) h in
  timers (bridge h') = [nextTimer (bridge h) + n] ∧
  nextTimer (bridge h') = S (nextTimer (bridge h) + n) ∧
  listening (bridge h') ∧ debounced (bridge h') ∧ pushes h' = pushes h.
Proof.
  intros Hl Hd. induction n as [|n IH]; cbn zeta.
  - cbn [Nat.iter step onBridge bridge pushes].
    destruct (localEdit_listening _ Hl Hd) as (? & ? & ? & ?).
    rewrite Nat.add_0_r. done.
  - cbn zeta in IH. destruct IH as (Ht & Hn & Hl' & Hd' & Hp).
    change (Nat.iter (S (S n)) (step LocalEdit) h)
      with (step LocalEdit (Nat.iter (S n) (step LocalEdit) h)).
    cbn [step onBridge bridge pushes].
    destruct (localEdit_listening _ Hl' Hd') as (Ht2 & Hn2 & ? & ?).
    rewrite Ht2, Hn2, Hn. split_and!; [f_equal; lia|f_equal; lia|done..].
Qed.

(** X12. A burst of edits costs one push: after any number of local edits
    made while no timer has expired, exactly one timer is live, nothing has
    been sent yet, and when that timer expires exactly one push is made and
    none is left waiting. *)
Theorem burst_pushes_once (n : nat) (h : Host) :
  listening (bridge h) → debounced (bridge h) →
  let h' := Nat.iter (S n) (step LocalEdit) h in
  timers (bridge h') = [nextTimer (bridge h) + n] ∧
  pushes h' = pushes h ∧
  pushes (fire (nextTimer (bridge h) + n) h') = S (pushes h) ∧
  timers (bridge (fire (nextTimer (bridge h) + n) h')) = [].
Proof.
  intros Hl Hd. destruct (burst_timers n h Hl Hd) as (Ht & _ & [_ Hr] & _ & Hp).
  cbn zeta in *. split_and!; [done..| |].
  - unfold fire. rewrite Ht. rewrite bool_decide_eq_true_2 by apply list_elem_of_here.
    unfold syncToRust. cbn [onBridge bridge dropTimer isApplyingRemoteRef pushes].
    rewrite Hr. cbn [pushes]. by rewrite Hp.
  - unfold fire. rewrite Ht. rewrite bool_decide_eq_true_2 by apply list_elem_of_here.
    rewrite bridge_syncToRust. cbn [onBridge bridge dropTimer timers].
    rewrite Ht. apply clearTimeout_one.
Qed.

Lemma burst_pushes_once_witness :
  listening loadedBridge ∧
  pushes (fire 3 (Nat.iter 3 (step LocalEdit) {| bridge := loadedBridge; pushes := 0 |})) = 1.
Proof.
  assert (listening loadedBridge) as Hl by (split; reflexivity).
  assert (debounced loadedBridge) as Hd by exact I.
  split; [done|].
  apply (burst_pushes_once 2 {| bridge := loadedBridge; pushes := 0 |} Hl Hd).
Defined.

(** X13. [forceSync] sends at once and leaves nothing waiting: the pending
    timer is cleared with the ref, one push is made, and the timer that was
    pending can no longer add a second one. *)
Theorem forceSync_pushes_now (h : Host) :
  debounced (bridge h) → isApplyingRemoteRef (bridge h) = false →
  pushes (forceSync h) = S (pushes h) ∧
  timers (bridge (forceSync h)) = [] ∧
  syncTimerRef (bridge (forceSync h)) = None ∧
  ∀ t, fire t (forceSync h) = forceSync h.
Proof.
  intros Hd Hr. pose proof (clear_pending _ Hd) as Hc.
  assert (timers (bridge (forceSync h)) = []) as Ht.
  { unfold forceSync. rewrite bridge_syncToRust. cbn [bridge].
    by destruct (syncTimerRef (bridge h)). }
  split_and!; [| done | |].
  - unfold forceSync, syncToRust. cbn [bridge pushes].
    by destruct (syncTimerRef (bridge h)); cbn [isApplyingRemoteRef]; rewrite Hr.
  - unfold forceSync. rewrite bridge_syncToRust. cbn [bridge].
    destruct (syncTimerRef (bridge h)) eqn:E; [done|by rewrite E].
  - intros t. unfold fire. rewrite Ht. by rewrite bool_decide_eq_false_2 by set_solver.
Qed.

Lemma forceSync_pushes_now_witness :
  debounced (localEdit loadedBridge) ∧
  pushes (forceSync {| bridge := localEdit loadedBridge; pushes := 0 |}) = 1.
Proof.
  assert (debounced (localEdit loadedBridge)) as Hd by reflexivity.
  split; [done|].
  apply (forceSync_pushes_now {| bridge := localEdit loadedBridge; pushes := 0 |} Hd).
  reflexivity.
Defined.

(** X14. [reloadFromState] discards the pending push: after a reload no
    timer is live, so an edit still waiting to be sent is never sent; the
    document version goes up by one and the hook is loaded and listening. *)
Theorem reloadFromState_drops_pending (h : Host) :
  debounced (bridge h) →
  let h' := step ReloadFromState h in
  timers (bridge h') = [] ∧ syncTimerRef (bridge h') = None ∧
  (∀ t, fire t h' = h') ∧
  pushes h' = pushes h ∧
  docVersion (bridge h') = S (docVersion (bridge h)) ∧
  isLoaded (bridge h') = true ∧ listening (bridge h').
Proof.
  intros Hd. pose proof (clear_pending _ Hd) as Hc. cbn zeta.
  cbn [step onBridge bridge pushes].
  assert (timers (reloadFromState (bridge h)) = []) as Ht.
  { by rewrite SyncedYDocFacts.reloadFromState_timers. }
  split_and!; [done|done| |done|done|done|done].
  intros t. unfold fire, onBridge. cbn [bridge]. rewrite Ht.
  by rewrite bool_decide_eq_false_2 by set_solver.
Qed.

Lemma reloadFromState_drops_pending_witness :
  timers (localEdit loadedBridge) = [1] ∧
  timers (reloadFromState (localEdit loadedBridge)) = [].
Proof.
  split; [reflexivity|].
  assert (debounced (localEdit loadedBridge)) as Hd by reflexivity.
  apply (reloadFromState_drops_pending {| bridge := localEdit loadedBridge; pushes := 0 |} Hd).
Defined.

End SyncLoopFacts.

(** * More facts about the block store: what each action does to the tree *)

Module BlockLaws.
Import JsString Types BlockStore BlockTree BlockFacts.

Section views.
Implicit Types (m : gmap string Block) (roots : list string) (c : option string)
               (s : BlockStore) (d : YDoc) (k p x y : string) (l : list string).

Lemma transact_synced s d :
  tree_wf (blocks s) (rootIds s) → tree_wf (blocksMap d) (rootIdsArr d) →
  _doc (transact s d) = Some d ∧ store_inv (transact s d) ∧ synced (transact s d) d.
Proof.
  intros Ho Hn. destruct (transact_inv s d Ho Hn) as [Hinv Ed].
  split_and!; [done..|]. by eapply store_inv_doc.
Qed.

Lemma split_unique x l1 l2 l1' l2' :
  NoDup (l1 ++ x :: l2) → l1 ++ x :: l2 = l1' ++ x :: l2' → l1 = l1' ∧ l2 = l2'.
Proof.
  revert l1'. induction l1 as [|a l1 IH]; intros [|a' l1'] Hnd Heq; simpl in *.
  - by injection Heq.
  - injection Heq as <- ->. apply NoDup_cons in Hnd as [Hx _].
    exfalso. apply Hx, elem_of_app. right. apply list_elem_of_here.
  - injection Heq as -> <-. apply NoDup_cons in Hnd as [Hx _].
    exfalso. apply Hx, elem_of_app. right. apply list_elem_of_here.
  - injection Heq as -> Heq. apply NoDup_cons in Hnd as [_ Hnd].
    destruct (IH _ Hnd Heq) as [-> ->]. done.
Qed.

(** The snapshot's record of a live block of the document. *)
Lemma snapshot_block s d k c0 :
  store_inv s → _doc s = Some d → parentOf (blocksMap d) k = Some c0 →
  ∃ block, blocks s !! k = Some block ∧ parentId block = c0 ∧ truthy c0 = c0 ∧
           childIds block = kids (blocksMap d) (rootIdsArr d) (Some k).
Proof.
  intros Hinv Ed Hp. destruct (store_inv_doc _ _ Hinv Ed) as [Hwf Hsy].
  destruct Hinv as [Hwfs _].
  pose proof Hp as Hps. rewrite <- (synced_parentOf _ _ _ Hsy) in Hps.
  apply parentOf_Some in Hps as (block & Eb & Hpb).
  pose proof (truthy_parent _ _ _ _ Hwfs Eb) as Ht. rewrite Hpb in Ht.
  exists block. split_and!; [done..|].
  rewrite <- (synced_kids _ _ _ Hsy). by rewrite (kids_of_block _ _ _ _ Eb).
Qed.

(** The document after one sequence was reordered and [k] rewritten. *)
Lemma reorder_views m roots c0 l (f : Block → Block) k :
  match c0 with Some p => is_Some (m !! p) | None => True end →
  (∀ b, shape (f b) = shape b) →
  let d1 := withKids c0 l {| blocksMap := m; rootIdsArr := roots |} in
  (∀ c, kids (alter f k (blocksMap d1)) (rootIdsArr d1) c
        = if decide (c = c0) then l else kids m roots c) ∧
  (∀ x, parentOf (alter f k (blocksMap d1)) x = parentOf m x).
Proof.
  intros Hlive Hf. cbn zeta.
  destruct (withKids_shape m roots c0 l Hlive) as (Hk & Hpo & _ & _).
  assert (∀ b, childIds (f b) = childIds b) as Hfc by (intros b; by injection (Hf b)).
  assert (∀ b, parentId (f b) = parentId b) as Hfp by (intros b; by injection (Hf b)).
  split.
  - intros c. by rewrite kids_alter_keep, Hk.
  - intros x. by rewrite parentOf_alter_keep, Hpo.
Qed.

Lemma synced_views s d :
  synced s d →
  (∀ c, kids (blocks s) (rootIds s) c = kids (blocksMap d) (rootIdsArr d) c) ∧
  (∀ x, parentOf (blocks s) x = parentOf (blocksMap d) x).
Proof. intros Hsy. split; intros ?; [by apply synced_kids|by apply synced_parentOf]. Qed.

End views.

(** ** Reordering among siblings *)

Section moves.
Implicit Types (m : gmap string Block) (roots : list string) (c : option string)
               (s : BlockStore) (d : YDoc) (k p x y : string) (l : list string).

Lemma moveBlockUp_eval now k s d c0 l1 y l2 :
  store_inv s → _doc s = Some d →
  parentOf (blocksMap d) k = Some c0 →
  kids (blocksMap d) (rootIdsArr d) c0 = l1 ++ y :: k :: l2 →
  let d1 := withKids c0 (l1 ++ k :: y :: l2) d in
  moveBlockUp now k s
  = transact s {| blocksMap := alter (set_updatedAt now) k (blocksMap d1);
                  rootIdsArr := rootIdsArr d1 |}.
Proof.
  intros Hinv Ed Hp Hk. cbn zeta.
  destruct (snapshot_block s d k c0 Hinv Ed Hp) as (block & Eb & Hpb & Ht & _).
  destruct (store_inv_doc _ _ Hinv Ed) as [Hwf Hsy].
  pose proof (tree_wf_NoDup _ _ c0 Hwf) as Hnd. rewrite Hk in Hnd.
  assert (k ∉ l1 ++ [y]) as Hnk.
  { rewrite snoc_split in Hnd. by apply NoDup_split in Hnd as [? _]. }
  unfold moveBlockUp. rewrite Ed, Eb. cbn zeta.
  rewrite siblingsOf_kids, Hpb, Ht, (synced_kids _ _ _ Hsy).
  assert (¬ (indexOf k (kids (blocksMap d) (rootIdsArr d) c0) ≤ 0)%Z) as Hidx.
  { rewrite Hk, (snoc_split l1 y), indexOf_here by done. rewrite length_app. simpl. lia. }
  rewrite bool_decide_eq_false_2 by done.
  f_equal. destruct d as [m roots]. cbn [blocksMap rootIdsArr] in *.
  assert (parentOf m k = Some (truthy (parentId block))) as Hp' by by rewrite Hpb, Ht.
  destruct (moveBlockUp_txn_shape m roots now k block _ Hwf Hp' eq_refl)
    as (l1' & y' & l2' & E & Heq).
  { by rewrite Hpb, Ht. }
  rewrite Hpb, Ht in E, Heq. rewrite Heq. cbn zeta.
  rewrite Hk in E. rewrite (snoc_split l1 y), (snoc_split l1' y') in E.
  rewrite snoc_split in Hnd.
  apply split_unique in E as [[-> ->]%app_inj_tail ->]; done.
Qed.

Lemma moveBlockDown_eval now k s d c0 l1 y l2 :
  store_inv s → _doc s = Some d →
  parentOf (blocksMap d) k = Some c0 →
  kids (blocksMap d) (rootIdsArr d) c0 = l1 ++ k :: y :: l2 →
  let d1 := withKids c0 (l1 ++ y :: k :: l2) d in
  moveBlockDown now k s
  = transact s {| blocksMap := alter (set_updatedAt now) k (blocksMap d1);
                  rootIdsArr := rootIdsArr d1 |}.
Proof.
  intros Hinv Ed Hp Hk. cbn zeta.
  destruct (snapshot_block s d k c0 Hinv Ed Hp) as (block & Eb & Hpb & Ht & _).
  destruct (store_inv_doc _ _ Hinv Ed) as [Hwf Hsy].
  pose proof (tree_wf_NoDup _ _ c0 Hwf) as Hnd. rewrite Hk in Hnd.
  assert (k ∉ l1) as Hnk by (by apply NoDup_split in Hnd as [? _]).
  unfold moveBlockDown. rewrite Ed, Eb. cbn zeta.
  rewrite siblingsOf_kids, Hpb, Ht, (synced_kids _ _ _ Hsy).
  assert (indexOf k (kids (blocksMap d) (rootIdsArr d) c0) = Z.of_nat (length l1)) as Hi.
  { by rewrite Hk, indexOf_here. }
  assert (¬ (indexOf k (kids (blocksMap d) (rootIdsArr d) c0) < 0)%Z) as Hneg by lia.
  assert (¬ (Z.of_nat (length (kids (blocksMap d) (rootIdsArr d) c0)) - 1
             ≤ indexOf k (kids (blocksMap d) (rootIdsArr d) c0))%Z) as Hlast.
  { rewrite Hi, Hk, length_app. simpl. lia. }
  rewrite !bool_decide_eq_false_2 by done. cbn [orb].
  f_equal. destruct d as [m roots]. cbn [blocksMap rootIdsArr] in *.
  assert (parentOf m k = Some (truthy (parentId block))) as Hp' by by rewrite Hpb, Ht.
  destruct (moveBlockDown_txn_shape m roots now k block _ Hwf Hp' eq_refl)
    as (l1' & y' & l2' & E & Heq).
  { by rewrite Hpb, Ht. }
  { by rewrite Hpb, Ht. }
  rewrite Hpb, Ht in E, Heq. rewrite Heq. cbn zeta.
  rewrite Hk in E.
  apply split_unique in E as [-> [= -> ->]]; done.
Qed.

(** A swap of two neighbours, seen from the store. *)
Lemma swap_committed now k s d c0 l l' :
  store_inv s → _doc s = Some d →
  parentOf (blocksMap d) k = Some c0 →
  kids (blocksMap d) (rootIdsArr d) c0 = l → l' ≡ₚ l →
  let d1 := withKids c0 l' d in
  let d' := {| blocksMap := alter (set_updatedAt now) k (blocksMap d1);
               rootIdsArr := rootIdsArr d1 |} in
  let s' := transact s d' in
  _doc s' = Some d' ∧ store_inv s' ∧
  (∀ c, kids (blocksMap d') (rootIdsArr d') c
        = if decide (c = c0) then l' else kids (blocksMap d) (rootIdsArr d) c) ∧
  (∀ x, parentOf (blocksMap d') x = parentOf (blocksMap d) x) ∧
  (∀ c, kids (blocks s') (rootIds s') c
        = if decide (c = c0) then l' else kids (blocks s) (rootIds s) c) ∧
  (∀ x, parentOf (blocks s') x = parentOf (blocks s) x).
Proof.
  intros Hinv Ed Hp Hk Hperm. cbn zeta.
  destruct (store_inv_doc _ _ Hinv Ed) as [Hwf Hsy].
  destruct (synced_views _ _ Hsy) as [HKs HPs].
  destruct d as [m roots]. cbn [blocksMap rootIdsArr] in *.
  pose proof (container_live _ _ _ _ Hwf Hp) as Hlive.
  assert (∀ b, shape (set_updatedAt now b) = shape b) as Hf by done.
  destruct (reorder_views m roots c0 l' (set_updatedAt now) k Hlive Hf) as [HK HP].
  assert (tree_wf (alter (set_updatedAt now) k
                     (blocksMap (withKids c0 l' {| blocksMap := m; rootIdsArr := roots |})))
                  (rootIdsArr (withKids c0 l' {| blocksMap := m; rootIdsArr := roots |})))
    as Hwf'.
  { apply withKids_perm_wf; [done..|by rewrite Hk|done]. }
  destruct (transact_synced s
              {| blocksMap := alter (set_updatedAt now) k
                   (blocksMap (withKids c0 l' {| blocksMap := m; rootIdsArr := roots |}));
                 rootIdsArr :=
                   rootIdsArr (withKids c0 l' {| blocksMap := m; rootIdsArr := roots |}) |}
              (proj1 Hinv) Hwf') as (Ed' & Hinv' & Hsy').
  destruct (synced_views _ _ Hsy') as [HKs' HPs'].
  cbn [blocksMap rootIdsArr] in *.
  split_and!; [done..| |].
  - intros c. rewrite HKs', HK, HKs. done.
  - intros x. rewrite HPs', HP, HPs. done.
Qed.

(** X15. [moveBlockUp] does nothing for an unknown block or a first
    sibling; otherwise it swaps the block with the sibling before it, and
    no other sequence and no parent pointer changes. *)
Theorem moveBlockUp_spec (now : Z) (k : string) (s : BlockStore) :
  store_inv s →
  (blocks s !! k = None → moveBlockUp now k s = s) ∧
  (∀ c0 l, parentOf (blocks s) k = Some c0 →
           kids (blocks s) (rootIds s) c0 = k :: l → moveBlockUp now k s = s) ∧
  (∀ c0 l1 y l2,
     is_Some (_doc s) → parentOf (blocks s) k = Some c0 →
     kids (blocks s) (rootIds s) c0 = l1 ++ y :: k :: l2 →
     let s' := moveBlockUp now k s in
     store_inv s' ∧
     (∀ c, kids (blocks s') (rootIds s') c
           = if decide (c = c0) then l1 ++ k :: y :: l2 else kids (blocks s) (rootIds s) c) ∧
     (∀ x, parentOf (blocks s') x = parentOf (blocks s) x)).
Proof.
  intros Hinv. split_and!.
  - intros Eb. unfold moveBlockUp. rewrite Eb. by destruct (_doc s).
  - intros c0 l Hp Hk. unfold moveBlockUp.
    destruct (_doc s) as [d|]; [|done].
    apply parentOf_Some in Hp as (block & Eb & Hpb). rewrite Eb. cbn zeta.
    rewrite siblingsOf_kids, (truthy_parent _ _ _ _ (proj1 Hinv) Eb), Hpb, Hk.
    change (k :: l) with ([] ++ k :: l).
    rewrite (indexOf_here k [] l) by apply not_elem_of_nil. done.
  - intros c0 l1 y l2 [d Ed] Hp Hk. cbn zeta.
    destruct (store_inv_doc _ _ Hinv Ed) as [Hwf Hsy].
    rewrite (synced_parentOf _ _ _ Hsy) in Hp. rewrite (synced_kids _ _ _ Hsy) in Hk.
    rewrite (moveBlockUp_eval now k s d c0 l1 y l2 Hinv Ed Hp Hk).
    destruct (swap_committed now k s d c0 _ (l1 ++ k :: y :: l2) Hinv Ed Hp Hk)
      as (_ & Hinv' & _ & _ & HK & HP).
    { apply Permutation_app_head, perm_swap. }
    done.
Qed.

Lemma moveBlockUp_spec_witness :
  store_inv scenarioStore ∧
  kids (blocks (moveBlockUp 1 "C" scenarioStore))
       (rootIds (moveBlockUp 1 "C" scenarioStore)) (Some "A") = ["C"; "B"].
Proof.
  assert (store_inv scenarioStore) as Hinv
    by (apply (bool_decide_unpack _); vm_compute; reflexivity).
  split; [done|].
  destruct (proj2 (proj2 (moveBlockUp_spec 1 "C" scenarioStore Hinv))
              (Some "A") [] "B" []) as (_ & HK & _).
  - by eexists.
  - vm_compute. reflexivity.
  - vm_compute. reflexivity.
  - rewrite HK. by rewrite decide_True.
Defined.

(** X16. [moveBlockDown] does nothing for an unknown block or a last
    sibling; otherwise it swaps the block with the sibling after it, and no
    other sequence and no parent pointer changes. *)
Theorem moveBlockDown_spec (now : Z) (k : string) (s : BlockStore) :
  store_inv s →
  (blocks s !! k = None → moveBlockDown now k s = s) ∧
  (∀ c0 l, parentOf (blocks s) k = Some c0 →
           kids (blocks s) (rootIds s) c0 = l ++ [k] → moveBlockDown now k s = s) ∧
  (∀ c0 l1 y l2,
     is_Some (_doc s) → parentOf (blocks s) k = Some c0 →
     kids (blocks s) (rootIds s) c0 = l1 ++ k :: y :: l2 →
     let s' := moveBlockDown now k s in
     store_inv s' ∧
     (∀ c, kids (blocks s') (rootIds s') c
           = if decide (c = c0) then l1 ++ y :: k :: l2 else kids (blocks s) (rootIds s) c) ∧
     (∀ x, parentOf (blocks s') x = parentOf (blocks s) x)).
Proof.
  intros Hinv. split_and!.
  - intros Eb. unfold moveBlockDown. rewrite Eb. by destruct (_doc s).
  - intros c0 l Hp Hk. unfold moveBlockDown.
    destruct (_doc s) as [d|]; [|done].
    pose proof (tree_wf_NoDup _ _ c0 (proj1 Hinv)) as Hnd. rewrite Hk in Hnd.
    apply NoDup_split in Hnd as [Hkl _].
    apply parentOf_Some in Hp as (block & Eb & Hpb). rewrite Eb. cbn zeta.
    rewrite siblingsOf_kids, (truthy_parent _ _ _ _ (proj1 Hinv) Eb), Hpb, Hk.
    rewrite indexOf_here by done. rewrite length_app. simpl.
    rewrite (bool_decide_eq_true_2 (_ - 1 ≤ _)%Z) by lia. by rewrite orb_true_r.
  - intros c0 l1 y l2 [d Ed] Hp Hk. cbn zeta.
    destruct (store_inv_doc _ _ Hinv Ed) as [Hwf Hsy].
    rewrite (synced_parentOf _ _ _ Hsy) in Hp. rewrite (synced_kids _ _ _ Hsy) in Hk.
    rewrite (moveBlockDown_eval now k s d c0 l1 y l2 Hinv Ed Hp Hk).
    destruct (swap_committed now k s d c0 _ (l1 ++ y :: k :: l2) Hinv Ed Hp Hk)
      as (_ & Hinv' & _ & _ & HK & HP).
    { apply Permutation_app_head, perm_swap. }
    done.
Qed.

Lemma moveBlockDown_spec_witness :
  store_inv scenarioStore ∧
  moveBlockDown 1 "C" scenarioStore = scenarioStore.
Proof.
  assert (store_inv scenarioStore) as Hinv
    by (apply (bool_decide_unpack _); vm_compute; reflexivity).
  split; [done|].
  apply (proj1 (proj2 (moveBlockDown_spec 1 "C" scenarioStore Hinv)) (Some "A") ["B"]).
  - vm_compute. reflexivity.
  - vm_compute. reflexivity.
Defined.

(** X17. Moving a block up and then down again puts every sequence and
    every parent pointer back, in the snapshot and in the document. *)
Theorem moveBlockUp_moveBlockDown (now1 now2 : Z) (k : string) (s : BlockStore)
    (c0 : option string) (l1 : list string) (y : string) (l2 : list string) :
  store_inv s →
  parentOf (blocks s) k = Some c0 →
  kids (blocks s) (rootIds s) c0 = l1 ++ y :: k :: l2 →
  let s2 := moveBlockDown now2 k (moveBlockUp now1 k s) in
  store_inv s2 ∧
  (∀ c, kids (blocks s2) (rootIds s2) c = kids (blocks s) (rootIds s) c) ∧
  (∀ x, parentOf (blocks s2) x = parentOf (blocks s) x) ∧
  (∀ d, _doc s = Some d →
        ∃ d2, _doc s2 = Some d2 ∧
              (∀ c, kids (blocksMap d2) (rootIdsArr d2) c
                    = kids (blocksMap d) (rootIdsArr d) c) ∧
              (∀ x, parentOf (blocksMap d2) x = parentOf (blocksMap d) x)).
Proof.
  intros Hinv Hp Hk. cbn zeta.
  destruct (_doc s) as [d|] eqn:Ed.
  2:{ assert (moveBlockUp now1 k s = s) as -> by (unfold moveBlockUp; by rewrite Ed).
      assert (moveBlockDown now2 k s = s) as -> by (unfold moveBlockDown; by rewrite Ed).
      done. }
  destruct (store_inv_doc _ _ Hinv Ed) as [Hwf Hsy].
  destruct (synced_views _ _ Hsy) as [HKs HPs].
  rewrite HPs in Hp. rewrite HKs in Hk.
  rewrite (moveBlockUp_eval now1 k s d c0 l1 y l2 Hinv Ed Hp Hk).
  destruct (swap_committed now1 k s d c0 _ (l1 ++ k :: y :: l2) Hinv Ed Hp Hk)
    as (Ed1 & Hinv1 & HK1 & HP1 & HKs1 & HPs1).
  { apply Permutation_app_head, perm_swap. }
  cbn zeta in *.
  set (d1 := {| blocksMap := _; rootIdsArr := _ |}) in *.
  set (s1 := transact s d1) in *.
  assert (parentOf (blocksMap d1) k = Some c0) as Hp1 by by rewrite HP1.
  assert (kids (blocksMap d1) (rootIdsArr d1) c0 = l1 ++ k :: y :: l2) as Hk1.
  { rewrite HK1. by rewrite decide_True. }
  rewrite (moveBlockDown_eval now2 k s1 d1 c0 l1 y l2 Hinv1 Ed1 Hp1 Hk1).
  destruct (swap_committed now2 k s1 d1 c0 _ (l1 ++ y :: k :: l2) Hinv1 Ed1 Hp1 Hk1)
    as (Ed2 & Hinv2 & HK2 & HP2 & HKs2 & HPs2).
  { apply Permutation_app_head, perm_swap. }
  cbn zeta in *.
  assert (∀ c, (if decide (c = c0) then l1 ++ y :: k :: l2
                else kids (blocksMap d1) (rootIdsArr d1) c)
               = kids (blocksMap d) (rootIdsArr d) c) as Hback.
  { intros c. rewrite HK1. case_decide; [subst c; by rewrite Hk|done]. }
  split_and!; [done| | |].
  - intros c. rewrite HKs2, HKs1. rewrite HKs.
    rewrite <- Hback. rewrite HK1. by case_decide.
  - intros x. by rewrite HPs2, HPs1.
  - intros ? [= <-]. eexists. split; [exact Ed2|]. split.
    + intros c. by rewrite HK2, Hback.
    + intros x. by rewrite HP2, HP1.
Qed.

Lemma moveBlockUp_moveBlockDown_witness :
  store_inv scenarioStore ∧
  kids (blocks (moveBlockDown 2 "C" (moveBlockUp 1 "C" scenarioStore)))
       (rootIds (moveBlockDown 2 "C" (moveBlockUp 1 "C" scenarioStore))) (Some "A")
  = ["B"; "C"].
Proof.
  assert (store_inv scenarioStore) as Hinv
    by (apply (bool_decide_unpack _); vm_compute; reflexivity).
  split; [done|].
  destruct (moveBlockUp_moveBlockDown 1 2 "C" scenarioStore (Some "A") [] "B" [] Hinv)
    as (_ & HK & _).
  - vm_compute. reflexivity.
  - vm_compute. reflexivity.
  - rewrite HK. vm_compute. reflexivity.
Defined.

End moves.

(** ** Creating and deleting blocks *)


Section creation.
Implicit Types (m : gmap string Block) (roots : list string) (c : option string)
               (s : BlockStore) (d : YDoc) (k p x y : string) (l : list string).

Lemma map_size_alter (f : Block → Block) k m : size (alter f k m) = size m.
Proof. by rewrite <- !size_dom, dom_alter_L. Qed.

Lemma synced_size s d : synced s d → size (blocks s) = size (blocksMap d).
Proof.
  intros [_ Hsh]. by rewrite <- (map_size_fmap shape (blocks s)), Hsh, map_size_fmap.
Qed.

(** When the number of blocks changed, the snapshot is the document. *)
Lemma transact_resized s d :
  ids_ok (blocksMap d) → size (blocks s) ≠ size (blocksMap d) →
  blocks (transact s d) = blocksMap d.
Proof.
  intros Hid Hsz. unfold transact, _syncFromYDoc. cbn [_doc blocks].
  rewrite omap_toBlock by done. unfold blocksChanged.
  by rewrite bool_decide_eq_false_2.
Qed.

Lemma transact_rootIds s d : rootIds (transact s d) = rootIdsArr d.
Proof.
  unfold transact, _syncFromYDoc. cbn [_doc rootIds]. by case_bool_decide.
Qed.

Lemma fresh_in_doc s d newId :
  synced s d → blocks s !! newId = None → blocksMap d !! newId = None.
Proof.
  intros Hsy Hfresh. apply eq_None_not_Some.
  rewrite <- (synced_live _ _ _ Hsy), Hfresh. by intros [? ?].
Qed.

Lemma createBlockAfter_eval newId now afterId s d c0 l1 l2 :
  store_inv s → _doc s = Some d → blocks s !! newId = None →
  parentOf (blocksMap d) afterId = Some c0 →
  kids (blocksMap d) (rootIdsArr d) c0 = l1 ++ afterId :: l2 →
  createBlockAfter newId now afterId s
  = (newId,
     transact s (withKids c0 (l1 ++ afterId :: newId :: l2)
                   {| blocksMap := <[newId := createBlock newId [] c0 now]> (blocksMap d);
                      rootIdsArr := rootIdsArr d |})).
Proof.
  intros Hinv Ed Hfresh Hp Hk.
  destruct (snapshot_block s d afterId c0 Hinv Ed Hp) as (block & Eb & Hpb & Ht & _).
  destruct (store_inv_doc _ _ Hinv Ed) as [Hwf Hsy].
  pose proof (fresh_in_doc _ _ _ Hsy Hfresh) as Hnew.
  pose proof (container_live _ _ _ _ Hwf Hp) as Hlive.
  pose proof (tree_wf_NoDup _ _ c0 Hwf) as Hnd. rewrite Hk in Hnd.
  apply NoDup_split in Hnd as [Ha1 _].
  unfold createBlockAfter. rewrite Ed, Eb. f_equal. f_equal.
  unfold createBlockAfter_txn, blockToPlainObject. rewrite Hpb, Ht.
  destruct c0 as [p|]; cbn [kids withKids blocksMap rootIdsArr] in *.
  - assert (newId ≠ p) as Hne by (intros ->; rewrite Hnew in Hlive; by destruct Hlive).
    rewrite lookup_insert_ne by done. rewrite Hk.
    by rewrite indexOf_here, insertAt_after.
  - rewrite Hk. by rewrite indexOf_here, insertAt_after.
Qed.

(** The document once a childless block [nb] was added under a fresh id and
    one sequence rewritten. *)
Lemma added_views m roots c0 l newId nb :
  match c0 with Some p => is_Some (m !! p) | None => True end →
  m !! newId = None → childIds nb = [] →
  let d' := withKids c0 l {| blocksMap := <[newId := nb]> m; rootIdsArr := roots |} in
  (∀ c, kids (blocksMap d') (rootIdsArr d') c = if decide (c = c0) then l else kids m roots c) ∧
  (∀ x, parentOf (blocksMap d') x
        = if decide (x = newId) then Some (parentId nb) else parentOf m x) ∧
  blocksMap d' !! newId = Some nb ∧
  size (blocksMap d') = S (size m).
Proof.
  intros Hlive Hnew Hnc. cbn zeta.
  assert (c0 ≠ Some newId) as Hc0.
  { intros ->. rewrite Hnew in Hlive. by destruct Hlive. }
  assert (match c0 with
          | Some p => is_Some (<[newId := nb]> m !! p)
          | None => True
          end) as Hlive1.
  { destruct c0 as [p|]; [|done]. rewrite lookup_insert_ne; [done|congruence]. }
  destruct (withKids_shape (<[newId := nb]> m) roots c0 l Hlive1) as (Hk & Hpo & _ & _).
  split_and!.
  - intros c. rewrite Hk, kids_insert. case_decide; [done|].
    case_decide; [|done]. subst c. simpl. by rewrite Hnew.
  - intros x. by rewrite Hpo, parentOf_insert.
  - destruct c0 as [p|]; unfold withKids, setValueOnYMap; cbn [blocksMap].
    + rewrite lookup_alter_ne by congruence. apply lookup_insert_eq.
    + apply lookup_insert_eq.
  - destruct c0 as [p|]; unfold withKids, setValueOnYMap; cbn [blocksMap];
      rewrite ?map_size_alter; by apply map_size_insert_None.
Qed.

(** X18. [createBlockAfter] returns the empty string and changes nothing
    when [afterId] is unknown; otherwise it returns the new id, and the new
    block is an empty text block placed right after [afterId] in the same
    sequence, under the same parent, every other sequence and parent pointer
    being as before. *)
Theorem createBlockAfter_spec (newId : string) (now : Z) (afterId : string) (s : BlockStore) :
  (blocks s !! afterId = None → createBlockAfter newId now afterId s = ("", s)) ∧
  (store_inv s → newId ≠ "" → blocks s !! newId = None → is_Some (_doc s) →
   ∀ c0 l1 l2,
     parentOf (blocks s) afterId = Some c0 →
     kids (blocks s) (rootIds s) c0 = l1 ++ afterId :: l2 →
     let r := createBlockAfter newId now afterId s in
     r.1 = newId ∧ store_inv r.2 ∧
     blocks r.2 !! newId = Some (createBlock newId [] c0 now) ∧
     docBlock r.2 newId = Some (createBlock newId [] c0 now) ∧
     (∀ c, kids (blocks r.2) (rootIds r.2) c
           = if decide (c = c0) then l1 ++ afterId :: newId :: l2
             else kids (blocks s) (rootIds s) c) ∧
     (∀ x, parentOf (blocks r.2) x
           = if decide (x = newId) then Some c0 else parentOf (blocks s) x)).
Proof.
  split.
  - intros Eb. unfold createBlockAfter. rewrite Eb. by destruct (_doc s).
  - intros Hinv Hne Hfresh [d Ed] c0 l1 l2 Hp Hk. cbn zeta.
    pose proof (createBlockAfter_inv newId now afterId s Hinv Hne Hfresh) as Hinv'.
    destruct (store_inv_doc _ _ Hinv Ed) as [Hwf Hsy].
    destruct (synced_views _ _ Hsy) as [HKs HPs].
    rewrite HPs in Hp. rewrite HKs in Hk.
    pose proof (fresh_in_doc _ _ _ Hsy Hfresh) as Hnew.
    rewrite (createBlockAfter_eval newId now afterId s d c0 l1 l2 Hinv Ed Hfresh Hp Hk)
      in Hinv' |- *.
    cbn [fst snd] in *.
    destruct d as [m roots]. cbn [blocksMap rootIdsArr] in *.
    destruct (added_views m roots c0 (l1 ++ afterId :: newId :: l2) newId
                (createBlock newId [] c0 now) (container_live _ _ _ _ Hwf Hp) Hnew eq_refl)
      as (HK & HP & Hlook & Hsz).
    cbn zeta in *. set (d' := withKids _ _ _) in *.
    assert (_doc (transact s d') = Some d') as Ed' by apply transact_doc.
    destruct (store_inv_doc _ _ Hinv' Ed') as [Hwf' Hsy'].
    destruct (synced_views _ _ Hsy') as [HKs' HPs'].
    assert (blocks (transact s d') = blocksMap d') as Hsnap.
    { apply transact_resized; [by eapply tree_wf_ids|].
      rewrite Hsz, (synced_size _ _ Hsy). cbn [blocksMap]. lia. }
    split_and!; [done|done| | | |].
    + by rewrite Hsnap.
    + unfold docBlock. by rewrite Ed'.
    + intros c. by rewrite HKs', HK, HKs.
    + intros x. by rewrite HPs', HP, HPs.
Qed.

Lemma createBlockAfter_spec_witness :
  store_inv scenarioStore ∧
  kids (blocks (createBlockAfter "N" 1 "B" scenarioStore).2)
       (rootIds (createBlockAfter "N" 1 "B" scenarioStore).2) (Some "A")
  = ["B"; "N"; "C"].
Proof.
  assert (store_inv scenarioStore) as Hinv
    by (apply (bool_decide_unpack _); vm_compute; reflexivity).
  split; [done|].
  destruct (proj2 (createBlockAfter_spec "N" 1 "B" scenarioStore) Hinv)
    with (c0 := Some "A") (l1 := @nil string) (l2 := ["C"])
    as (_ & _ & _ & _ & HK & _).
  - done.
  - vm_compute. reflexivity.
  - by eexists.
  - vm_compute. reflexivity.
  - vm_compute. reflexivity.
  - rewrite HK. by rewrite decide_True.
Defined.

(** X19. [createBlockInside] returns the empty string and changes nothing
    when the parent is unknown; otherwise the new empty text block becomes the
    last child of the parent, the parent is expanded, and every other
    sequence and parent pointer is as before. *)
Theorem createBlockInside_spec (newId : string) (now : Z) (parent : string) (s : BlockStore) :
  (blocks s !! parent = None → createBlockInside newId now parent s = ("", s)) ∧
  (store_inv s → newId ≠ "" → blocks s !! newId = None → is_Some (_doc s) →
   is_Some (blocks s !! parent) →
   let r := createBlockInside newId now parent s in
   r.1 = newId ∧ store_inv r.2 ∧
   blocks r.2 !! newId = Some (createBlock newId [] (Some parent) now) ∧
   docBlock r.2 newId = Some (createBlock newId [] (Some parent) now) ∧
   collapsed <$> blocks r.2 !! parent = Some false ∧
   collapsed <$> docBlock r.2 parent = Some false ∧
   (∀ c, kids (blocks r.2) (rootIds r.2) c
         = kids (blocks s) (rootIds s) c ++ (if decide (c = Some parent) then [newId] else [])) ∧
   (∀ x, parentOf (blocks r.2) x
         = if decide (x = newId) then Some (Some parent) else parentOf (blocks s) x)).
Proof.
  split.
  - intros Eb. unfold createBlockInside. rewrite Eb. by destruct (_doc s).
  - intros Hinv Hne Hfresh [d Ed] [pb Eb]. cbn zeta.
    pose proof (createBlockInside_inv newId now parent s Hinv Hne Hfresh) as Hinv'.
    destruct (store_inv_doc _ _ Hinv Ed) as [Hwf Hsy].
    destruct (synced_views _ _ Hsy) as [HKs HPs].
    pose proof (fresh_in_doc _ _ _ Hsy Hfresh) as Hnew.
    assert (is_Some (blocksMap d !! parent)) as Hlive
      by (apply (synced_live _ _ _ Hsy); rewrite Eb; eauto).
    assert (parent ≠ newId) as Hpn by (intros ->; rewrite Hnew in Hlive; by destruct Hlive).
    unfold createBlockInside in *. rewrite Ed, Eb in *. cbn [fst snd] in *.
    set (nb := createBlock newId [] (Some parent) now) in *.
    set (d' := createBlockInside_txn newId parent nb d) in *.
    assert (_doc (transact s d') = Some d') as Ed' by apply transact_doc.
    destruct (store_inv_doc _ _ Hinv' Ed') as [Hwf' Hsy'].
    destruct (synced_views _ _ Hsy') as [HKs' HPs'].
    destruct d as [m roots]. cbn [blocksMap rootIdsArr] in *.
    assert (blocksMap d' = alter (set_collapsed false) parent
              (alter (set_childIds (kids m roots (Some parent) ++ [newId])) parent
                 (<[newId := nb]> m))) as Hmap.
    { unfold d', createBlockInside_txn, setValueOnYMap, blockToPlainObject.
      cbn [blocksMap kids]. by rewrite lookup_insert_ne. }
    assert (rootIdsArr d' = roots) as Hroots by done.
    assert (is_Some (<[newId := nb]> m !! parent)) as Hlive1 by by rewrite lookup_insert_ne.
    assert (∀ c, kids (blocksMap d') (rootIdsArr d') c
                 = kids m roots c ++ (if decide (c = Some parent) then [newId] else [])) as HK.
    { intros c. rewrite Hmap, Hroots. rewrite kids_alter_keep by done.
      rewrite kids_set_childIds by done. case_decide; [by subst c|].
      rewrite kids_insert, app_nil_r. case_decide; [|done].
      subst c. simpl. by rewrite Hnew. }
    assert (∀ x, parentOf (blocksMap d') x
                 = if decide (x = newId) then Some (Some parent) else parentOf m x) as HP.
    { intros x. rewrite Hmap. rewrite !parentOf_alter_keep by done.
      by rewrite parentOf_insert. }
    assert (blocksMap d' !! newId = Some nb) as Hlook.
    { rewrite Hmap. rewrite !lookup_alter_ne by done. apply lookup_insert_eq. }
    assert (collapsed <$> blocksMap d' !! parent = Some false) as Hcol.
    { rewrite Hmap. rewrite lookup_alter_eq. destruct Hlive1 as [b Hb].
      rewrite lookup_alter_eq, Hb. done. }
    assert (blocks (transact s d') = blocksMap d') as Hsnap.
    { apply transact_resized; [by eapply tree_wf_ids|].
      rewrite Hmap, !map_size_alter, map_size_insert_None by done.
      rewrite (synced_size _ _ Hsy). cbn [blocksMap]. lia. }
    split_and!; [done|done| | | | | |].
    + by rewrite Hsnap.
    + unfold docBlock. by rewrite Ed'.
    + by rewrite Hsnap.
    + unfold docBlock. by rewrite Ed'.
    + intros c. by rewrite HKs', HK, HKs.
    + intros x. by rewrite HPs', HP, HPs.
Qed.

Lemma createBlockInside_spec_witness :
  store_inv scenarioStore ∧
  kids (blocks (createBlockInside "N" 1 "A" scenarioStore).2)
       (rootIds (createBlockInside "N" 1 "A" scenarioStore).2) (Some "A")
  = ["B"; "C"; "N"].
Proof.
  assert (store_inv scenarioStore) as Hinv
    by (apply (bool_decide_unpack _); vm_compute; reflexivity).
  split; [done|].
  destruct (proj2 (createBlockInside_spec "N" 1 "A" scenarioStore) Hinv)
    as (_ & _ & _ & _ & _ & _ & HK & _).
  - done.
  - vm_compute. reflexivity.
  - by eexists.
  - by eexists.
  - rewrite HK. vm_compute. reflexivity.
Defined.

End creation.

(** ** Round trip of creation and deletion; indenting and outdenting *)


Section roundtrip.
Implicit Types (m : gmap string Block) (roots : list string) (c : option string)
               (s : BlockStore) (d : YDoc) (k p x y : string) (l : list string).

Lemma set_childIds_back (b : Block) l : set_childIds (childIds b) (set_childIds l b) = b.
Proof. by destruct b. Qed.

(** Deleting the block just added after [afterId] gives the document back. *)
Lemma deleteBlock_txn_undoes m roots c0 l1 afterId l2 newId nb :
  match c0 with Some p => is_Some (m !! p) | None => True end →
  m !! newId = None →
  kids m roots c0 = l1 ++ afterId :: l2 →
  newId ∉ l1 ++ [afterId] → newId ∉ l2 →
  truthy (parentId nb) = c0 →
  deleteBlock_txn newId nb
    (withKids c0 (l1 ++ afterId :: newId :: l2)
       {| blocksMap := <[newId := nb]> m; rootIdsArr := roots |})
  = {| blocksMap := m; rootIdsArr := roots |}.
Proof.
  intros Hlive Hnew Hk Hn1 Hn2 Ht. unfold deleteBlock_txn. rewrite Ht.
  destruct c0 as [p|]; unfold withKids, detached, setValueOnYMap;
    cbn [blocksMap rootIdsArr kids] in *.
  - destruct Hlive as [pb Epb].
    assert (newId ≠ p) as Hne by (intros ->; congruence).
    rewrite lookup_alter_eq, lookup_insert_ne, Epb by done. cbn [fmap option_fmap option_map].
    cbn [getChildIds set_childIds childIds].
    rewrite (snoc_split l1 afterId), (without_here newId) by done.
    rewrite <- snoc_split. f_equal.
    apply map_eq. intros x. destruct (decide (x = newId)) as [->|Hx].
    { by rewrite lookup_delete_eq. }
    rewrite lookup_delete_ne by done.
    destruct (decide (x = p)) as [->|Hxp].
    + rewrite !lookup_alter_eq, lookup_insert_ne, Epb by done.
      cbn [fmap option_fmap option_map]. f_equal.
      rewrite Epb in Hk. cbn [getChildIds] in Hk. rewrite <- Hk.
      apply set_childIds_back.
    + rewrite !lookup_alter_ne by done. by rewrite lookup_insert_ne.
  - rewrite (snoc_split l1 afterId), indexOf_here by done.
    rewrite bool_decide_eq_true_2 by lia.
    rewrite deleteAt_one, <- snoc_split, <- Hk.
    by rewrite delete_insert_id.
Qed.

(** X20. Creating a block after [afterId] and deleting it at once gives
    the document back exactly, whether or not [afterId] exists; the snapshot
    shows the same tree as before. *)
Theorem createBlockAfter_deleteBlock (newId : string) (now : Z) (afterId : string)
    (s : BlockStore) :
  store_inv s → newId ≠ "" → blocks s !! newId = None →
  let s2 := deleteBlock newId (createBlockAfter newId now afterId s).2 in
  _doc s2 = _doc s ∧ store_inv s2 ∧
  rootIds s2 = rootIds s ∧ shape <$> blocks s2 = shape <$> blocks s.
Proof.
  intros Hinv Hne Hfresh. cbn zeta.
  destruct (_doc s) as [d|] eqn:Ed.
  2:{ assert (createBlockAfter newId now afterId s = ("", s)) as ->
        by (unfold createBlockAfter; by rewrite Ed).
      cbn [snd]. assert (deleteBlock newId s = s) as ->
        by (unfold deleteBlock; by rewrite Ed).
      by rewrite Ed. }
  destruct (blocks s !! afterId) as [afterBlock|] eqn:Eb.
  2:{ assert (createBlockAfter newId now afterId s = ("", s)) as ->
        by (unfold createBlockAfter; by rewrite Ed, Eb).
      cbn [snd]. assert (deleteBlock newId s = s) as ->
        by (unfold deleteBlock; by rewrite Ed, Hfresh).
      by rewrite Ed. }
  destruct (store_inv_doc _ _ Hinv Ed) as [Hwf Hsy].
  destruct (synced_views _ _ Hsy) as [HKs HPs].
  pose proof (fresh_in_doc _ _ _ Hsy Hfresh) as Hnew.
  pose proof (parentOf_lookup _ _ _ Eb) as Hp. rewrite HPs in Hp.
  pose proof (truthy_parent _ _ _ _ (proj1 Hinv) Eb) as Ht.
  set (c0 := parentId afterBlock) in *.
  destruct (listed_split _ _ _ _ Hwf Hp) as (l1 & l2 & Hk & Ha1 & Ha2).
  pose proof (container_live _ _ _ _ Hwf Hp) as Hlive.
  pose proof (createBlockAfter_inv newId now afterId s Hinv Hne Hfresh) as Hinv1.
  rewrite (createBlockAfter_eval newId now afterId s d c0 l1 l2 Hinv Ed Hfresh Hp Hk)
    in Hinv1 |- *.
  cbn [snd] in *. destruct d as [m roots]. cbn [blocksMap rootIdsArr] in *.
  set (nb := createBlock newId [] c0 now) in *.
  destruct (added_views m roots c0 (l1 ++ afterId :: newId :: l2) newId nb Hlive Hnew eq_refl)
    as (_ & _ & Hlook & Hsz).
  cbn zeta in *. set (d' := withKids _ _ _) in *. set (s1 := transact s d') in *.
  assert (_doc s1 = Some d') as Ed1 by apply transact_doc.
  destruct (store_inv_doc _ _ Hinv1 Ed1) as [Hwf1 Hsy1].
  assert (blocks s1 = blocksMap d') as Hsnap.
  { apply transact_resized; [by eapply tree_wf_ids|].
    rewrite Hsz, (synced_size _ _ Hsy). cbn [blocksMap]. lia. }
  assert (∀ x c, x ∈ kids m roots c → x ≠ newId) as Hlisted.
  { intros x c Hin ->. apply (tree_wf_listed _ _ _ _ Hwf), parentOf_live in Hin.
    rewrite Hnew in Hin. by destruct Hin. }
  assert (newId ∉ l1 ++ [afterId]) as Hn1.
  { intros Hin. apply (Hlisted newId c0); [|done]. rewrite Hk, snoc_split.
    apply elem_of_app. by left. }
  assert (newId ∉ l2) as Hn2.
  { intros Hin. apply (Hlisted newId c0); [|done]. rewrite Hk.
    apply elem_of_app. right. by apply list_elem_of_further. }
  assert (deleteBlock newId s1 = transact s1 {| blocksMap := m; rootIdsArr := roots |}) as ->.
  { unfold deleteBlock. rewrite Ed1, Hsnap, Hlook. cbn [childIds nb createBlock length].
    rewrite bool_decide_eq_false_2 by lia. f_equal.
    by apply deleteBlock_txn_undoes. }
  destruct (transact_synced s1 {| blocksMap := m; rootIdsArr := roots |} (proj1 Hinv1) Hwf)
    as (Ed2 & Hinv2 & [Hr2 Hsh2]).
  destruct Hsy as [Hr Hsh]. cbn [blocksMap rootIdsArr] in *.
  split_and!; [done|done|congruence|congruence].
Qed.

Lemma createBlockAfter_deleteBlock_witness :
  store_inv scenarioStore ∧
  _doc (deleteBlock "N" (createBlockAfter "N" 1 "B" scenarioStore).2) = _doc scenarioStore.
Proof.
  assert (store_inv scenarioStore) as Hinv
    by (apply (bool_decide_unpack _); vm_compute; reflexivity).
  split; [done|].
  apply (createBlockAfter_deleteBlock "N" 1 "B" scenarioStore Hinv); [done|].
  vm_compute. reflexivity.
Defined.

End roundtrip.

(** ** Indenting and outdenting *)

Section nesting.
Implicit Types (m : gmap string Block) (roots : list string) (c : option string)
               (s : BlockStore) (d : YDoc) (k p x y : string) (l : list string).

(** When the quick check finds no change, the snapshot already shows what
    the document holds. *)
Lemma blocksChanged_false_shown (old new : gmap string Block) :
  blocksChanged old new = false →
  size old = size new ∧
  ∀ k b, new !! k = Some b → ∃ ob, old !! k = Some ob ∧ shown ob = shown b.
Proof.
  unfold blocksChanged. intros [H1 H2]%orb_false_iff.
  apply negb_false_iff, bool_decide_eq_true in H1.
  apply bool_decide_eq_false in H2. split; [done|].
  intros k b E.
  destruct (changedAt old k b) eqn:Ech.
  { exfalso. apply H2, map_Exists_lookup. by exists k, b. }
  unfold changedAt in Ech. destruct (old !! k) as [ob|]; [|done].
  exists ob. split; [done|].
  apply orb_false_iff in Ech as [[Hc Hl]%orb_false_iff Hch].
  apply negb_false_iff, bool_decide_eq_true in Hc, Hl, Hch.
  unfold shown. by rewrite Hc, Hl, Hch.
Qed.

Lemma transact_shown s d k :
  ids_ok (blocksMap d) →
  shown <$> blocks (transact s d) !! k = shown <$> blocksMap d !! k.
Proof.
  intros Hid. unfold transact, _syncFromYDoc. cbn [_doc blocks].
  rewrite omap_toBlock by done.
  destruct (blocksChanged (blocks s) (blocksMap d)) eqn:E; [done|].
  apply blocksChanged_false_shown in E as [Hsz Hch].
  destruct (blocksMap d !! k) as [b|] eqn:Eb.
  - destruct (Hch k b Eb) as (ob & -> & Hs). simpl. by rewrite Hs.
  - assert (∀ x, is_Some (blocksMap d !! x) → is_Some (blocks s !! x)) as Hsub.
    { intros x [bx Ex]. destruct (Hch x bx Ex) as (ob & -> & _). eauto. }
    pose proof (proj1 (same_keys _ _ Hsz Hsub k)) as Hk. rewrite Eb in Hk.
    destruct (blocks s !! k); [|done]. destruct Hk as [? ?]; [eauto|done].
Qed.

Lemma shown_collapsed (o1 o2 : option Block) :
  shown <$> o1 = shown <$> o2 → collapsed <$> o1 = collapsed <$> o2.
Proof. destruct o1, o2; simpl; try done. by intros [= _ -> _]. Qed.

Lemma shown_content (o1 o2 : option Block) :
  shown <$> o1 = shown <$> o2 → content <$> o1 = content <$> o2.
Proof. destruct o1, o2; simpl; try done. by intros [= -> _ _]. Qed.

(** X21. [indentBlock] does nothing for an unknown block or a first
    sibling; otherwise the block leaves its sequence and becomes the last
    child of the sibling before it, which is expanded; nothing else moves. *)
Theorem indentBlock_spec (now : Z) (k : string) (s : BlockStore) :
  store_inv s →
  (blocks s !! k = None → indentBlock now k s = s) ∧
  (∀ c0 l, parentOf (blocks s) k = Some c0 →
           kids (blocks s) (rootIds s) c0 = k :: l → indentBlock now k s = s) ∧
  (∀ c0 l1 y l2,
     is_Some (_doc s) → parentOf (blocks s) k = Some c0 →
     kids (blocks s) (rootIds s) c0 = l1 ++ y :: k :: l2 →
     let s' := indentBlock now k s in
     store_inv s' ∧
     (∀ c, kids (blocks s') (rootIds s') c
           = (if decide (c = c0) then l1 ++ y :: l2 else kids (blocks s) (rootIds s) c)
             ++ (if decide (c = Some y) then [k] else [])) ∧
     (∀ x, parentOf (blocks s') x
           = if decide (x = k) then Some (Some y) else parentOf (blocks s) x) ∧
     collapsed <$> blocks s' !! y = Some false ∧
     collapsed <$> docBlock s' y = Some false).
Proof.
  intros Hinv. split_and!.
  - intros Eb. unfold indentBlock. rewrite Eb. by destruct (_doc s).
  - intros c0 l Hp Hk. unfold indentBlock.
    destruct (_doc s) as [d|]; [|done].
    apply parentOf_Some in Hp as (block & Eb & Hpb). rewrite Eb. cbn zeta.
    rewrite siblingsOf_kids, (truthy_parent _ _ _ _ (proj1 Hinv) Eb), Hpb, Hk.
    change (k :: l) with ([] ++ k :: l).
    rewrite (indexOf_here k [] l) by apply not_elem_of_nil. done.
  - intros c0 l1 y l2 [d Ed] Hp Hk. cbn zeta.
    pose proof (indentBlock_inv now k s Hinv) as Hinv'.
    destruct (store_inv_doc _ _ Hinv Ed) as [Hwf Hsy].
    destruct (synced_views _ _ Hsy) as [HKs HPs].
    rewrite HPs in Hp. rewrite HKs in Hk.
    destruct (indentBlock_eval now k s d c0 l1 y l2 Hinv Ed Hp Hk) as (block & Ht & Heq).
    rewrite Heq in Hinv' |- *. subst c0. set (c0 := truthy (parentId block)) in *.
    pose proof (tree_wf_NoDup _ _ c0 Hwf) as Hnd. rewrite Hk in Hnd.
    assert (k ∉ l1 ++ [y]) as Hn1.
    { rewrite snoc_split in Hnd. by apply NoDup_split in Hnd as [? _]. }
    assert (k ∉ l2) as Hn2.
    { rewrite snoc_split in Hnd. by apply NoDup_split in Hnd as [_ ?]. }
    assert (k ≠ y) as Hky.
    { intros ->. apply Hn1, elem_of_app. right. apply list_elem_of_here. }
    assert (is_Some (blocksMap d !! y)) as Hy.
    { eapply parentOf_live, (tree_wf_listed _ _ c0 y Hwf).
      rewrite Hk. apply elem_of_app. right. apply list_elem_of_here. }
    destruct d as [m roots]. cbn [blocksMap rootIdsArr] in *.
    destruct (indentBlock_txn_shape m roots now k block y Hwf Hp Hy) as (HK & HP & Hid).
    cbn zeta in *. fold c0 in HK.
    set (d' := indentBlock_txn now k block y _) in *.
    assert (_doc (transact s d') = Some d') as Ed' by apply transact_doc.
    destruct (store_inv_doc _ _ Hinv' Ed') as [Hwf' Hsy'].
    destruct (synced_views _ _ Hsy') as [HKs' HPs'].
    assert (∀ c, kidsWithout m roots c0 k c
                 = if decide (c = c0) then l1 ++ y :: l2 else kids m roots c) as HW.
    { intros c. unfold kidsWithout. case_decide; [|done]. subst c.
      rewrite Hk, (snoc_split l1 y), without_here by done. by rewrite <- snoc_split. }
    assert (collapsed <$> blocksMap d' !! y = Some false) as Hcol.
    { subst c0. unfold d', indentBlock_txn, setValueOnYMap. cbn [blocksMap].
      rewrite !lookup_alter_ne by done. rewrite lookup_alter_eq.
      destruct (detached_shape m roots _ k Hwf Hp) as (_ & _ & Hl & _).
      cbn zeta in Hl. destruct (proj2 (Hl y) Hy) as [b0 Eb0].
      rewrite lookup_alter_eq, Eb0. done. }
    split_and!; [done| | | |].
    + intros c. by rewrite HKs', HK, HW, HKs.
    + intros x. by rewrite HPs', HP, HPs.
    + rewrite <- Hcol. apply shown_collapsed, transact_shown. by eapply tree_wf_ids.
    + unfold docBlock. by rewrite Ed'.
Qed.

Lemma indentBlock_spec_witness :
  store_inv scenarioStore ∧
  kids (blocks (indentBlock 1 "C" scenarioStore))
       (rootIds (indentBlock 1 "C" scenarioStore)) (Some "B") = ["C"].
Proof.
  assert (store_inv scenarioStore) as Hinv
    by (apply (bool_decide_unpack _); vm_compute; reflexivity).
  split; [done|].
  destruct (proj2 (proj2 (indentBlock_spec 1 "C" scenarioStore Hinv))
              (Some "A") [] "B" []) as (_ & HK & _).
  - by eexists.
  - vm_compute. reflexivity.
  - vm_compute. reflexivity.
  - rewrite HK. vm_compute. reflexivity.
Defined.

(** What [outdentBlock] does to a block [k] with parent [p], whatever
    container [cg] the parent names: [k] leaves the sequence of [p], and is
    then inserted after the position of [p] in the sequence of [cg]. *)
Lemma outdentBlock_shape (now : Z) (k : string) (s : BlockStore) p cg l1 l2 :
  store_inv s → is_Some (_doc s) →
  parentOf (blocks s) k = Some (Some p) → parentOf (blocks s) p = Some cg →
  kids (blocks s) (rootIds s) (Some p) = l1 ++ k :: l2 →
  let s' := outdentBlock now k s in
  let base c := if decide (c = Some p) then l1 ++ l2 else kids (blocks s) (rootIds s) c in
  store_inv s' ∧
  (∀ c, kids (blocks s') (rootIds s') c
        = if decide (c = cg) then insertAt (indexOf p (base c) + 1) [k] (base c)
          else base c) ∧
  (∀ x, parentOf (blocks s') x
        = if decide (x = k) then Some cg else parentOf (blocks s) x).
Proof.
  intros Hinv [d Ed] Hk Hp Hl. cbn zeta.
  pose proof (outdentBlock_inv now k s Hinv) as Hinv'.
  destruct (store_inv_doc _ _ Hinv Ed) as [Hwf Hsy].
  destruct (synced_views _ _ Hsy) as [HKs HPs].
  rewrite HPs in Hk, Hp. rewrite HKs in Hl.
  destruct (outdentBlock_eval now k s d p cg Hinv Ed Hk Hp) as (parent & Hpp & Htp & Heq).
  rewrite Heq in Hinv' |- *.
  destruct d as [m roots]. cbn [blocksMap rootIdsArr] in *.
  assert (parentOf m p = Some (truthy (parentId parent))) as Hp' by by rewrite Hpp, Htp.
  assert (truthy (parentId parent) = parentId parent) as Htp' by by rewrite Hpp.
  destruct (outdentBlock_txn_shape m roots now k p parent Hwf Hk Hp' Htp')
    as (HK & HP & _).
  cbn zeta in *. set (d' := outdentBlock_txn now k p parent _) in *.
  assert (_doc (transact s d') = Some d') as Ed' by apply transact_doc.
  destruct (store_inv_doc _ _ Hinv' Ed') as [Hwf' Hsy'].
  destruct (synced_views _ _ Hsy') as [HKs' HPs'].
  pose proof (tree_wf_NoDup _ _ (Some p) Hwf) as Hnd. rewrite Hl in Hnd.
  apply NoDup_split in Hnd as [Hn1 Hn2].
  assert (∀ c, kidsWithout m roots (Some p) k c
               = if decide (c = Some p) then l1 ++ l2 else kids m roots c) as HW.
  { intros c. unfold kidsWithout. case_decide; [|done]. subst c.
    by rewrite Hl, without_here. }
  split_and!; [done| |].
  - intros c. by rewrite HKs', HK, !HW, Hpp, HKs.
  - intros x. by rewrite HPs', HP, Hpp, HPs.
Qed.

(** X22. [outdentBlock] does nothing without a document, for an unknown
    block and for a root.  For a block [k] with parent [p] it takes [k] out
    of the children of [p], inserts it right after the position of [p] in
    the sequence of the container [p] names as its parent, and gives [k]
    that container as parent; nothing else changes and the store stays well
    formed.  When [p] is not its own parent, [k] so leaves the children of
    [p] and follows [p] among the siblings of [p], the siblings that
    followed [k] staying with [p].  When [p] names itself as parent, which
    the well-formedness condition allows, [k] stays among the children of
    [p], right after [p]. *)
Theorem outdentBlock_spec (now : Z) (k : string) (s : BlockStore) :
  store_inv s →
  (blocks s !! k = None → outdentBlock now k s = s) ∧
  (parentOf (blocks s) k = Some None → outdentBlock now k s = s) ∧
  (∀ p cg l1 l2 g1 g2,
     is_Some (_doc s) →
     parentOf (blocks s) k = Some (Some p) → parentOf (blocks s) p = Some cg →
     cg ≠ Some p →
     kids (blocks s) (rootIds s) (Some p) = l1 ++ k :: l2 →
     kids (blocks s) (rootIds s) cg = g1 ++ p :: g2 →
     let s' := outdentBlock now k s in
     store_inv s' ∧
     (∀ c, kids (blocks s') (rootIds s') c
           = if decide (c = Some p) then l1 ++ l2
             else if decide (c = cg) then g1 ++ p :: k :: g2
             else kids (blocks s) (rootIds s) c) ∧
     (∀ x, parentOf (blocks s') x
           = if decide (x = k) then Some cg else parentOf (blocks s) x)) ∧
  (_doc s = None → outdentBlock now k s = s) ∧
  (∀ p cg l1 l2,
     is_Some (_doc s) →
     parentOf (blocks s) k = Some (Some p) → parentOf (blocks s) p = Some cg →
     kids (blocks s) (rootIds s) (Some p) = l1 ++ k :: l2 →
     let s' := outdentBlock now k s in
     let base c := if decide (c = Some p) then l1 ++ l2
                   else kids (blocks s) (rootIds s) c in
     store_inv s' ∧
     (∀ c, kids (blocks s') (rootIds s') c
           = if decide (c = cg) then insertAt (indexOf p (base c) + 1) [k] (base c)
             else base c) ∧
     (∀ x, parentOf (blocks s') x
           = if decide (x = k) then Some cg else parentOf (blocks s) x)) ∧
  (∀ p l1 l2 h1 h2,
     is_Some (_doc s) →
     parentOf (blocks s) k = Some (Some p) → parentOf (blocks s) p = Some (Some p) →
     kids (blocks s) (rootIds s) (Some p) = l1 ++ k :: l2 →
     l1 ++ l2 = h1 ++ p :: h2 →
     let s' := outdentBlock now k s in
     store_inv s' ∧
     (∀ c, kids (blocks s') (rootIds s') c
           = if decide (c = Some p) then h1 ++ p :: k :: h2
             else kids (blocks s) (rootIds s) c) ∧
     (∀ x, parentOf (blocks s') x = parentOf (blocks s) x)).
Proof.
  intros Hinv. split_and!.
  - intros Eb. unfold outdentBlock. rewrite Eb. by destruct (_doc s).
  - intros (block & Eb & Hpb)%parentOf_Some. unfold outdentBlock.
    destruct (_doc s) as [d|]; [|done]. by rewrite Eb, Hpb.
  - intros p cg l1 l2 g1 g2 Hd Hk Hp Hcg Hl Hg.
    destruct (outdentBlock_shape now k s p cg l1 l2 Hinv Hd Hk Hp Hl) as (Hinv' & HK & HP).
    cbn zeta in *. split_and!; [done| |done].
    intros c. rewrite HK.
    destruct (decide (c = Some p)) as [->|Hc].
    + by rewrite decide_False.
    + case_decide; [|done]. subst c. rewrite Hg.
      destruct Hd as [d Ed]. destruct (store_inv_doc _ _ Hinv Ed) as [Hwf Hsy].
      destruct (synced_views _ _ Hsy) as [HKs _]. rewrite HKs in Hg.
      pose proof (tree_wf_NoDup _ _ cg Hwf) as Hndg. rewrite Hg in Hndg.
      apply NoDup_split in Hndg as [Hg1 _].
      by rewrite indexOf_here, insertAt_after.
  - intros Ed. unfold outdentBlock. by rewrite Ed.
  - intros p cg l1 l2 Hd Hk Hp Hl.
    exact (outdentBlock_shape now k s p cg l1 l2 Hinv Hd Hk Hp Hl).
  - intros p l1 l2 h1 h2 Hd Hk Hp Hl Hh.
    destruct (outdentBlock_shape now k s p (Some p) l1 l2 Hinv Hd Hk Hp Hl)
      as (Hinv' & HK & HP).
    cbn zeta in *. split_and!; [done| |].
    + intros c. rewrite HK. case_decide; [|done]. subst c.
      rewrite Hh.
      destruct Hd as [d Ed]. destruct (store_inv_doc _ _ Hinv Ed) as [Hwf Hsy].
      destruct (synced_views _ _ Hsy) as [HKs _]. rewrite HKs in Hl.
      pose proof (tree_wf_NoDup _ _ (Some p) Hwf) as Hnd. rewrite Hl in Hnd.
      rewrite <- Permutation_middle in Hnd. apply NoDup_cons in Hnd as [_ Hnd].
      rewrite Hh in Hnd. apply NoDup_split in Hnd as [Hh1 _].
      by rewrite indexOf_here, insertAt_after.
    + intros x. rewrite HP. case_decide; [|done]. by subst x.
Qed.

Lemma outdentBlock_spec_witness :
  store_inv scenarioStore ∧
  kids (blocks (outdentBlock 1 "B" scenarioStore))
       (rootIds (outdentBlock 1 "B" scenarioStore)) None = ["A"; "B"] ∧
  store_inv loopStore ∧
  kids (blocks (outdentBlock 1 "K" loopStore))
       (rootIds (outdentBlock 1 "K" loopStore)) (Some "L") = ["L"; "K"].
Proof.
  assert (store_inv scenarioStore) as Hinv
    by (apply (bool_decide_unpack _); vm_compute; reflexivity).
  assert (store_inv loopStore) as Hloop
    by (apply (bool_decide_unpack _); vm_compute; reflexivity).
  split; [done|]. split; [|split; [done|]].
  - destruct (proj1 (proj2 (proj2 (outdentBlock_spec 1 "B" scenarioStore Hinv)))
                "A" None [] ["C"] [] []) as (_ & HK & _).
    + by eexists.
    + vm_compute. reflexivity.
    + vm_compute. reflexivity.
    + done.
    + vm_compute. reflexivity.
    + vm_compute. reflexivity.
    + rewrite HK. vm_compute. reflexivity.
  - destruct (proj2 (proj2 (proj2 (proj2 (proj2 (outdentBlock_spec 1 "K" loopStore Hloop)))))
                "L" [] ["L"] [] []) as (_ & HK & _).
    + by eexists.
    + vm_compute. reflexivity.
    + vm_compute. reflexivity.
    + vm_compute. reflexivity.
    + done.
    + rewrite HK. vm_compute. reflexivity.
Defined.

End nesting.

(** ** Text edits, the collapse flag, and what the snapshot shows *)


Section edits.
Implicit Types (m : gmap string Block) (roots : list string) (c : option string)
               (s : BlockStore) (d : YDoc) (k p x y : string) (l : list string).

Lemma shape_alter (f : Block → Block) k m :
  (∀ b, shape (f b) = shape b) → shape <$> alter f k m = shape <$> m.
Proof.
  intros Hf. apply map_eq. intros x. rewrite !lookup_fmap, lookup_alter.
  case_decide; [|done]. subst. destruct (m !! x); simpl; [by rewrite Hf|done].
Qed.

(** A transaction that keeps every block's shape and the root order keeps
    the store well formed and the tree as it is. *)
Lemma kept_shape s d d' :
  store_inv s → _doc s = Some d →
  rootIdsArr d' = rootIdsArr d → shape <$> blocksMap d' = shape <$> blocksMap d →
  store_inv (transact s d') ∧
  (∀ c, kids (blocks (transact s d')) (rootIds (transact s d')) c
        = kids (blocks s) (rootIds s) c) ∧
  (∀ x, parentOf (blocks (transact s d')) x = parentOf (blocks s) x).
Proof.
  intros Hinv Ed Hr Hsh. destruct (store_inv_doc _ _ Hinv Ed) as [Hwf Hsy].
  destruct (synced_views _ _ Hsy) as [HKs HPs].
  assert (tree_wf (blocksMap d') (rootIdsArr d')) as Hwf'.
  { rewrite Hr. eapply shape_tree_wf; [symmetry; exact Hsh|done]. }
  destruct (transact_synced s d' (proj1 Hinv) Hwf') as (_ & Hinv' & Hsy').
  destruct (synced_views _ _ Hsy') as [HKs' HPs'].
  split_and!; [done| |].
  - intros c. by rewrite HKs', Hr, (shape_kids _ _ _ _ Hsh), HKs.
  - intros x. by rewrite HPs', (shape_parentOf _ _ _ Hsh), HPs.
Qed.

Lemma parseBlockType_user newContent :
  parseBlockType newContent ≠ output ∧ parseBlockType newContent ≠ error.
Proof.
  unfold parseBlockType. split; repeat (destruct (_ || _) || destruct (startsWith _ _)); done.
Qed.

(** X23. [updateBlockContent] writes the content, the type parsed from it
    (never [output] or [error]) and the time stamp of one block, and
    nothing else: the tree and every other block are as before, the snapshot
    shows the new content, and an id the document does not hold leaves the
    document as it is. *)
Theorem updateBlockContent_spec (now : Z) (k : string) (newContent : jsstring)
    (s : BlockStore) :
  store_inv s →
  let s' := updateBlockContent now k newContent s in
  store_inv s' ∧
  (∀ c, kids (blocks s') (rootIds s') c = kids (blocks s) (rootIds s) c) ∧
  (∀ x, parentOf (blocks s') x = parentOf (blocks s) x) ∧
  (∀ d b, _doc s = Some d → blocksMap d !! k = Some b →
     docBlock s' k
     = Some (set_updatedAt now
               (set_type (parseBlockType newContent) (set_content newContent b))) ∧
     content <$> blocks s' !! k = Some newContent) ∧
  (∀ d x, _doc s = Some d → x ≠ k → docBlock s' x = blocksMap d !! x) ∧
  (∀ d, _doc s = Some d → blocksMap d !! k = None → _doc s' = Some d) ∧
  parseBlockType newContent ≠ output ∧ parseBlockType newContent ≠ error.
Proof.
  intros Hinv. cbn zeta. unfold updateBlockContent.
  destruct (_doc s) as [d|] eqn:Ed.
  2:{ split_and!; try done; apply parseBlockType_user. }
  set (d' := updateBlockContent_txn now k newContent d).
  assert (shape <$> blocksMap d' = shape <$> blocksMap d) as Hsh.
  { unfold d', updateBlockContent_txn, setValueOnYMap. cbn [blocksMap].
    by rewrite !shape_alter. }
  destruct (kept_shape s d d' Hinv Ed eq_refl Hsh) as (Hinv' & HK & HP).
  assert (_doc (transact s d') = Some d') as Ed' by apply transact_doc.
  destruct (store_inv_doc _ _ Hinv' Ed') as [Hwf' _].
  split_and!; [done|done|done| | | |apply parseBlockType_user..].
  - intros ? b [= <-] Eb.
    assert (blocksMap d' !! k
            = Some (set_updatedAt now
                      (set_type (parseBlockType newContent) (set_content newContent b)))) as Hk.
    { unfold d', updateBlockContent_txn, setValueOnYMap. cbn [blocksMap].
      by rewrite !lookup_alter_eq, Eb. }
    split.
    + unfold docBlock. by rewrite Ed'.
    + erewrite shown_content; [|apply transact_shown; by eapply tree_wf_ids].
      by rewrite Hk.
  - intros ? x [= <-] Hx. unfold docBlock. rewrite Ed'. cbn [mbind option_bind].
    unfold d', updateBlockContent_txn, setValueOnYMap. cbn [blocksMap].
    by rewrite !lookup_alter_ne.
  - intros ? [= <-] Eb. rewrite Ed'. f_equal.
    unfold d', updateBlockContent_txn, setValueOnYMap. destruct d as [m roots].
    cbn [blocksMap rootIdsArr] in *. f_equal.
    rewrite (alter_id' (set_content newContent)) by done.
    rewrite (alter_id' (set_type _)) by done.
    by rewrite alter_id'.
Qed.

Lemma updateBlockContent_spec_witness :
  store_inv scenarioStore ∧
  content <$> blocks (updateBlockContent 1 "B" (lit "sh:: ls") scenarioStore) !! "B"
  = Some (lit "sh:: ls").
Proof.
  assert (store_inv scenarioStore) as Hinv
    by (apply (bool_decide_unpack _); vm_compute; reflexivity).
  split; [done|].
  destruct (updateBlockContent_spec 1 "B" (lit "sh:: ls") scenarioStore Hinv)
    as (_ & _ & _ & Hk & _).
  eapply Hk; vm_compute; reflexivity.
Defined.

(** One effective toggle. *)
Lemma toggleCollapsed_once k s d block :
  store_inv s → _doc s = Some d → blocks s !! k = Some block → childIds block ≠ [] →
  let s' := toggleCollapsed k s in
  store_inv s' ∧ is_Some (_doc s') ∧
  (∀ c, kids (blocks s') (rootIds s') c = kids (blocks s) (rootIds s) c) ∧
  (∀ x, parentOf (blocks s') x = parentOf (blocks s) x) ∧
  collapsed <$> blocks s' !! k = Some (negb (collapsed block)) ∧
  collapsed <$> docBlock s' k = Some (negb (collapsed block)).
Proof.
  intros Hinv Ed Eb Hc. cbn zeta. unfold toggleCollapsed. rewrite Ed, Eb.
  rewrite bool_decide_eq_false_2 by (by destruct (childIds block)).
  set (d' := toggleCollapsed_txn k block d).
  destruct (store_inv_doc _ _ Hinv Ed) as [Hwf Hsy].
  assert (shape <$> blocksMap d' = shape <$> blocksMap d) as Hsh.
  { unfold d', toggleCollapsed_txn, setValueOnYMap. cbn [blocksMap]. by rewrite shape_alter. }
  destruct (kept_shape s d d' Hinv Ed eq_refl Hsh) as (Hinv' & HK & HP).
  assert (_doc (transact s d') = Some d') as Ed' by apply transact_doc.
  destruct (store_inv_doc _ _ Hinv' Ed') as [Hwf' _].
  assert (collapsed <$> blocksMap d' !! k = Some (negb (collapsed block))) as Hk.
  { unfold d', toggleCollapsed_txn, setValueOnYMap. cbn [blocksMap].
    destruct (proj1 (synced_live _ _ k Hsy)) as [b Hb]; [by rewrite Eb|].
    by rewrite lookup_alter_eq, Hb. }
  split_and!; [done|by rewrite Ed'|done|done| |].
  - rewrite <- Hk. apply shown_collapsed, transact_shown. by eapply tree_wf_ids.
  - unfold docBlock. by rewrite Ed'.
Qed.

(** X24. The block's own collapse flag: [toggleCollapsed] does nothing for
    an unknown or childless block; for a block with children it flips the flag
    in the document and in the snapshot and leaves the tree alone, and a
    second toggle flips it back. *)
Theorem block_toggleCollapsed_spec (k : string) (s : BlockStore) :
  store_inv s →
  (blocks s !! k = None → toggleCollapsed k s = s) ∧
  (∀ block, blocks s !! k = Some block → childIds block = [] → toggleCollapsed k s = s) ∧
  (∀ block, is_Some (_doc s) → blocks s !! k = Some block → childIds block ≠ [] →
     let s' := toggleCollapsed k s in
     store_inv s' ∧
     (∀ c, kids (blocks s') (rootIds s') c = kids (blocks s) (rootIds s) c) ∧
     (∀ x, parentOf (blocks s') x = parentOf (blocks s) x) ∧
     collapsed <$> blocks s' !! k = Some (negb (collapsed block)) ∧
     collapsed <$> docBlock s' k = Some (negb (collapsed block)) ∧
     collapsed <$> blocks (toggleCollapsed k s') !! k = Some (collapsed block)).
Proof.
  intros Hinv. split_and!.
  - intros Eb. unfold toggleCollapsed. rewrite Eb. by destruct (_doc s).
  - intros block Eb Hc. unfold toggleCollapsed. rewrite Eb, Hc. by destruct (_doc s).
  - intros block [d Ed] Eb Hc. cbn zeta.
    destruct (toggleCollapsed_once k s d block Hinv Ed Eb Hc)
      as (Hinv' & [d' Ed'] & HK & HP & Hsnap & Hdoc).
    cbn zeta in *. set (s' := toggleCollapsed k s) in *.
    split_and!; [done..|].
    destruct (blocks s' !! k) as [block'|] eqn:Eb'; [|done].
    injection Hsnap as Hsnap.
    assert (childIds block' ≠ []) as Hc'.
    { rewrite <- (kids_of_block _ (rootIds s') _ _ Eb'), HK.
      by rewrite (kids_of_block _ _ _ _ Eb). }
    destruct (toggleCollapsed_once k s' d' block' Hinv' Ed' Eb' Hc')
      as (_ & _ & _ & _ & Hsnap2 & _).
    cbn zeta in Hsnap2. rewrite Hsnap2, Hsnap. by rewrite negb_involutive.
Qed.

Lemma block_toggleCollapsed_spec_witness :
  store_inv scenarioStore ∧
  collapsed <$> blocks (toggleCollapsed "A" scenarioStore) !! "A" = Some true.
Proof.
  assert (store_inv scenarioStore) as Hinv
    by (apply (bool_decide_unpack _); vm_compute; reflexivity).
  split; [done|].
  destruct (proj2 (proj2 (block_toggleCollapsed_spec "A" scenarioStore Hinv))
              (plainBlock "A" None ["B"; "C"])) as (_ & _ & _ & Hk & _).
  - by eexists.
  - vm_compute. reflexivity.
  - done.
  - exact Hk.
Defined.

End edits.

(** ** No tree mutation touches a block's text *)

Section text.
Implicit Types (m : gmap string Block) (roots : list string) (c : option string)
               (s : BlockStore) (d : YDoc) (k p x y : string) (l : list string).

Lemma same_text_refl (b : Block) : same_text b b.
Proof. done. Qed.

Lemma text_kept_refl gone m : text_kept gone m m.
Proof. intros x b Hb _. by exists b. Qed.

Lemma text_kept_trans gone m1 m2 m3 :
  text_kept None m1 m2 → text_kept gone m2 m3 → text_kept gone m1 m3.
Proof.
  intros H12 H23 x b Hb Hx.
  destruct (H12 x b Hb) as (b2 & Hb2 & (? & ? & ? & ?)); [done|].
  destruct (H23 x b2 Hb2 Hx) as (b3 & Hb3 & (? & ? & ? & ?)).
  exists b3. split; [done|]. unfold same_text. split_and!; congruence.
Qed.

Lemma text_kept_alter (f : Block → Block) k m :
  (∀ b, same_text b (f b)) → text_kept None m (alter f k m).
Proof.
  intros Hf x b Hb _. rewrite lookup_alter. case_decide; [|by exists b].
  subst. rewrite Hb. simpl. eauto.
Qed.

Lemma text_kept_insert k nb m : m !! k = None → text_kept None m (<[k := nb]> m).
Proof.
  intros Hk x b Hb _. exists b. split; [|done].
  rewrite lookup_insert_ne; [done|]. intros ->. congruence.
Qed.

Lemma text_kept_delete k m : text_kept (Some k) m (delete k m).
Proof.
  intros x b Hb Hx. exists b. split; [|done].
  rewrite lookup_delete_ne; [done|]. intros ->. done.
Qed.

Lemma text_kept_detached c0 k d : text_kept None (blocksMap d) (blocksMap (detached c0 k d)).
Proof.
  destruct c0 as [p|]; cbn [detached blocksMap]; [|apply text_kept_refl].
  by apply text_kept_alter.
Qed.

Ltac keep_text :=
  repeat first
    [ apply text_kept_refl
    | apply text_kept_detached
    | apply text_kept_alter; done
    | eapply text_kept_trans; [|apply text_kept_alter; done] ].

Lemma text_kept_createBlockAfter newId afterId afterBlock nb d :
  blocksMap d !! newId = None →
  text_kept None (blocksMap d) (blocksMap (createBlockAfter_txn newId afterId afterBlock nb d)).
Proof.
  intros Hnew. unfold createBlockAfter_txn, setValueOnYMap, blockToPlainObject.
  destruct (truthy (parentId afterBlock)); cbn [blocksMap].
  - eapply text_kept_trans; [by apply text_kept_insert|]. by apply text_kept_alter.
  - by apply text_kept_insert.
Qed.

Lemma text_kept_createBlockInside newId parent nb d :
  blocksMap d !! newId = None →
  text_kept None (blocksMap d) (blocksMap (createBlockInside_txn newId parent nb d)).
Proof.
  intros Hnew. unfold createBlockInside_txn, setValueOnYMap, blockToPlainObject.
  cbn [blocksMap].
  eapply text_kept_trans; [|by apply text_kept_alter].
  eapply text_kept_trans; [|by apply text_kept_alter].
  by apply text_kept_insert.
Qed.

Lemma text_kept_deleteBlock k block d :
  text_kept (Some k) (blocksMap d) (blocksMap (deleteBlock_txn k block d)).
Proof.
  unfold deleteBlock_txn. cbn [blocksMap].
  eapply text_kept_trans; [apply text_kept_detached|apply text_kept_delete].
Qed.

Lemma text_kept_indentBlock now k block y d :
  text_kept None (blocksMap d) (blocksMap (indentBlock_txn now k block y d)).
Proof. unfold indentBlock_txn, setValueOnYMap. cbn [blocksMap]. keep_text. Qed.

Lemma text_kept_outdentBlock now k p parent d :
  text_kept None (blocksMap d) (blocksMap (outdentBlock_txn now k p parent d)).
Proof.
  unfold outdentBlock_txn, setValueOnYMap. cbn [blocksMap].
  eapply text_kept_trans; [|by apply text_kept_alter].
  eapply text_kept_trans; [|by apply text_kept_alter].
  set (m1 := match blocksMap d !! p with Some _ => _ | None => _ end).
  assert (text_kept None (blocksMap d) m1) as H1.
  { unfold m1. destruct (blocksMap d !! p); keep_text. }
  destruct (truthy (parentId parent)) as [g|]; cbn [blocksMap]; [|done].
  destruct (m1 !! g); cbn [blocksMap]; [|done].
  eapply text_kept_trans; [exact H1|by apply text_kept_alter].
Qed.

Lemma text_kept_moveBlockUp now k block siblings index d :
  text_kept None (blocksMap d) (blocksMap (moveBlockUp_txn now k block siblings index d)).
Proof.
  unfold moveBlockUp_txn, setValueOnYMap. cbn [blocksMap].
  destruct (truthy (parentId block)); cbn [blocksMap]; keep_text.
Qed.

Lemma text_kept_moveBlockDown now k block siblings index d :
  text_kept None (blocksMap d) (blocksMap (moveBlockDown_txn now k block siblings index d)).
Proof.
  unfold moveBlockDown_txn, setValueOnYMap. cbn [blocksMap].
  destruct (truthy (parentId block)); cbn [blocksMap]; keep_text.
Qed.

(** X25. No tree mutation loses or rewrites text: after any of the seven
    operations every block of the document is still there with the same id,
    content, type and creation time, except the one block [deleteBlock]
    removes, and that block has no children. *)
Theorem mutations_keep_text (o : Op) (s : BlockStore) (d : YDoc) :
  store_inv s → fresh s o → _doc s = Some d →
  ∃ d', _doc (step o s) = Some d' ∧
    ∀ x b, blocksMap d !! x = Some b →
      (∃ b', blocksMap d' !! x = Some b' ∧ same_text b b') ∨
      (o = DeleteBlock x ∧ childIds b = []).
Proof.
  intros Hinv Hfresh Ed.
  destruct (store_inv_doc _ _ Hinv Ed) as [Hwf Hsy].
  assert (∀ d', text_kept None (blocksMap d) (blocksMap d') →
                ∀ x b, blocksMap d !! x = Some b →
                  (∃ b', blocksMap d' !! x = Some b' ∧ same_text b b') ∨
                  (o = DeleteBlock x ∧ childIds b = [])) as Hkept.
  { intros d' Hk x b Hb. left. by apply Hk. }
  assert (∃ d', _doc s = Some d' ∧
            ∀ x b, blocksMap d !! x = Some b →
              (∃ b', blocksMap d' !! x = Some b' ∧ same_text b b') ∨
              (o = DeleteBlock x ∧ childIds b = [])) as Hsame.
  { exists d. split; [done|]. apply Hkept, text_kept_refl. }
  destruct o as [newId now afterId|newId now parent|k|now k|now k|now k|now k];
    cbn [step fresh] in *.
  - unfold createBlockAfter. rewrite Ed.
    destruct (blocks s !! afterId) as [afterBlock|]; [|exact Hsame].
    cbn [snd]. eexists. split; [apply transact_doc|].
    apply Hkept, text_kept_createBlockAfter. eapply fresh_in_doc; [done|apply Hfresh].
  - unfold createBlockInside. rewrite Ed.
    destruct (blocks s !! parent) as [pb|]; [|exact Hsame].
    cbn [snd]. eexists. split; [apply transact_doc|].
    apply Hkept, text_kept_createBlockInside. eapply fresh_in_doc; [done|apply Hfresh].
  - unfold deleteBlock. rewrite Ed.
    destruct (blocks s !! k) as [block|] eqn:Eb; [|exact Hsame].
    case_bool_decide as Hlen; [exact Hsame|].
    eexists. split; [apply transact_doc|].
    intros x b Hb. destruct (decide (x = k)) as [->|Hx].
    + right. split; [done|].
      rewrite <- (kids_of_block _ (rootIdsArr d) _ _ Hb), <- (synced_kids _ _ _ Hsy).
      rewrite (kids_of_block _ _ _ _ Eb). destruct (childIds block); [done|simpl in Hlen; lia].
    + left. apply (text_kept_deleteBlock k block d x b Hb). congruence.
  - unfold indentBlock. rewrite Ed.
    destruct (blocks s !! k) as [block|]; [|exact Hsame]. cbn zeta.
    case_bool_decide; [exact Hsame|].
    destruct (_ !! _) as [y|]; [|exact Hsame].
    destruct (blocks s !! y); [|exact Hsame].
    eexists. split; [apply transact_doc|]. apply Hkept, text_kept_indentBlock.
  - unfold outdentBlock. rewrite Ed.
    destruct (blocks s !! k) as [block|]; [|exact Hsame].
    destruct (truthy (parentId block)) as [p|]; [|exact Hsame].
    destruct (blocks s !! p); [|exact Hsame].
    eexists. split; [apply transact_doc|]. apply Hkept, text_kept_outdentBlock.
  - unfold moveBlockUp. rewrite Ed.
    destruct (blocks s !! k) as [block|]; [|exact Hsame]. cbn zeta.
    case_bool_decide; [exact Hsame|].
    eexists. split; [apply transact_doc|]. apply Hkept, text_kept_moveBlockUp.
  - unfold moveBlockDown. rewrite Ed.
    destruct (blocks s !! k) as [block|]; [|exact Hsame]. cbn zeta.
    destruct (_ || _); [exact Hsame|].
    eexists. split; [apply transact_doc|]. apply Hkept, text_kept_moveBlockDown.
Qed.

Lemma mutations_keep_text_witness :
  store_inv scenarioStore ∧
  content <$> docBlock (step (IndentBlock 1 "C") scenarioStore) "C" = Some [].
Proof.
  assert (store_inv scenarioStore) as Hinv
    by (apply (bool_decide_unpack _); vm_compute; reflexivity).
  split; [done|].
  destruct (mutations_keep_text (IndentBlock 1 "C") scenarioStore scenarioDoc Hinv I eq_refl)
    as (d' & Ed' & Hk).
  unfold docBlock. rewrite Ed'. cbn [mbind option_bind].
  destruct (Hk "C" (plainBlock "C" (Some "A") []) eq_refl)
    as [(b' & -> & (_ & Hc & _))|[? _]]; [|done].
  simpl. by rewrite Hc.
Defined.

End text.

(** ** What the snapshot shows after [_syncFromYDoc] *)

Section snapshot.
Implicit Types (m old new : gmap string Block) (s : BlockStore) (d : YDoc) (k : string).

Lemma blocksChanged_same m : blocksChanged m m = false.
Proof.
  unfold blocksChanged. rewrite bool_decide_eq_true_2 by done. cbn [negb orb].
  apply bool_decide_eq_false_2. intros (k & b & Hk & Hch)%map_Exists_lookup.
  unfold changedAt in Hch. rewrite Hk in Hch.
  by rewrite !bool_decide_eq_true_2 in Hch.
Qed.

Lemma sync_shown old new k :
  blocksChanged old new = false → shown <$> old !! k = shown <$> new !! k.
Proof.
  intros [Hsz Hch]%blocksChanged_false_shown.
  destruct (new !! k) as [b|] eqn:Eb.
  - destruct (Hch k b Eb) as (ob & -> & Hs). simpl. by rewrite Hs.
  - assert (∀ x, is_Some (new !! x) → is_Some (old !! x)) as Hsub.
    { intros x [bx Ex]. destruct (Hch x bx Ex) as (ob & -> & _). eauto. }
    pose proof (proj1 (same_keys _ _ Hsz Hsub k)) as Hk. rewrite Eb in Hk.
    destruct (old !! k); [|done]. destruct Hk as [? ?]; [eauto|done].
Qed.

(** X26. After [_syncFromYDoc] the snapshot has the document's root
    order and shows, for every id, the content, collapse flag and children the
    document holds (objects without an id being dropped); running it again
    changes nothing; without a document it does nothing. *)
Theorem syncFromYDoc_spec (s : BlockStore) :
  (_doc s = None → _syncFromYDoc s = s) ∧
  (∀ d, _doc s = Some d →
     let s' := _syncFromYDoc s in
     _doc s' = Some d ∧
     rootIds s' = rootIdsArr d ∧
     (∀ k, shown <$> blocks s' !! k = shown <$> (blocksMap d !! k ≫= toBlock)) ∧
     _syncFromYDoc s' = s').
Proof.
  split.
  - intros Ed. unfold _syncFromYDoc. by rewrite Ed.
  - intros d Ed. cbn zeta. unfold _syncFromYDoc at 1 2 3 5. rewrite Ed.
    cbn [_doc rootIds blocks].
    assert ((if bool_decide (rootIds s = rootIdsArr d) then rootIds s else rootIdsArr d)
            = rootIdsArr d) as Hr by (by case_bool_decide).
    split_and!; [done|done| |].
    + intros k. rewrite <- lookup_omap.
      destruct (blocksChanged (blocks s) (omap toBlock (blocksMap d))) eqn:E; [done|].
      by apply sync_shown.
    + unfold _syncFromYDoc. rewrite Ed. cbn [_doc rootIds blocks isInitialized].
      rewrite Hr. rewrite bool_decide_eq_true_2 by done.
      destruct (blocksChanged (blocks s) (omap toBlock (blocksMap d))) eqn:E.
      * by rewrite blocksChanged_same.
      * by rewrite E.
Qed.

Lemma syncFromYDoc_spec_witness :
  _doc scenarioStore = Some scenarioDoc ∧
  _syncFromYDoc (_syncFromYDoc scenarioStore) = _syncFromYDoc scenarioStore.
Proof.
  split; [reflexivity|].
  apply (proj2 (syncFromYDoc_spec scenarioStore) scenarioDoc eq_refl).
Defined.

(** X27. [initFromYDoc] establishes the store invariant: from a
    well-formed document, and a snapshot that is empty or left over from
    another well-formed document, it yields an initialized store that is well
    formed and shows the document's tree, root order, contents and collapse
    flags; from the empty snapshot it holds the document's blocks exactly. *)
Theorem initFromYDoc_spec (d : YDoc) (s : BlockStore) :
  tree_wf (blocksMap d) (rootIdsArr d) → tree_wf (blocks s) (rootIds s) →
  let s' := initFromYDoc d s in
  store_inv s' ∧ isInitialized s' = true ∧ _doc s' = Some d ∧
  rootIds s' = rootIdsArr d ∧
  (∀ k, shown <$> blocks s' !! k = shown <$> blocksMap d !! k) ∧
  (blocks s = ∅ → blocks s' = blocksMap d).
Proof.
  intros Hd Hs. cbn zeta. unfold initFromYDoc. cbn [isInitialized _doc rootIds blocks].
  destruct (transact_inv s d Hs Hd) as [Hinv Ed].
  split_and!.
  - unfold store_inv in *. cbn [blocks rootIds _doc]. by rewrite Ed in Hinv |- *.
  - done.
  - done.
  - apply transact_rootIds.
  - intros k. apply transact_shown. by eapply tree_wf_ids.
  - intros Hempty. unfold transact, _syncFromYDoc. cbn [_doc blocks].
    rewrite omap_toBlock by (by eapply tree_wf_ids).
    destruct (blocksChanged (blocks s) (blocksMap d)) eqn:E; [done|].
    apply blocksChanged_false in E as [Hsz _]. rewrite Hempty in Hsz |- *.
    rewrite map_size_empty in Hsz. symmetry. by apply map_size_empty_inv.
Qed.

Lemma initFromYDoc_spec_witness :
  tree_wf (blocksMap scenarioDoc) (rootIdsArr scenarioDoc) ∧
  store_inv (initFromYDoc scenarioDoc emptyStore).
Proof.
  assert (tree_wf (blocksMap scenarioDoc) (rootIdsArr scenarioDoc)) as Hd
    by (apply (bool_decide_unpack _); vm_compute; reflexivity).
  split; [done|].
  apply (initFromYDoc_spec scenarioDoc emptyStore Hd).
  apply (bool_decide_unpack _); vm_compute; reflexivity.
Defined.

End snapshot.

End BlockLaws.

(** * The flattened block list and keyboard navigation *)

Module VirtualBlockListFacts.
Import Types BlockStore BlockFacts VirtualBlockList.

Section paths.
Context (m : gmap string Block).
Implicit Types (x y c p : string) (l : list string).

Lemma top_nil y : top y [] = y.
Proof. done. Qed.

Lemma top_cons y p l : top y (p :: l) = top p l.
Proof.
  unfold top. destruct l as [|q l]; [done|]. rewrite last_cons_cons.
  destruct (last (q :: l)) eqn:E; [done|]. by apply last_None in E.
Qed.

Lemma top_snoc y l x : top y (l ++ [x]) = x.
Proof. unfold top. by rewrite last_snoc. Qed.

Lemma top_app y l1 l2 : top y (l1 ++ l2) = top (top y l1) l2.
Proof.
  revert y. induction l1 as [|p l1 IH]; intros y; simpl; [done|].
  by rewrite !top_cons, IH.
Qed.

Lemma top_inv y l x : top y l = x → (l = [] ∧ y = x) ∨ ∃ l', l = l' ++ [x].
Proof.
  unfold top. destruct (last l) eqn:E; simpl; intros ->.
  - right. by apply last_Some.
  - left. by apply last_None in E.
Qed.

Lemma path_app y l1 l2 : path m y (l1 ++ l2) ↔ path m y l1 ∧ path m (top y l1) l2.
Proof.
  revert y. induction l1 as [|p l1 IH]; intros y; simpl.
  - rewrite top_nil. tauto.
  - rewrite top_cons, IH. tauto.
Qed.

Lemma chain_cons y p l : chain m y (p :: l) ↔ parentOf m y = Some (Some p) ∧ chain m p l.
Proof. unfold chain. simpl. rewrite top_cons. tauto. Qed.

Lemma chain_unique y l l' : chain m y l → chain m y l' → l = l'.
Proof.
  revert y l'. induction l as [|p l IH]; intros y [|p' l'].
  - done.
  - intros [_ Ht] [Hp _]%chain_cons. rewrite top_nil in Ht. congruence.
  - intros [Hp _]%chain_cons [_ Ht]. rewrite top_nil in Ht. congruence.
  - intros [Hp Hl]%chain_cons [Hp' Hl']%chain_cons.
    assert (p = p') as -> by congruence. f_equal. by eapply IH.
Qed.

Lemma chain_extend y l x lx : path m y l → top y l = x → chain m x lx → chain m y (l ++ lx).
Proof.
  intros Hp <- [Hx Ht]. split; [by apply path_app|]. by rewrite top_app.
Qed.

(** No block is its own ancestor on the way to a root. *)
Lemma chain_not_self x l lx : chain m x lx → path m x l → top x l = x → l = [].
Proof.
  intros Hc Hp Ht. pose proof (chain_extend _ _ _ _ Hp Ht Hc) as Hc'.
  pose proof (chain_unique _ _ _ Hc Hc') as Heq. apply (f_equal length) in Heq.
  rewrite length_app in Heq. destruct l; [done|simpl in Heq; lia].
Qed.

Lemma chain_head_live y l : chain m y l → is_Some (m !! y).
Proof.
  destruct l as [|p l].
  - intros [_ Ht]. rewrite top_nil in Ht. by eapply parentOf_live.
  - intros [Hp _]%chain_cons. by eapply parentOf_live.
Qed.

Lemma chain_live y l : chain m y l → Forall (λ a, is_Some (m !! a)) (y :: l).
Proof.
  revert y. induction l as [|p l IH]; intros y Hc.
  - constructor; [by eapply chain_head_live|constructor].
  - constructor; [by eapply chain_head_live|].
    apply chain_cons in Hc as [_ Hc]. by apply IH.
Qed.

Lemma chain_NoDup y l : chain m y l → NoDup (y :: l).
Proof.
  revert y. induction l as [|p l IH]; intros y Hc; [apply NoDup_singleton|].
  apply NoDup_cons. split; [|apply IH; by apply chain_cons in Hc as [_ ?]].
  intros (l1 & l2 & Heq)%list_elem_of_split.
  destruct Hc as [Hp Ht]. rewrite Heq in Hp, Ht.
  change (l1 ++ y :: l2) with (l1 ++ [y] ++ l2) in Hp, Ht. rewrite app_assoc in Hp, Ht.
  apply path_app in Hp as [Hp1 Hp2]. rewrite top_app in Ht. rewrite top_snoc in Hp2, Ht.
  assert (l1 ++ [y] = []) as Hnil.
  { eapply (chain_not_self y _ l2); [by split|exact Hp1|apply top_snoc]. }
  by destruct l1.
Qed.

Lemma chain_bound y l : chain m y l → S (length l) ≤ size m.
Proof.
  intros Hc. pose proof (chain_NoDup _ _ Hc) as Hnd. pose proof (chain_live _ _ Hc) as Hl.
  change (S (length l)) with (length (y :: l)).
  rewrite <- (size_list_to_set (C := gset string)) by done.
  rewrite <- (size_dom (D := gset string) m). apply subseteq_size.
  intros a Ha%elem_of_list_to_set. apply elem_of_dom.
  by apply (proj1 (Forall_forall _ _) Hl).
Qed.

End paths.

Section pairs.

Lemma Forall2_Forall_join {A B} (R : A → list B → Prop) (Q : B → Prop) (cs : list A) (subs : list (list B)) :
  Forall2 R cs subs → (∀ a sub, a ∈ cs → R a sub → Forall Q sub) → Forall Q (mjoin subs).
Proof.
  intros H HQ. apply Forall_join. induction H as [|a sub cs subs Ha H IH]; constructor.
  - eapply HQ; [apply list_elem_of_here|done].
  - apply IH. intros a' sub' Hin. apply HQ. by apply list_elem_of_further.
Qed.

Lemma Forall2_elem_r {A B} (R : A → B → Prop) (cs : list A) (subs : list B) sub :
  Forall2 R cs subs → sub ∈ subs → ∃ a, a ∈ cs ∧ R a sub.
Proof.
  intros H. induction H as [|a s0 cs subs Ha H IH]; [by intros ?%elem_of_nil|].
  intros [->|Hin]%elem_of_cons.
  - exists a. split; [apply list_elem_of_here|done].
  - destruct (IH Hin) as (a' & ? & ?). exists a'. split; [by apply list_elem_of_further|done].
Qed.

Lemma Forall2_elem_l {A B} (R : A → B → Prop) (cs : list A) (subs : list B) a :
  Forall2 R cs subs → a ∈ cs → ∃ sub, sub ∈ subs ∧ R a sub.
Proof.
  intros H. induction H as [|a0 s0 cs subs Ha H IH]; [by intros ?%elem_of_nil|].
  intros [->|Hin]%elem_of_cons.
  - exists s0. split; [apply list_elem_of_here|done].
  - destruct (IH Hin) as (s' & ? & ?). exists s'. split; [by apply list_elem_of_further|done].
Qed.

End pairs.

Section traversal.
Context (ps : PaneStore.PaneStore) (paneId : string).
Context (m : gmap string Block) (roots : list string).
Hypothesis Hwf : tree_wf m roots.
Implicit Types (x y c p : string) (l : list string) (flat : list FlatBlock).

Lemma traverse_S fuel x d :
  traverse ps paneId m (S fuel) x d
  = match m !! x with
    | None => Some []
    | Some block =>
        if negb (PaneStore.isCollapsed ps paneId x (collapsed block))
           && bool_decide (0 < length (childIds block))
        then (λ sub, mkFlatBlock x block d :: mjoin sub)
               <$> mapM (λ childId, traverse ps paneId m fuel childId (S d)) (childIds block)
        else Some [mkFlatBlock x block d]
    end.
Proof. done. Qed.

Lemma child_parent x b c : m !! x = Some b → c ∈ childIds b → parentOf m c = Some (Some x).
Proof.
  intros Hx Hc. apply (tree_wf_listed m roots (Some x) c Hwf). simpl. by rewrite Hx.
Qed.

Lemma parent_child x b c : m !! x = Some b → parentOf m c = Some (Some x) → c ∈ childIds b.
Proof.
  intros Hx Hc. apply (tree_wf_listed m roots (Some x) c Hwf) in Hc. simpl in Hc.
  by rewrite Hx in Hc.
Qed.

(** Every entry is a live block below the start, under expanded ancestors. *)
Lemma traverse_sound fuel x d flat :
  traverse ps paneId m fuel x d = Some flat → Forall (listed_from ps paneId m x d) flat.
Proof.
  revert x d flat. induction fuel as [|fuel IH]; intros x d flat; [done|].
  rewrite traverse_S. destruct (m !! x) as [b|] eqn:Ex; [|intros [= <-]; constructor].
  assert (listed_from ps paneId m x d (mkFlatBlock x b d)) as Hhead.
  { split; [done|]. exists []. cbn. split_and!; [done|done|lia|constructor]. }
  destruct (negb _ && _) eqn:Hg; [|intros [= <-]; constructor; [exact Hhead|constructor]].
  apply andb_true_iff in Hg as [Hcol%negb_true_iff _].
  intros (subs & Hmap & ->)%fmap_Some.
  constructor; [done|]. apply mapM_Some in Hmap.
  apply (Forall2_Forall_join _ _ _ _ Hmap). intros c sub Hc Hsub.
  apply IH in Hsub. eapply Forall_impl; [exact Hsub|].
  intros fb (Hlive & l & Hp & Ht & Hd & Ho). split; [done|].
  exists (l ++ [x]). split_and!.
  - apply path_app. split; [done|]. rewrite Ht. simpl. split; [by eapply child_parent|done].
  - apply top_snoc.
  - rewrite length_app. simpl. lia.
  - apply Forall_app. split; [done|]. constructor; [|done]. by exists b.
Qed.

(** Every live block below the start, under expanded ancestors, is an entry. *)
Lemma traverse_complete fuel x d flat y l :
  traverse ps paneId m fuel x d = Some flat →
  is_Some (m !! y) → path m y l → top y l = x → Forall (expanded ps paneId m) l →
  y ∈ flat_id <$> flat.
Proof.
  revert x d flat y l. induction fuel as [|fuel IH]; intros x d flat y l; [done|].
  rewrite traverse_S. intros Htr Hy Hp Ht Ho.
  destruct (top_inv _ _ _ Ht) as [[-> ->]|[l' ->]].
  - destruct Hy as [b Eb]. rewrite Eb in Htr.
    destruct (negb _ && _).
    + apply fmap_Some in Htr as (subs & _ & ->). rewrite fmap_cons. apply list_elem_of_here.
    + injection Htr as <-. apply list_elem_of_here.
  - apply path_app in Hp as [Hp' [Hpar _]].
    apply Forall_app in Ho as [Ho' Hx]. apply Forall_singleton in Hx as (b & Ex & Hcol).
    rewrite Ex in Htr. pose proof (parent_child _ _ _ Ex Hpar) as Hc.
    rewrite Hcol in Htr. rewrite bool_decide_eq_true_2 in Htr.
    2:{ destruct (childIds b); [by apply elem_of_nil in Hc|simpl; lia]. }
    cbn [negb andb] in Htr. apply fmap_Some in Htr as (subs & Hmap & ->).
    apply mapM_Some in Hmap.
    destruct (Forall2_elem_l _ _ _ _ Hmap Hc) as (sub & Hin & Hsub).
    rewrite fmap_cons. apply list_elem_of_further.
    pose proof (IH _ _ _ y l' Hsub Hy Hp' eq_refl Ho') as Hy'.
    apply list_elem_of_fmap in Hy' as (fb & -> & Hfb).
    apply list_elem_of_fmap. exists fb. split; [done|].
    apply list_elem_of_join. by exists sub.
Qed.

(** Lists that start at distinct blocks with a common chain share no id. *)
Lemma starts_NoDup fuel cs tail d subs :
  (∀ x lx d flat, chain m x lx → traverse ps paneId m fuel x d = Some flat →
                  NoDup (flat_id <$> flat)) →
  NoDup cs → (∀ c, c ∈ cs → chain m c tail) →
  Forall2 (λ c sub, traverse ps paneId m fuel c d = Some sub) cs subs →
  NoDup (flat_id <$> mjoin subs).
Proof.
  intros IH Hnd Hch H. induction H as [|c sub cs subs Hc H IHl]; [constructor|].
  apply NoDup_cons in Hnd as [Hccs Hnd].
  simpl. rewrite fmap_app. apply NoDup_app. split_and!.
  - eapply IH; [apply Hch, list_elem_of_here|done].
  - intros y Hy1 Hy2.
    apply list_elem_of_fmap in Hy1 as (fb1 & -> & Hfb1).
    apply list_elem_of_fmap in Hy2 as (fb2 & Heq & Hfb2).
    apply list_elem_of_join in Hfb2 as (sub' & Hfb2 & Hin).
    destruct (Forall2_elem_r _ _ _ _ H Hin) as (c' & Hc' & Hsub').
    apply traverse_sound in Hc, Hsub'.
    destruct (proj1 (Forall_forall _ _) Hc fb1 Hfb1) as (_ & l1 & Hp1 & Ht1 & _).
    destruct (proj1 (Forall_forall _ _) Hsub' fb2 Hfb2) as (_ & l2 & Hp2 & Ht2 & _).
    rewrite <- Heq in Hp2, Ht2.
    pose proof (chain_extend m _ _ _ _ Hp1 Ht1 (Hch c (list_elem_of_here _ _))) as C1.
    pose proof (chain_extend m _ _ _ _ Hp2 Ht2 (Hch c' (list_elem_of_further _ _ _ Hc'))) as C2.
    pose proof (chain_unique m _ _ _ C1 C2) as E. apply app_inv_tail in E. subst l2.
    apply Hccs. congruence.
  - apply IHl; [done|]. intros c' Hc'. by apply Hch, list_elem_of_further.
Qed.

Lemma traverse_NoDup fuel x lx d flat :
  chain m x lx → traverse ps paneId m fuel x d = Some flat → NoDup (flat_id <$> flat).
Proof.
  revert x lx d flat. induction fuel as [|fuel IH]; intros x lx d flat Hcx; [done|].
  rewrite traverse_S. destruct (m !! x) as [b|] eqn:Ex; [|intros [= <-]; constructor].
  destruct (negb _ && _); [|intros [= <-]; apply NoDup_singleton].
  intros (subs & Hmap & ->)%fmap_Some. apply mapM_Some in Hmap.
  assert (∀ c, c ∈ childIds b → chain m c (x :: lx)) as Hch.
  { intros c Hc. apply chain_cons. split; [by eapply child_parent|done]. }
  rewrite fmap_cons. apply NoDup_cons. split.
  - cbn [flat_id]. intros (fb & Heq & Hfb)%list_elem_of_fmap.
    apply list_elem_of_join in Hfb as (sub & Hfb & Hin).
    destruct (Forall2_elem_r _ _ _ _ Hmap Hin) as (c & Hc & Hsub).
    apply traverse_sound in Hsub.
    destruct (proj1 (Forall_forall _ _) Hsub fb Hfb) as (_ & l1 & Hp1 & Ht1 & _).
    rewrite <- Heq in Hp1, Ht1.
    pose proof (chain_extend m _ _ _ _ Hp1 Ht1 (Hch c Hc)) as C1.
    pose proof (chain_unique m _ _ _ Hcx C1) as E. apply (f_equal length) in E.
    rewrite length_app in E. simpl in E. lia.
  - eapply (starts_NoDup fuel (childIds b) (x :: lx)); [exact IH| |exact Hch|exact Hmap].
    pose proof (tree_wf_NoDup m roots (Some x) Hwf) as Hnd. simpl in Hnd.
    by rewrite Ex in Hnd.
Qed.

(** The recursion finishes within as many levels as there are blocks. *)
Lemma traverse_total fuel x lx d :
  chain m x lx → size m ≤ fuel + length lx → is_Some (traverse ps paneId m fuel x d).
Proof.
  revert x lx d. induction fuel as [|fuel IH]; intros x lx d Hc Hsz.
  - pose proof (chain_bound m _ _ Hc). simpl in Hsz. lia.
  - rewrite traverse_S. destruct (m !! x) as [b|] eqn:Ex; [|eauto].
    destruct (negb _ && _); [|eauto].
    apply fmap_is_Some, mapM_is_Some, Forall_forall. intros c Hcin. simpl.
    apply (IH c (x :: lx)).
    + apply chain_cons. split; [by eapply child_parent|done].
    + simpl. lia.
Qed.

Lemma traverse_more fuel x d flat :
  traverse ps paneId m fuel x d = Some flat → traverse ps paneId m (S fuel) x d = Some flat.
Proof.
  revert x d flat. induction fuel as [|fuel IH]; intros x d flat; [done|].
  intros H. rewrite traverse_S in H |- *.
  destruct (m !! x) as [b|]; [|done]. destruct (negb _ && _); [|done].
  apply fmap_Some in H as (subs & Hm & ->). apply fmap_Some. exists subs. split; [|done].
  apply mapM_Some. apply mapM_Some in Hm. eapply Forall2_impl; [exact Hm|].
  intros c sub. apply IH.
Qed.

Lemma traverse_mono fuel fuel' x d flat :
  fuel ≤ fuel' → traverse ps paneId m fuel x d = Some flat →
  traverse ps paneId m fuel' x d = Some flat.
Proof.
  intros Hle. induction Hle as [|k Hle IH]; [done|].
  intros Htr. by apply traverse_more, IH.
Qed.

Lemma root_chain r : r ∈ roots → chain m r [].
Proof.
  intros Hr. split; [done|]. rewrite top_nil.
  by apply (tree_wf_listed m roots None r Hwf).
Qed.

End traversal.

(** X28. On a well-formed tree the flattening finishes: with more fuel
    than there are blocks it returns a list, for the pane root and for a pane
    zoomed to an unknown block or to a block attached to a root, and more
    fuel gives the same list. *)
Theorem flatBlocks_terminates (ps : PaneStore.PaneStore) (paneId : string)
    (m : gmap string Block) (roots : list string) (fuel : nat) (rootBlockId : string) :
  tree_wf m roots → size m < fuel →
  (rootBlockId ≠ "root" → m !! rootBlockId = None ∨ attached m rootBlockId) →
  ∃ flat, flatBlocks ps paneId m fuel roots rootBlockId = Some flat ∧
          ∀ fuel', fuel ≤ fuel' →
                   flatBlocks ps paneId m fuel' roots rootBlockId = Some flat.
Proof.
  intros Hwf Hsz Hzoom. unfold flatBlocks.
  destruct (decide (rootBlockId = "root")) as [_|Hr].
  - assert (is_Some (mapM (λ rootId, traverse ps paneId m fuel rootId 0) roots)) as [subs Hs].
    { apply mapM_is_Some, Forall_forall. intros r Hr. simpl.
      apply (traverse_total ps paneId m roots Hwf fuel r []); [by apply (root_chain m roots Hwf)|].
      simpl. lia. }
    exists (mjoin subs). rewrite Hs. split; [done|].
    intros fuel' Hle. apply fmap_Some. exists subs. split; [|done].
    apply mapM_Some. apply mapM_Some in Hs. eapply Forall2_impl; [exact Hs|].
    intros r sub. by apply traverse_mono.
  - assert (is_Some (traverse ps paneId m fuel rootBlockId 0)) as [flat Hf].
    { destruct (Hzoom Hr) as [Hnone|[lx Hc]].
      - destruct fuel; [lia|]. rewrite traverse_S, Hnone. eauto.
      - apply (traverse_total ps paneId m roots Hwf fuel _ lx); [done|lia]. }
    exists flat. split; [done|]. intros fuel' Hle. by eapply traverse_mono.
Qed.

Lemma flatBlocks_terminates_witness :
  tree_wf (blocks scenarioStore) (rootIds scenarioStore) ∧
  is_Some (flatBlocks PaneStore.initialStore "pane-1" (blocks scenarioStore) 4
             (rootIds scenarioStore) "root").
Proof.
  assert (tree_wf (blocks scenarioStore) (rootIds scenarioStore)) as Hwf
    by (apply (bool_decide_unpack _); vm_compute; reflexivity).
  split; [done|].
  destruct (flatBlocks_terminates PaneStore.initialStore "pane-1" (blocks scenarioStore)
              (rootIds scenarioStore) 4 "root" Hwf) as (flat & -> & _).
  - vm_compute. lia.
  - done.
  - by eexists.
Defined.

(** X29. What the flattened list holds, on a well-formed tree: every
    entry is a live block with its own record, at the depth that is its
    distance to the start, all of whose ancestors up to the start are expanded
    in this pane; every such block is in the list; and no id is listed
    twice.  So a block under a collapsed ancestor is never shown, and a
    block that is shown is shown once. *)
Theorem flatBlocks_spec (ps : PaneStore.PaneStore) (paneId : string)
    (m : gmap string Block) (roots : list string) (fuel : nat) (rootBlockId : string)
    (flat : list FlatBlock) :
  tree_wf m roots →
  flatBlocks ps paneId m fuel roots rootBlockId = Some flat →
  (∀ fb, fb ∈ flat →
         ∃ r, r ∈ startIds roots rootBlockId ∧ listed_from ps paneId m r 0 fb) ∧
  (∀ y l, is_Some (m !! y) → path m y l → top y l ∈ startIds roots rootBlockId →
          Forall (expanded ps paneId m) l → y ∈ getLinearOrder flat) ∧
  ((rootBlockId ≠ "root" → m !! rootBlockId = None ∨ attached m rootBlockId) →
   NoDup (getLinearOrder flat)).
Proof.
  intros Hwf. unfold flatBlocks, startIds, getLinearOrder.
  destruct (decide (rootBlockId = "root")) as [_|Hr].
  - intros (subs & Hmap & ->)%fmap_Some. apply mapM_Some in Hmap. split_and!.
    + intros fb (sub & Hfb & Hin)%list_elem_of_join.
      destruct (Forall2_elem_r _ _ _ _ Hmap Hin) as (r & Hrin & Hsub).
      exists r. split; [done|].
      apply (traverse_sound ps paneId m roots Hwf) in Hsub.
      by apply (proj1 (Forall_forall _ _) Hsub).
    + intros y l Hy Hp Ht Ho.
      destruct (Forall2_elem_l _ _ _ _ Hmap Ht) as (sub & Hin & Hsub).
      pose proof (traverse_complete ps paneId m roots Hwf _ _ _ _ y l Hsub Hy Hp eq_refl Ho)
        as Hy'.
      apply list_elem_of_fmap in Hy' as (fb & -> & Hfb).
      apply list_elem_of_fmap. exists fb. split; [done|].
      apply list_elem_of_join. by exists sub.
    + intros _. eapply (starts_NoDup ps paneId m roots Hwf fuel roots [] 0).
      * intros x lx d flat. apply (traverse_NoDup ps paneId m roots Hwf).
      * by destruct Hwf as (_ & ? & _).
      * intros r Hrin. by apply (root_chain m roots Hwf).
      * exact Hmap.
  - intros Htr. split_and!.
    + intros fb Hfb. exists rootBlockId. split; [apply list_elem_of_here|].
      apply (traverse_sound ps paneId m roots Hwf) in Htr.
      by apply (proj1 (Forall_forall _ _) Htr).
    + intros y l Hy Hp Ht%list_elem_of_singleton Ho.
      by apply (traverse_complete ps paneId m roots Hwf _ _ _ _ y l Htr).
    + intros Hzoom. destruct (Hzoom Hr) as [Hnone|[lx Hc]].
      * destruct fuel; [done|]. rewrite traverse_S, Hnone in Htr.
        injection Htr as <-. constructor.
      * by apply (traverse_NoDup ps paneId m roots Hwf fuel rootBlockId lx 0).
Qed.

Lemma flatBlocks_spec_witness :
  tree_wf (blocks scenarioStore) (rootIds scenarioStore) ∧
  NoDup (getLinearOrder
           (default [] (flatBlocks PaneStore.initialStore "pane-1" (blocks scenarioStore) 4
                          (rootIds scenarioStore) "root"))).
Proof.
  assert (tree_wf (blocks scenarioStore) (rootIds scenarioStore)) as Hwf
    by (apply (bool_decide_unpack _); vm_compute; reflexivity).
  split; [done|].
  eapply (flatBlocks_spec PaneStore.initialStore "pane-1" (blocks scenarioStore)
            (rootIds scenarioStore) 4 "root" _ Hwf).
  - vm_compute. reflexivity.
  - done.
Defined.

(** ** Keyboard navigation over the linear order *)

Section navigation.
Implicit Types (x y : string) (order l : list string).







End navigation.

End VirtualBlockListFacts.

